(** * lega: verification of the update-directory tool (src/lega.js)

    The script is a set of command handlers over Node's synchronous [fs]
    primitives, POSIX [path] arithmetic, a console, and one FTP upload loop.
    The embedding keeps that shape:

    - the file system is a tree of named entries ([node]), addressed by
      absolute normalised paths (lists of components); where the script
      hands [fs] a string that [path] has not normalised to that form (a
      name that ends in a separator, the argument of [add] as typed), the
      string is resolved as the system calls resolve it;
    - every [fs.*Sync] primitive is a command of a small state-and-exception
      monad [M] over a [world] (the file system and the console output);
      an exception keeps the effects made before it, as in the runtime;
    - the recursive walks of the script ([copyDirectory], [deleteDirectory],
      [compareFilesRecursively], [listFilesRecursively], [listFiles]) read
      the directory they are given from the current file system, so they are
      defined with a recursion budget and proved to finish within the height
      of the tree they walk. *)

From Stdlib Require Import List String Ascii NArith Bool Arith Lia.
From Stdlib.Strings Require Import Byte.
From Stdlib Require DecimalString DecimalN.
Import ListNotations.
Local Open Scope string_scope.
Local Open Scope list_scope.

Set Implicit Arguments.
Local Set Warnings "-register-all".

(* ================================================================== *)
(** * The file system *)
(* ================================================================== *)

(** A file holds bytes, a directory holds named entries in enumeration
    order, the order [readdirSync] returns them in. *)
Inductive node : Type :=
| File (data : list byte)
| Dir (entries : list (string * node)).

(** An absolute, normalised path: its components from the root. *)
Definition path := list string.

Definition isDir (t : node) : bool :=
  match t with Dir _ => true | File _ => false end.

Fixpoint child (name : string) (es : list (string * node)) : option node :=
  match es with
  | [] => None
  | (n, c) :: es' => if String.eqb name n then Some c else child name es'
  end.

(** Replace the entry called [name], or append it when there is none. *)
Fixpoint set_child (name : string) (c : node) (es : list (string * node))
  : list (string * node) :=
  match es with
  | [] => [(name, c)]
  | (n, c') :: es' =>
      if String.eqb name n then (n, c) :: es' else (n, c') :: set_child name c es'
  end.

Fixpoint del_child (name : string) (es : list (string * node))
  : list (string * node) :=
  match es with
  | [] => []
  | (n, c) :: es' =>
      if String.eqb name n then es' else (n, c) :: del_child name es'
  end.

Fixpoint lookup (p : path) (t : node) : option node :=
  match p with
  | [] => Some t
  | n :: p' =>
      match t with
      | Dir es => match child n es with
                  | Some c => lookup p' c
                  | None => None
                  end
      | File _ => None
      end
  end.

Inductive errno : Type :=
| ENOENT | ENOTDIR | EISDIR | EEXIST | ENOTEMPTY | EBUSY.

(** Why a path does not resolve: a component below a regular file gives
    [ENOTDIR], a missing component gives [ENOENT]. *)
Fixpoint absent_errno (p : path) (t : node) : errno :=
  match p with
  | [] => ENOENT
  | n :: p' =>
      match t with
      | Dir es => match child n es with
                  | Some c => absent_errno p' c
                  | None => ENOENT
                  end
      | File _ => ENOTDIR
      end
  end.

(** A file name that may end in a separator, as [path.join] returns it
    when its last argument does: its components, and whether the
    separator is there. For the system calls such a name leads to a
    directory or to nothing: on a regular file [a.txt] the name [a.txt/]
    fails with [ENOTDIR]. *)
Record filename : Type := Filename { components : path; trailingSep : bool }.

(** What the name leads to. *)
Definition stat (f : filename) (t : node) : option node :=
  match lookup (components f) t with
  | Some (File d) => if trailingSep f then None else Some (File d)
  | o => o
  end.

(** Change what is at path [p]: [f] receives the entry there ([None] when
    the last component is missing) and answers with its replacement
    ([None] to remove it) or an error. All the components before the last
    must be directories. *)
Fixpoint alterO (p : path) (f : option node -> errno + option node)
  (o : option node) : errno + option node :=
  match p with
  | [] => f o
  | n :: p' =>
      match o with
      | None => inl ENOENT
      | Some (File _) => inl ENOTDIR
      | Some (Dir es) =>
          match alterO p' f (child n es) with
          | inl e => inl e
          | inr (Some c) => inr (Some (Dir (set_child n c es)))
          | inr None => inr (Some (Dir (del_child n es)))
          end
      end
  end.

Definition alter (p : path) (f : option node -> errno + option node)
  (t : node) : errno + node :=
  match alterO p f (Some t) with
  | inl e => inl e
  | inr (Some t') => inr t'
  | inr None => inl EBUSY
  end.

(** [mkdir -p]: creates the missing components; an existing directory is
    left as it is; a regular file in the way is an error. *)
Fixpoint mkdirO (p : path) (o : option node) : errno + node :=
  match p with
  | [] =>
      match o with
      | None => inr (Dir [])
      | Some (Dir es) => inr (Dir es)
      | Some (File _) => inl EEXIST
      end
  | n :: p' =>
      match o with
      | Some (File _) => inl ENOTDIR
      | Some (Dir es) =>
          match mkdirO p' (child n es) with
          | inl e => inl e
          | inr c => inr (Dir (set_child n c es))
          end
      | None =>
          match mkdirO p' None with
          | inl e => inl e
          | inr c => inr (Dir [(n, c)])
          end
      end
  end.

(* ================================================================== *)
(** * Console output *)
(* ================================================================== *)

(** What a rejected promise or a thrown exception carries: a file-system
    error, or the error the FTP client passes to the callback of [put]. *)
Inductive failure : Type :=
| FsFailure (e : errno)
| PutFailure (message : string).

(** The lines the script prints with [console.log] and [console.error]:
    one constructor per message template, the arguments are the values
    interpolated into the template. What [readline] writes for the
    prompt of [push] is not among them. *)
Inductive event : Type :=
| LogCreated (updateDir : string)
| LogAdded (filePath updateDir : string)
| ErrVersionDirMissing (version : string)
| LogNoFiles (version : string)
| LogFilesIn (version : string)
| LogPath (p : path)
| LogRemoved (file : filename)
| LogDoesNotExist (file : filename)
| LogDirMissingInNew (oldFilePath : path)
| LogFileMissingInNew (oldFilePath : path)
| LogDiffers (name : string)
| LogMissingInOld (newFilePath : path)
| LogBackupCreated (backupDir : path)
| ErrBackupMissing (backupDir : string)
| LogRestored (updateDir backupDir : string)
| ErrNewDirMissing (updateDir : string)
| OpenInVSCode (p : path)
| LogSpecifyVersion
| LogCredentialsNotSet
| LogFilesToBeUploaded
| LogPlanned (localFilePath remoteFilePath : path)
| LogConfirmedStarting
| LogUploaded (localFilePath remoteFilePath : path)
| LogUploadCompleted
| LogCancelled
| ErrDuringUpload (err : failure)
| ErrFtpClient (message : string)
| ErrClientClosed
| LogClientClosed.

(* ================================================================== *)
(** * The monad of the command handlers *)
(* ================================================================== *)

Record world : Type := World { fs : node; out : list event }.

(** [Timeout] is the model's recursion budget running out; it is not an
    outcome of the script. *)
Inductive res (A : Type) : Type :=
| Ok (a : A)
| Throw (e : errno)
| Timeout.
Arguments Ok {A} a.
Arguments Throw {A} e.
Arguments Timeout {A}.

Definition M (A : Type) : Type := world -> res A * world.

Definition ret {A} (a : A) : M A := fun w => (Ok a, w).

Definition bind {A B} (m : M A) (k : A -> M B) : M B :=
  fun w =>
    match m w with
    | (Ok a, w') => k a w'
    | (Throw e, w') => (Throw e, w')
    | (Timeout, w') => (Timeout, w')
    end.

Definition throw {A} (e : errno) : M A := fun w => (Throw e, w).
Definition timeout {A} : M A := fun w => (Timeout, w).

Declare Scope fs_scope.
Delimit Scope fs_scope with fs.
Notation "x <- m ;; k" := (bind m (fun x => k))
  (at level 61, m at next level, right associativity) : fs_scope.
Notation "m ;;; k" := (bind m (fun _ => k))
  (at level 61, right associativity) : fs_scope.
Local Open Scope fs_scope.

(** [array.forEach(callback)] *)
Fixpoint forEach {A} (l : list A) (f : A -> M unit) : M unit :=
  match l with
  | [] => ret tt
  | a :: l' => f a ;;; forEach l' f
  end.

Definition log (e : event) : M unit :=
  fun w => (Ok tt, World (fs w) (out w ++ [e])).

(** ** The [fs] primitives *)

Definition existsSync (p : path) : M bool :=
  fun w => (Ok (match lookup p (fs w) with Some _ => true | None => false end), w).

(** An entry of [readdirSync(dir, { withFileTypes: true })]. *)
Record dirent : Type := Dirent { name : string; isDirectory : bool }.

Definition dirents (es : list (string * node)) : list dirent :=
  map (fun e => Dirent (fst e) (isDir (snd e))) es.

Definition readdirSync (p : path) : M (list dirent) :=
  fun w =>
    match lookup p (fs w) with
    | Some (Dir es) => (Ok (dirents es), w)
    | Some (File _) => (Throw ENOTDIR, w)
    | None => (Throw (absent_errno p (fs w)), w)
    end.

Definition readFileSync (p : path) : M (list byte) :=
  fun w =>
    match lookup p (fs w) with
    | Some (File d) => (Ok d, w)
    | Some (Dir _) => (Throw EISDIR, w)
    | None => (Throw (absent_errno p (fs w)), w)
    end.

(** [fs.lstatSync(p).isDirectory()] *)
Definition lstatSync_isDirectory (p : path) : M bool :=
  fun w =>
    match lookup p (fs w) with
    | Some t => (Ok (isDir t), w)
    | None => (Throw (absent_errno p (fs w)), w)
    end.

Definition modify (f : node -> errno + node) : M unit :=
  fun w =>
    match f (fs w) with
    | inr t => (Ok tt, World t (out w))
    | inl e => (Throw e, w)
    end.

(** [fs.mkdirSync(p, { recursive: true })] *)
Definition mkdirSync (p : path) : M unit :=
  modify (fun t => mkdirO p (Some t)).

Definition write_file (d : list byte) (o : option node) : errno + option node :=
  match o with
  | Some (Dir _) => inl EISDIR
  | _ => inr (Some (File d))
  end.

Definition copyFileSync (src dest : path) : M unit :=
  d <- readFileSync src ;;
  modify (alter dest (write_file d)).

Definition unlink_entry (o : option node) : errno + option node :=
  match o with
  | Some (File _) => inr None
  | Some (Dir _) => inl EISDIR
  | None => inl ENOENT
  end.

Definition unlinkSync (p : path) : M unit := modify (alter p unlink_entry).

Definition rmdir_entry (o : option node) : errno + option node :=
  match o with
  | Some (Dir []) => inr None
  | Some (Dir (_ :: _)) => inl ENOTEMPTY
  | Some (File _) => inl ENOTDIR
  | None => inl ENOENT
  end.

Definition rmdirSync (p : path) : M unit := modify (alter p rmdir_entry).

(** [fs.existsSync] and [fs.unlinkSync] on a name that may end in a
    separator. *)
Definition existsSync_name (f : filename) : M bool :=
  fun w => (Ok (match stat f (fs w) with Some _ => true | None => false end), w).

Definition unlinkSync_name (f : filename) : M unit :=
  if trailingSep f then
    fun w =>
      match lookup (components f) (fs w) with
      | Some (Dir _) => (Throw EISDIR, w)
      | Some (File _) => (Throw ENOTDIR, w)
      | None => (Throw (absent_errno (components f) (fs w)), w)
      end
  else unlinkSync (components f).

(* ================================================================== *)
(** * [Buffer.prototype.toString()] *)
(* ================================================================== *)

(** A JavaScript string is a sequence of UTF-16 code units. *)
Definition jsstring := list N.

Definition REPLACEMENT : N := 0xFFFD.

(** The decoder is either between characters, or inside a multi-byte
    sequence: the code point so far, the continuation bytes still due, and
    the range allowed for the next byte. *)
Inductive utf8 : Type :=
| Start
| More (cp : N) (due : nat) (lo hi : N).

Definition inrange (lo hi b : N) : bool := (lo <=? b)%N && (b <=? hi)%N.

Definition lead (b : N) : list N * utf8 :=
  if (b <=? 0x7F)%N then ([b], Start)
  else if inrange 0xC2 0xDF b then ([], More (N.land b 0x1F) 1 0x80 0xBF)%N
  else if inrange 0xE0 0xEF b then
    ([], More (N.land b 0xF) 2
           (if (b =? 0xE0)%N then 0xA0 else 0x80)
           (if (b =? 0xED)%N then 0x9F else 0xBF))%N
  else if inrange 0xF0 0xF4 b then
    ([], More (N.land b 0x7) 3
           (if (b =? 0xF0)%N then 0x90 else 0x80)
           (if (b =? 0xF4)%N then 0x8F else 0xBF))%N
  else ([REPLACEMENT], Start).

(** A byte that cannot continue the sequence ends it with U+FFFD and is
    itself decoded again as the first byte of a character. *)
Definition utf8_step (st : utf8) (b : N) : list N * utf8 :=
  match st with
  | Start => lead b
  | More cp due lo hi =>
      if inrange lo hi b then
        let cp' := N.lor (N.shiftl cp 6) (N.land b 0x3F) in
        match due with
        | S (S d) => ([], More cp' (S d) 0x80 0xBF)%N
        | _ => ([cp'], Start)
        end
      else let (o, st') := lead b in (REPLACEMENT :: o, st')
  end.

Fixpoint utf8_decode (st : utf8) (bs : list byte) : list N :=
  match bs with
  | [] => match st with Start => [] | More _ _ _ _ => [REPLACEMENT] end
  | b :: bs' =>
      let (o, st') := utf8_step st (Byte.to_N b) in o ++ utf8_decode st' bs'
  end.

Definition utf16 (cp : N) : list N :=
  if (cp <? 0x10000)%N then [cp]
  else let c := (cp - 0x10000)%N in
       [0xD800 + N.shiftr c 10; 0xDC00 + N.land c 0x3FF]%N.

Definition toString (buf : list byte) : jsstring :=
  flat_map utf16 (utf8_decode Start buf).

(** [===] on strings *)
Fixpoint jsstring_eqb (a b : jsstring) : bool :=
  match a, b with
  | [], [] => true
  | x :: a', y :: b' => (x =? y)%N && jsstring_eqb a' b'
  | _, _ => false
  end.

(* ================================================================== *)
(** * POSIX [path] *)
(* ================================================================== *)

Fixpoint split_slash (s : string) : list string :=
  match s with
  | EmptyString => [EmptyString]
  | String c s' =>
      if Ascii.eqb c "/" then EmptyString :: split_slash s'
      else match split_slash s' with
           | [] => [String c EmptyString]
           | seg :: r => String c seg :: r
           end
  end.

Definition isAbsolute (s : string) : bool :=
  match s with
  | String c _ => Ascii.eqb c "/"
  | EmptyString => false
  end.

(** Normalisation: the components seen so far are kept as a stack; an
    empty component and [.] are skipped, [..] drops the last component
    and stays at the root when there is none. *)
Fixpoint walk (stack : list string) (segs : list string) : list string :=
  match segs with
  | [] => stack
  | seg :: r =>
      if (seg =? "") || (seg =? ".") then walk stack r
      else if seg =? ".." then walk (tl stack) r
      else walk (seg :: stack) r
  end.

(** [path.join(base, ...segs)] for an absolute normalised [base]. *)
Definition joinSegs (base : path) (segs : list string) : path :=
  rev (walk (rev base) segs).

Definition join (base : path) (s : string) : path :=
  joinSegs base (split_slash s).

(** The string ends in a separator. *)
Fixpoint endsWithSlash (s : string) : bool :=
  match s with
  | EmptyString => false
  | String c EmptyString => Ascii.eqb c "/"
  | String _ s' => endsWithSlash s'
  end.

(** [path.join(base, ...segs, last)] as a file name: the separator at the
    end of the last argument is kept. *)
Definition joinName (base : path) (segs : list string) (last : string)
  : filename :=
  Filename (joinSegs base (segs ++ split_slash last)) (endsWithSlash last).

(** [path.resolve(cwd, s)] *)
Definition resolve (cwd : path) (s : string) : path :=
  if isAbsolute s then joinSegs [] (split_slash s)
  else joinSegs cwd (split_slash s).

(** [path.relative(from, to)] for two absolute normalised paths, as the
    list of components of the string it returns. *)
Fixpoint relative (from to : path) : list string :=
  match from, to with
  | f :: from', t :: to' =>
      if f =? t then relative from' to' else map (fun _ => "..") from ++ to
  | _, _ => map (fun _ => "..") from ++ to
  end.

(** [path.dirname] *)
Definition dirname (p : path) : path := removelast p.

(** Normalisation of a relative string: as [walk], but a [..] that has
    nothing to drop is kept. *)
Fixpoint walkAbove (stack : list string) (segs : list string) : list string :=
  match segs with
  | [] => stack
  | seg :: r =>
      if (seg =? "") || (seg =? ".") then walkAbove stack r
      else if seg =? ".." then
        match stack with
        | top :: rest =>
            if top =? ".." then walkAbove (".." :: stack) r
            else walkAbove rest r
        | [] => walkAbove [".."] r
        end
      else walkAbove (seg :: stack) r
  end.

(** [path.normalize] of a string that need not be absolute, as
    [path.join] applies it to its first argument: the components of the
    result. A relative string keeps the [..] it begins with; an absolute
    one begins with the empty component, so that in both cases the
    result is the components joined by [/]. *)
Definition normalize (s : string) : list string :=
  if isAbsolute s then "" :: joinSegs [] (split_slash s)
  else rev (walkAbove [] (split_slash s)).

(** [p] is [q] or lies below it. *)
Fixpoint is_prefix (q p : path) : bool :=
  match q, p with
  | [], _ => true
  | a :: q', b :: p' => (a =? b) && is_prefix q' p'
  | _ :: _, [] => false
  end.

(** ** A path string as the system calls resolve it

    [fs.copyFileSync(filePath, ...)] in [add] receives the string the
    operator typed. The system call walks it one component at a time,
    from the working directory or, for an absolute string, from the
    root: each component is looked up in a directory that exists, an
    empty component and [.] stay there, [..] goes to the parent. So
    [a.txt/] fails on a regular file and [ghost/../a.txt] fails when
    there is no [ghost], although both normalise to [a.txt]. The result is
    the path of the entry the string leads to. *)
Fixpoint namei (t : node) (cur : path) (segs : list string) : errno + path :=
  match segs with
  | [] => inr cur
  | seg :: r =>
      match lookup cur t with
      | Some (Dir _) =>
          if (seg =? "") || (seg =? ".") then namei t cur r
          else if seg =? ".." then namei t (removelast cur) r
          else match lookup (cur ++ [seg]) t with
               | Some _ => namei t (cur ++ [seg]) r
               | None => inl ENOENT
               end
      | Some (File _) => inl ENOTDIR
      | None => inl ENOENT
      end
  end.

Definition realpath (cwd : path) (s : string) (t : node) : errno + path :=
  if s =? "" then inl ENOENT
  else namei t (if isAbsolute s then [] else cwd) (split_slash s).

(** [fs.copyFileSync(src, dest)] where [src] is a path string and [dest]
    an absolute normalised path. *)
Definition copyFileSync_from (cwd : path) (src : string) (dest : path)
  : M unit :=
  fun w =>
    match realpath cwd src (fs w) with
    | inr p => copyFileSync p dest w
    | inl e => (Throw e, w)
    end.

(* ================================================================== *)
(** * The recursive walks *)
(* ================================================================== *)

(** A directory entry's name is one plain component, so
    [path.join(dir, entry.name)] is [dir ++ [name entry]]. *)

(** [replicateStructure] (lines 15-26): the directories of [srcDir] are
    created below [destDir], the files are skipped. *)
Fixpoint replicateStructure (fuel : nat) (srcDir destDir : path) : M unit :=
  match fuel with
  | O => timeout
  | S k =>
      entries <- readdirSync srcDir ;;
      forEach entries (fun entry =>
        let srcPath := srcDir ++ [name entry] in
        let destPath := destDir ++ [name entry] in
        if isDirectory entry then
          e <- existsSync destPath ;;
          (if negb e then mkdirSync destPath else ret tt) ;;;
          replicateStructure k srcPath destPath
        else ret tt)
  end.

(** [copyDirectory] (lines 343-354 and 388-399) *)
Fixpoint copyDirectory (fuel : nat) (src dest : path) : M unit :=
  match fuel with
  | O => timeout
  | S k =>
      mkdirSync dest ;;;
      entries <- readdirSync src ;;
      forEach entries (fun entry =>
        let srcPath := src ++ [name entry] in
        let destPath := dest ++ [name entry] in
        if isDirectory entry then copyDirectory k srcPath destPath
        else copyFileSync srcPath destPath)
  end.

(** [deleteDirectory] (lines 372-384) *)
Fixpoint deleteDirectory (fuel : nat) (dir : path) : M unit :=
  match fuel with
  | O => timeout
  | S k =>
      e <- existsSync dir ;;
      if e then
        files <- readdirSync dir ;;
        forEach (map name files) (fun file =>
          let curPath := dir ++ [file] in
          d <- lstatSync_isDirectory curPath ;;
          if d then deleteDirectory k curPath else unlinkSync curPath) ;;;
        rmdirSync dir
      else ret tt
  end.

(** [new Set(names).has(n)] *)
Definition has (names : list string) (n : string) : bool :=
  existsb (String.eqb n) names.

(** [compareFilesRecursively] (lines 295-331) *)
Fixpoint compareFilesRecursively (fuel : nat) (oldPath newPath : path) : M unit :=
  match fuel with
  | O => timeout
  | S k =>
      oldFiles <- readdirSync oldPath ;;
      newFiles <- readdirSync newPath ;;
      let oldFileNames := map name oldFiles in
      let newFileNames := map name newFiles in
      forEach oldFiles (fun file =>
        let oldFilePath := oldPath ++ [name file] in
        let newFilePath := newPath ++ [name file] in
        if isDirectory file then
          if has newFileNames (name file)
          then compareFilesRecursively k oldFilePath newFilePath
          else log (LogDirMissingInNew oldFilePath)
        else
          if negb (has newFileNames (name file))
          then log (LogFileMissingInNew oldFilePath)
          else
            oldFileContent <- readFileSync oldFilePath ;;
            newFileContent <- readFileSync newFilePath ;;
            if negb (jsstring_eqb (toString oldFileContent)
                                  (toString newFileContent))
            then log (LogDiffers (name file))
            else ret tt) ;;;
      forEach newFiles (fun file =>
        if negb (has oldFileNames (name file))
        then log (LogMissingInOld (newPath ++ [name file]))
        else ret tt)
  end.

(** [listFilesRecursively] (lines 245-255). The accumulator [fileList] is
    one array shared by all the recursive calls: it is threaded through
    them. *)
Fixpoint foldM {A B} (l : list A) (acc : B) (f : B -> A -> M B) : M B :=
  match l with
  | [] => ret acc
  | a :: l' => acc' <- f acc a ;; foldM l' acc' f
  end.

Fixpoint listFilesRecursively (fuel : nat) (dir : path) (fileList : list path)
  : M (list path) :=
  match fuel with
  | O => timeout
  | S k =>
      entries <- readdirSync dir ;;
      foldM entries fileList (fun fileList entry =>
        let entryPath := dir ++ [name entry] in
        if isDirectory entry then listFilesRecursively k entryPath fileList
        else ret (fileList ++ [entryPath]))
  end.

(* ================================================================== *)
(** * The command handlers *)
(* ================================================================== *)

(** [openInVSCode] (lines 71-84) hands the path to the editor through
    [exec]; what the editor answers arrives later and is not modelled. *)
Definition openInVSCode (filePath : path) : M unit := log (OpenInVSCode filePath).

(** [openFilesInVSCode] (lines 417-426) *)
Fixpoint openFilesInVSCode (fuel : nat) (dir : path) : M unit :=
  match fuel with
  | O => timeout
  | S k =>
      entries <- readdirSync dir ;;
      forEach entries (fun entry =>
        let entryPath := dir ++ [name entry] in
        if isDirectory entry then openFilesInVSCode k entryPath
        else openInVSCode entryPath)
  end.

Section Commands.

(** [process.cwd()] and the recursion budget of the walks. *)
Variable cwd : path.
Variable fuel : nat.

(** [create] (lines 28-47) *)
Definition create_action (updateDir : string) : M unit :=
  let fullPath := resolve cwd updateDir in
  let oldDir := fullPath ++ ["old"] in
  let newDir := fullPath ++ ["new"] in
  e <- existsSync fullPath ;;
  (if negb e then mkdirSync fullPath else ret tt) ;;;
  e <- existsSync oldDir ;;
  (if negb e then mkdirSync oldDir else ret tt) ;;;
  e <- existsSync newDir ;;
  (if negb e then mkdirSync newDir else ret tt) ;;;
  log (LogCreated updateDir).

(** [add] (lines 49-69) *)
Definition add_relPath (filePath : string) : list string :=
  relative cwd (resolve cwd filePath).
Definition add_destOldPath (updateDir filePath : string) : path :=
  joinSegs (resolve cwd updateDir ++ ["old"]) (add_relPath filePath).
Definition add_destNewPath (updateDir filePath : string) : path :=
  joinSegs (resolve cwd updateDir ++ ["new"]) (add_relPath filePath).

Definition add_action (updateDir filePath : string) : M unit :=
  let destOldPath := add_destOldPath updateDir filePath in
  let destNewPath := add_destNewPath updateDir filePath in
  mkdirSync (dirname destOldPath) ;;;
  mkdirSync (dirname destNewPath) ;;;
  copyFileSync_from cwd filePath destOldPath ;;;
  copyFileSync_from cwd filePath destNewPath ;;;
  log (LogAdded filePath updateDir) ;;;
  openInVSCode destNewPath.

(** [list] (lines 231-264) *)
Definition list_action (updateDir version : string) : M unit :=
  let fullPath := resolve cwd updateDir in
  let versionDir := joinName fullPath [] version in
  e <- existsSync_name versionDir ;;
  if negb e then log (ErrVersionDirMissing version)
  else
    files <- listFilesRecursively fuel (components versionDir) [] ;;
    if (List.length files =? 0)%nat then log (LogNoFiles version)
    else log (LogFilesIn version) ;;;
         forEach files (fun file => log (LogPath file)).

(** [remove] (lines 266-285) *)
Definition removeFileIfExists (file : filename) : M unit :=
  e <- existsSync_name file ;;
  if e then unlinkSync_name file ;;; log (LogRemoved file)
  else log (LogDoesNotExist file).

Definition remove_oldDir (updateDir filePath : string) : filename :=
  joinName (resolve cwd updateDir) ["old"] filePath.
Definition remove_newDir (updateDir filePath : string) : filename :=
  joinName (resolve cwd updateDir) ["new"] filePath.

Definition remove_action (updateDir filePath : string) : M unit :=
  removeFileIfExists (remove_oldDir updateDir filePath) ;;;
  removeFileIfExists (remove_newDir updateDir filePath).

(** [compare] (lines 287-334) *)
Definition compare_action (updateDir : string) : M unit :=
  let fullPath := resolve cwd updateDir in
  compareFilesRecursively fuel (fullPath ++ ["old"]) (fullPath ++ ["new"]).

(** [`${fullPath}_backup_${now}`]: the suffix extends the last component. *)
Definition backupDir_of (fullPath : path) (now : N) : path :=
  let suffix :=
    String.append "_backup_"
      (DecimalString.NilEmpty.string_of_uint (N.to_uint now)) in
  match rev fullPath with
  | [] => [suffix]
  | l :: r => rev r ++ [String.append l suffix]
  end.

(** [backup] (lines 336-358); [now] is [Date.now()]. *)
Definition backup_action (now : N) (updateDir : string) : M unit :=
  let fullPath := resolve cwd updateDir in
  let backupDir := backupDir_of fullPath now in
  copyDirectory fuel fullPath backupDir ;;;
  log (LogBackupCreated backupDir).

(** [restore] (lines 360-403) *)
Definition restore_action (updateDir backupDir : string) : M unit :=
  let fullPath := resolve cwd updateDir in
  let backupPath := resolve cwd backupDir in
  e <- existsSync backupPath ;;
  if negb e then log (ErrBackupMissing backupDir)
  else
    deleteDirectory fuel fullPath ;;;
    copyDirectory fuel backupPath fullPath ;;;
    log (LogRestored updateDir backupDir).

(** [open] (lines 405-429) *)
Definition open_action (updateDir : string) : M unit :=
let fullPath := resolve cwd updateDir in
let newDir := fullPath ++ ["new"] in
e <- existsSync newDir ;;
if negb e then log (ErrNewDirMissing updateDir)
else openFilesInVSCode fuel newDir.

End Commands.

(* ================================================================== *)
(** * The confirmation prompt *)
(* ================================================================== *)

(** WhiteSpace and LineTerminator code points of ECMAScript, the ones
    [String.prototype.trim] strips. *)
Definition whiteSpace : list N :=
  [0x9; 0xA; 0xB; 0xC; 0xD; 0x20; 0xA0; 0x1680;
   0x2000; 0x2001; 0x2002; 0x2003; 0x2004; 0x2005; 0x2006; 0x2007;
   0x2008; 0x2009; 0x200A; 0x2028; 0x2029; 0x202F; 0x205F; 0x3000;
   0xFEFF]%N.

Definition isWhiteSpace (c : N) : bool := existsb (N.eqb c) whiteSpace.

Fixpoint trimStart (s : jsstring) : jsstring :=
  match s with
  | c :: s' => if isWhiteSpace c then trimStart s' else s
  | [] => []
  end.

Definition trimEnd (s : jsstring) : jsstring := rev (trimStart (rev s)).

Definition trim (s : jsstring) : jsstring := trimEnd (trimStart s).

Definition asciiLower (c : N) : N :=
  if inrange 0x41 0x5A c then (c + 0x20)%N else c.

Section Confirmation.

(** The Unicode case table of the runtime, for the code units outside
    Basic Latin: [unicodeLower before c after] is what the unit [c]
    becomes between [before] and [after] (the mapping of a sigma and of
    a surrogate depends on its neighbours). *)
Variable unicodeLower : jsstring -> N -> jsstring -> jsstring.

Fixpoint lowerFrom (before s : jsstring) : jsstring :=
  match s with
  | [] => []
  | c :: s' =>
      (if (c <? 0x80)%N then [asciiLower c] else unicodeLower before c s')
        ++ lowerFrom (before ++ [c]) s'
  end.

Definition toLowerCase (s : jsstring) : jsstring := lowerFrom [] s.

(** [rl.question(question, answer => resolve(...))]: [answer] is the
    line the operator typed. *)
Definition askConfirmation (answer : jsstring) : bool :=
  jsstring_eqb (toLowerCase (trim answer)) [0x79%N].

End Confirmation.

(* ================================================================== *)
(** * The push command *)
(* ================================================================== *)

Record transferItem : Type :=
  TransferItem { localFilePath : path; remoteFilePath : path }.

(** [listFiles(dir)]: [traverse] pushes onto the one array
    [filesToUpload]; [remoteBase] is the components of
    [process.env.FTP_REMOTE_DIR]. *)
Fixpoint traverse (fuel : nat) (remoteBase dir currentDir : path)
  (filesToUpload : list transferItem) : M (list transferItem) :=
  match fuel with
  | O => timeout
  | S k =>
      files <- readdirSync currentDir ;;
      foldM files filesToUpload (fun filesToUpload file =>
        let filePath := currentDir ++ [name file] in
        if isDirectory file then traverse k remoteBase dir filePath filesToUpload
        else
          let remotePath := joinSegs remoteBase (relative dir filePath) in
          ret (filesToUpload ++ [TransferItem filePath remotePath]))
  end.

Definition listFiles (fuel : nat) (remoteBase dir : path) : M (list transferItem) :=
  traverse fuel remoteBase dir dir [].

(** The exits of the [try] block of the [ready] handler. [Diverged] is the
    model's recursion budget running out while the plan is listed. *)
Inductive phase : Type := Completed | Cancelled | Failed | Diverged.

Record ftp_env : Type := FtpEnv {
  FTP_HOST : option string;
  FTP_USER : option string;
  FTP_PASSWORD : option string;
  FTP_REMOTE_DIR : option string
}.

(** [!v] for an environment variable. *)
Definition unset (v : option string) : bool :=
  match v with
  | None => true
  | Some s => s =? ""
  end.

Section Push.

(** The FTP server behind [client]: [put st local remote] is the state
    of the server after the transfer and the error passed to the
    callback of [client.put], if any. *)
Variable T : Type.
Variable put : T -> path -> path -> T * option string.
Variable unicodeLower : jsstring -> N -> jsstring -> jsstring.

(** What goes over the connection, in order. *)
Inductive wire : Type :=
| PutIssued (item : transferItem)
| PutSettled (item : transferItem) (err : option string).

Record session : Type := Session {
  sys : world;
  remote : T;
  traffic : list wire;
  rl_closed : bool;
  client_ended : bool
}.

Definition say (e : event) (s : session) : session :=
  Session (World (fs (sys s)) (out (sys s) ++ [e]))
          (remote s) (traffic s) (rl_closed s) (client_ended s).

(** [await uploadFile(client, local, remote)]: the promise settles when
    the callback of [client.put] runs. *)
Definition uploadFile (file : transferItem) (s : session)
  : option failure * session :=
  let (st, err) := put (remote s) (localFilePath file) (remoteFilePath file) in
  let s' := Session (sys s) st
              (traffic s ++ [PutIssued file; PutSettled file err])
              (rl_closed s) (client_ended s) in
  match err with
  | Some m => (Some (PutFailure m), s')
  | None =>
      (None, say (LogUploaded (localFilePath file) (remoteFilePath file)) s')
  end.

(** [for (const file of filesToUpload) await uploadFile(...)] *)
Fixpoint uploadEach (files : list transferItem) (s : session)
  : option failure * session :=
  match files with
  | [] => (None, s)
  | file :: rest =>
      match uploadFile file s with
      | (None, s') => uploadEach rest s'
      | (Some e, s') => (Some e, s')
      end
  end.

(** [finally { rl.close(); client.end(); }] *)
Definition finally (s : session) : session :=
  Session (sys s) (remote s) (traffic s) true true.

(** The [try] block from the plan on. *)
Definition confirmAndUpload (filesToUpload : list transferItem)
  (answer : jsstring) (s : session) : phase * session :=
  let s := say LogFilesToBeUploaded s in
  let s := fold_left (fun s file =>
             say (LogPlanned (localFilePath file) (remoteFilePath file)) s)
             filesToUpload s in
  if askConfirmation unicodeLower answer then
    let s := say LogConfirmedStarting s in
    match uploadEach filesToUpload s with
    | (None, s') => (Completed, say LogUploadCompleted s')
    | (Some e, s') => (Failed, say (ErrDuringUpload e) s')
    end
  else (Cancelled, say LogCancelled s).

(** The handler of the client's [ready] event. *)
Definition onReady (cwd : path) (fuel : nat) (remoteBase : path)
  (updateDir version : string) (answer : jsstring) (s : session)
  : phase * session :=
  let fullPath := resolve cwd updateDir in
  let srcDir := join fullPath version in
  let (r, s') :=
    match listFiles fuel remoteBase srcDir (sys s) with
    | (Ok filesToUpload, _) => confirmAndUpload filesToUpload answer s
    | (Throw e, _) => (Failed, say (ErrDuringUpload (FsFailure e)) s)
    | (Timeout, _) => (Diverged, s)
    end in
  (r, finally s').

(** The handler of the client's [error] event (lines 152-156). *)
Definition onError (message : string) (s : session) : session :=
  let s := say (ErrFtpClient message) s in
  Session (sys s) (remote s) (traffic s) true true.

(** The handler of the client's [close] event (lines 158-165). *)
Definition onClose (hadError : bool) (s : session) : session :=
  let s := say (if hadError then ErrClientClosed else LogClientClosed) s in
  Session (sys s) (remote s) (traffic s) true (client_ended s).

(** What the client reports after the [ready] handler, or instead of it:
    which of these events come, and in what order, is for the library and
    the network to say. *)
Inductive client_event : Type :=
| EvError (message : string)
| EvClose (hadError : bool).

Fixpoint deliver (events : list client_event) (s : session) : session :=
  match events with
  | [] => s
  | EvError message :: rest => deliver rest (onError message s)
  | EvClose hadError :: rest => deliver rest (onClose hadError s)
  end.

(** [push] (lines 94-176). The first component of the result is [None]
    when a guard returns before a client is created; otherwise it says
    whether the [ready] handler ran and how it ended.

    After [client.connect] the client reports [ready] or not: [ready] is
    [Some answer] when it does, [answer] being the line typed if the
    handler comes to ask. The handler runs on the prompt as it was
    created, open, and to its end; [events] are the [error] and [close]
    events reported after it, or instead of it. A [ready] event that
    arrives once another handler has closed the prompt, where what
    [rl.question] does is for the runtime to say, is not among the runs
    described.

    [path.join(process.env.FTP_REMOTE_DIR, ...)] in [listFiles] normalises
    the variable as it is, relative or absolute. *)
Definition push_action (cwd : path) (fuel : nat) (env : ftp_env)
  (updateDir version : string) (ready : option jsstring)
  (events : list client_event) (s : session)
  : option (option phase) * session :=
  if negb (version =? "new") && negb (version =? "old")
  then (None, say LogSpecifyVersion s)
  else if unset (FTP_HOST env) || unset (FTP_USER env)
          || unset (FTP_PASSWORD env) || unset (FTP_REMOTE_DIR env)
  then (None, say LogCredentialsNotSet s)
  else
    let remoteBase :=
      match FTP_REMOTE_DIR env with
      | Some d => normalize d
      | None => []
      end in
    match ready with
    | Some answer =>
        let (r, s') := onReady cwd fuel remoteBase updateDir version answer s in
        (Some (Some r), deliver events s')
    | None => (Some None, deliver events s)
    end.

(** A stretch of traffic in which every transfer is issued and settled
    before the next one is issued, from one state of the server to
    another: the server moves by the transfers alone. *)
Inductive sequential : T -> list wire -> T -> Prop :=
| seq_done st : sequential st [] st
| seq_put st file st' err tr st'' :
    put st (localFilePath file) (remoteFilePath file) = (st', err) ->
    sequential st' tr st'' ->
    sequential st (PutIssued file :: PutSettled file err :: tr) st''.

Definition issued (tr : list wire) : list transferItem :=
  flat_map (fun e => match e with
                     | PutIssued file => [file]
                     | PutSettled _ _ => []
                     end) tr.

Definition rejected (tr : list wire) : list (transferItem * string) :=
  flat_map (fun e => match e with
                     | PutSettled file (Some m) => [(file, m)]
                     | _ => []
                     end) tr.

(** Printing touches the console alone. *)
Definition same_connection (s s' : session) : Prop :=
  remote s' = remote s /\ traffic s' = traffic s /\
  rl_closed s' = rl_closed s /\ client_ended s' = client_ended s /\
  fs (sys s') = fs (sys s).

(** The lines that present the plan. *)
Definition planned (files : list transferItem) : list event :=
  map (fun file => LogPlanned (localFilePath file) (remoteFilePath file)) files.

End Push.

(* ================================================================== *)
(** * Vocabulary of the statements *)
(* ================================================================== *)

(** The number of directory levels of a tree: the depth a walk descends. *)
Fixpoint height (t : node) : nat :=
  match t with
  | File _ => 0
  | Dir es => S (list_max (map (fun e => height (snd e)) es))
  end.

Fixpoint nodupb (l : list string) : bool :=
  match l with
  | [] => true
  | a :: l' => negb (existsb (String.eqb a) l') && nodupb l'
  end.

(** No directory lists a name twice. *)
Fixpoint wf (t : node) : bool :=
  match t with
  | File _ => true
  | Dir es => nodupb (map fst es) && forallb (fun e => wf (snd e)) es
  end.


(** Replace the subtree at an existing path. *)
Fixpoint plug (p : path) (c : node) (t : node) : node :=
  match p with
  | [] => c
  | n :: p' =>
      match t with
      | Dir es => match child n es with
                  | Some d => Dir (set_child n (plug p' c d) es)
                  | None => t
                  end
      | File _ => t
      end
  end.

(** Neither path is the other or lies below it. *)
Definition disjoint (p q : path) : bool :=
  negb (is_prefix p q) && negb (is_prefix q p).

(** A component that [path] normalisation keeps as it is. *)
Definition plain (seg : string) : bool :=
  negb (seg =? "") && negb (seg =? ".") && negb (seg =? "..").

(** What [copyDirectory] is proved to do with recursion budget [k]: a
    well-formed directory at [src] is reproduced at a destination that does
    not exist yet and lies outside the source. *)
Definition copies (k : nat) : Prop :=
  forall tsrc src dest t t0 o,
    height tsrc < k -> wf tsrc = true -> isDir tsrc = true ->
    lookup src t = Some tsrc ->
    disjoint src dest = true ->
    lookup dest t = None ->
    mkdirO dest (Some t) = inr t0 ->
    copyDirectory k src dest (World t o) = (Ok tt, World (plug dest tsrc t0) o).

(** [mkdirSync(dest, { recursive: true })] succeeds: no regular file is
    in the way. *)
Definition creatable (dest : path) (t : node) : bool :=
  match mkdirO dest (Some t) with
  | inr _ => true
  | inl _ => false
  end.

(** What [deleteDirectory] is proved to do with recursion budget [k]: the
    directory at [dir] is taken out of its parent. *)
Definition remove_at (p : path) (t : node) : node :=
  match alter p (fun _ => inr None) t with
  | inr t' => t'
  | inl _ => t
  end.

Definition deletes (k : nat) : Prop :=
  forall tdir dir t o,
    height tdir < k -> isDir tdir = true ->
    lookup dir t = Some tdir -> dir <> [] ->
    deleteDirectory k dir (World t o) = (Ok tt, World (remove_at dir t) o).

(** [restore] can put a directory at [root]: there is a directory there
    already, or nothing and the path can be created. *)
Definition replaceable (root : path) (t : node) : bool :=
  match lookup root t with
  | Some tr => isDir tr
  | None => creatable root t
  end.

Definition lookupO (q : path) (o : option node) : option node :=
  match o with
  | Some t => lookup q t
  | None => None
  end.




(** Below the directories [a] and [b] of the file system [t] there is a
    common relative path ending in [nm] with a regular file on both sides,
    and the two files decode to different strings. *)
Definition differs_below (t : node) (a b : path) (nm : string) : Prop :=
  exists p x y,
    lookup (a ++ p ++ [nm]) t = Some (File x) /\
    lookup (b ++ p ++ [nm]) t = Some (File y) /\
    toString x <> toString y.

(** The same, for the relative paths that start with the entry [h]. *)
Definition differs_through (t : node) (a b : path) (h nm : string) : Prop :=
  exists p x y,
    (exists tl, p ++ [nm] = h :: tl) /\
    lookup (a ++ p ++ [nm]) t = Some (File x) /\
    lookup (b ++ p ++ [nm]) t = Some (File y) /\
    toString x <> toString y.

(** No name is a regular file on one side and a directory on the other,
    at any level that [compareFilesRecursively] visits. *)
Fixpoint compatible (told tnew : node) : bool :=
  match told, tnew with
  | File _, File _ => true
  | Dir es, Dir es' =>
      forallb (fun e =>
        match child (fst e) es' with
        | None => true
        | Some c' => compatible (snd e) c'
        end) es
  | _, _ => false
  end.

(** The string of a line typed in Basic Latin. *)
Definition typed (s : string) : jsstring :=
  map N_of_ascii (list_ascii_of_string s).

(** What the case table of the runtime is assumed to satisfy: outside
    Basic Latin no code unit lower-cases to nothing, or to a string that
    begins with the letter y. *)
Definition no_y_outside_ascii (unicodeLower : jsstring -> N -> jsstring -> jsstring) : Prop :=
  forall before c after,
    (0x80 <= c)%N ->
    exists u us, unicodeLower before c after = u :: us /\ u <> 0x79%N.

(** A case table that leaves every code unit outside Basic Latin as it is. *)
Definition keepCase (before : jsstring) (c : N) (after : jsstring) : jsstring := [c].

(** A server that stores what it is sent and refuses the paths in [bad]. *)
Definition storing (bad : list path) (st : list (path * path)) (l r : path)
  : list (path * path) * option string :=
  if existsb (fun b => if list_eq_dec string_dec b r then true else false) bad
  then (st, Some "553 Could not create file.")
  else (st ++ [(l, r)], None).

(* ================================================================== *)
(** * Scenario *)
(* ================================================================== *)

Definition bytes (s : string) : list byte := list_byte_of_string s.

Definition world0 (t : node) : world := World t [].

(** A tree with a file at the top and one in a sub-directory. *)
Definition site : node :=
  Dir [("index.html", File (bytes "<h1>hi</h1>"));
       ("css", Dir [("main.css", File (bytes "body{}"))])].

Definition disk_site : node := Dir [("srv", site)].

(** An update directory [/home/u1] whose [new/a.txt] was edited, and the
    same disk with an older snapshot next to it. *)
Definition u1 : node :=
  Dir [("old", Dir [("a.txt", File (bytes "x"))]);
       ("new", Dir [("a.txt", File (bytes "y"))])].

Definition u1_snapshot : node :=
  Dir [("old", Dir [("a.txt", File (bytes "x"))]);
       ("new", Dir [("a.txt", File (bytes "x"))])].

Definition disk_u1 : node := Dir [("home", Dir [("u1", u1)])].

Definition disk_u1_snapshot : node :=
  Dir [("home", Dir [("u1", u1); ("u1_backup_17", u1_snapshot)])].

(** Two images that differ in one byte, neither of them valid UTF-8. *)
Definition disk_logo : node :=
  Dir [("u", Dir [("old", Dir [("logo.bin", File [xff])]);
                  ("new", Dir [("logo.bin", File [xfe])])])].

(** [docs] is a regular file in [old] and a directory in [new], and the
    other way round. *)
Definition disk_file_vs_dir : node :=
  Dir [("u", Dir [("old", Dir [("docs", File (bytes "notes"))]);
                  ("new", Dir [("docs", Dir [])])])].

Definition disk_dir_vs_file : node :=
  Dir [("u", Dir [("old", Dir [("docs", Dir [])]);
                  ("new", Dir [("docs", File (bytes "notes"))])])].

(** An update directory with a third sub-directory next to [old] and [new]. *)
Definition disk_tmp : node :=
  Dir [("u", Dir [("old", Dir []); ("new", Dir []);
                  ("tmp", Dir [("notes.txt", File (bytes "draft"))])])].

(** A session on the scenario disk, before the [ready] event. *)
Definition session0 (t : node) : session (list (path * path)) :=
  Session (world0 t) [] [] false false.

Definition three_files : list transferItem :=
  [TransferItem ["u"; "new"; "a"] ["www"; "a"];
   TransferItem ["u"; "new"; "b"] ["www"; "b"];
   TransferItem ["u"; "new"; "c"] ["www"; "c"]].

(** A file [/c/old/f.txt] outside the working directory [/c/d], and an
    update directory [/u]. *)
Definition disk_add : node :=
  Dir [("c", Dir [("d", Dir []);
                  ("old", Dir [("f.txt", File (bytes "new page"))])]);
       ("u", Dir [("old", Dir []); ("new", Dir [])])].

(* ================================================================== *)
(** * Vocabulary of the further properties *)
(* ================================================================== *)

(** A command that leaves the file system as it is, whatever its outcome. *)
Definition readonly {A} (m : M A) : Prop :=
  forall w r w', m w = (r, w') -> fs w' = fs w.

(** The regular files of a tree, as paths relative to its root, in the
    order a depth-first walk over the entries meets them. *)
Fixpoint files_of (t : node) : list path :=
  match t with
  | File _ => [[]]
  | Dir es => flat_map (fun e => map (cons (fst e)) (files_of (snd e))) es
  end.

(** Below the directories [a] and [b] of the file system [t], at the
    relative directory [r]: [a] has an entry [n], the node [c], and [b] has
    the directory [r] but no entry [n] in it. *)
Definition only_in (t : node) (a b : path) (r : path) (n : string) (c : node) : Prop :=
  lookup (a ++ r ++ [n]) t = Some c /\
  (exists es, lookup (b ++ r) t = Some (Dir es)) /\
  lookup (b ++ r ++ [n]) t = None.

(** What a line printed by [compareFilesRecursively oldPath newPath] says
    about the file system. *)
Definition reported (t : node) (a b : path) (e : event) : Prop :=
  match e with
  | LogDiffers nm => differs_below t a b nm
  | LogFileMissingInNew q =>
      exists r n d, q = a ++ r ++ [n] /\ only_in t a b r n (File d)
  | LogDirMissingInNew q =>
      exists r n es, q = a ++ r ++ [n] /\ only_in t a b r n (Dir es)
  | LogMissingInOld q =>
      exists r n c, q = b ++ r ++ [n] /\ only_in t b a r n c
  | _ => False
  end.

(** The same, for the relative paths that start with the entry [h]. *)
Definition through (t : node) (a b : path) (h : string) (e : event) : Prop :=
  match e with
  | LogDiffers nm => differs_through t a b h nm
  | LogFileMissingInNew q =>
      exists r n d, q = a ++ r ++ [n] /\ only_in t a b r n (File d) /\
                    exists tl, r ++ [n] = h :: tl
  | LogDirMissingInNew q =>
      exists r n es, q = a ++ r ++ [n] /\ only_in t a b r n (Dir es) /\
                     exists tl, r ++ [n] = h :: tl
  | LogMissingInOld q =>
      exists r n c, q = b ++ r ++ [n] /\ only_in t b a r n c /\
                    exists tl, r = h :: tl
  | _ => False
  end.

(** The line for an entry of [old] that [new] lacks. *)
Definition missing_in_new (c : node) (oldFilePath : path) : event :=
  if isDir c then LogDirMissingInNew oldFilePath
  else LogFileMissingInNew oldFilePath.

(** An update directory whose two sides have drifted apart: an edited
    file, a file and a directory only in [old], a file only in [new], and
    a file added inside a common directory. *)
Definition drift_old : node :=
  Dir [("a.txt", File (bytes "x"));
       ("legacy.txt", File (bytes "l"));
       ("docs", Dir [("d1", File (bytes "1"))]);
       ("gone", Dir [("g1", File (bytes "g"))])].

Definition drift_new : node :=
  Dir [("a.txt", File (bytes "y"));
       ("docs", Dir [("d1", File (bytes "1")); ("extra", File (bytes "e"))]);
       ("added.txt", File (bytes "a"))].

Definition disk_drift : node :=
  Dir [("u", Dir [("old", drift_old); ("new", drift_new)])].

(** The transfers the server accepted, and the lines that report them. *)
Definition accepted (tr : list wire) : list transferItem :=
  flat_map (fun e => match e with
                     | PutSettled file None => [file]
                     | _ => []
                     end) tr.

Definition uploaded (files : list transferItem) : list event :=
  map (fun file => LogUploaded (localFilePath file) (remoteFilePath file)) files.

(** The four variables of [.env], all set. *)
Definition env_www : ftp_env :=
  FtpEnv (Some "ftp.example.org") (Some "me") (Some "secret") (Some "/www").

(** Every byte is Basic Latin. *)
Definition ascii_only (d : list byte) : bool :=
  forallb (fun b => (Byte.to_N b <=? 0x7F)%N) d.

(** Every regular file of the tree holds Basic Latin bytes only. *)
Fixpoint all_ascii (t : node) : bool :=
  match t with
  | File d => ascii_only d
  | Dir es => forallb (fun e => all_ascii (snd e)) es
  end.

(** A command that, whatever its outcome, creates, changes or deletes
    regular files at the paths in [P] alone. *)
Definition touches_only {A} (P : path -> Prop) (m : M A) : Prop :=
  forall w r w', m w = (r, w') ->
    forall q d, ~ P q ->
      (lookup q (fs w) = Some (File d) <-> lookup q (fs w') = Some (File d)).

(** [q] is [p] or lies below it. *)
Definition below (p q : path) : Prop := is_prefix p q = true.

Definition nowhere (q : path) : Prop := False.


(** The line of the [close] handler. *)
Definition closing (hadError : bool) : event :=
  if hadError then ErrClientClosed else LogClientClosed.

(** The line of the handler of an event. *)
Definition handler_line (ev : client_event) : event :=
  match ev with
  | EvError message => ErrFtpClient message
  | EvClose hadError => closing hadError
  end.

(* ================================================================== *)
(** * Directory entries *)
(* ================================================================== *)

Unset Implicit Arguments.

Lemma child_set_child_same n c es : child n (set_child n c es) = Some c.
Proof.
  induction es as [|[m d] es IH]; simpl.
  - now rewrite String.eqb_refl.
  - destruct (String.eqb n m) eqn:E; simpl; rewrite E; auto.
Qed.

Lemma child_set_child_other n m c es :
  n <> m -> child m (set_child n c es) = child m es.
Proof.
  intros Hnm. induction es as [|[k d] es IH]; simpl.
  - destruct (String.eqb_spec m n); congruence.
  - destruct (String.eqb_spec n k) as [->|Hk]; simpl.
    + destruct (String.eqb_spec m k); congruence.
    + now rewrite IH.
Qed.

Lemma child_del_child_other n m es :
  n <> m -> child m (del_child n es) = child m es.
Proof.
  intros Hnm. induction es as [|[k d] es IH]; simpl; auto.
  destruct (String.eqb_spec n k) as [->|Hk]; simpl.
  - destruct (String.eqb_spec m k); congruence.
  - now rewrite IH.
Qed.

Lemma child_None_not_in n es :
  child n es = None <-> ~ In n (map fst es).
Proof.
  induction es as [|[k d] es IH]; simpl.
  - tauto.
  - destruct (String.eqb_spec n k) as [->|Hk].
    + split; [discriminate | tauto].
    + rewrite IH. split; intros H; [intros [E|E]; congruence || tauto | tauto].
Qed.

Lemma set_child_fresh n c es :
  child n es = None -> set_child n c es = es ++ [(n, c)].
Proof.
  induction es as [|[k d] es IH]; simpl; auto.
  destruct (String.eqb n k); [discriminate|].
  intros H. now rewrite IH.
Qed.

Lemma set_child_set_child n c c' es :
  set_child n c (set_child n c' es) = set_child n c es.
Proof.
  induction es as [|[k d] es IH]; simpl.
  - now rewrite String.eqb_refl.
  - destruct (String.eqb n k) eqn:E; simpl; rewrite E; congruence.
Qed.

Lemma existsb_eqb_In a l : existsb (String.eqb a) l = true <-> In a l.
Proof.
  rewrite existsb_exists. split.
  - intros (x & Hx & E). apply String.eqb_eq in E. now subst.
  - intros H. exists a. split; auto. apply String.eqb_refl.
Qed.

Lemma nodupb_NoDup l : nodupb l = true <-> NoDup l.
Proof.
  induction l as [|a l IH]; simpl.
  - split; [constructor | reflexivity].
  - rewrite andb_true_iff, negb_true_iff, IH. split.
    + intros [H1 H2]. constructor; auto.
      intros Hin. apply existsb_eqb_In in Hin. congruence.
    + intros H. inversion H; subst. split; auto.
      destruct (existsb (String.eqb a) l) eqn:E; auto.
      apply existsb_eqb_In in E. contradiction.
Qed.

Lemma child_del_child_same n es :
  NoDup (map fst es) -> child n (del_child n es) = None.
Proof.
  induction es as [|[k d] es IH]; simpl; auto.
  intros H. inversion H; subst.
  destruct (String.eqb_spec n k) as [->|Hk]; simpl.
  - now apply child_None_not_in.
  - destruct (String.eqb_spec n k); [contradiction|]. auto.
Qed.

Lemma child_In n c es : child n es = Some c -> In (n, c) es.
Proof.
  induction es as [|[k d] es IH]; simpl; [discriminate|].
  destruct (String.eqb_spec n k) as [->|Hk].
  - intros [= ->]. auto.
  - auto.
Qed.

Lemma In_child n c es :
  NoDup (map fst es) -> In (n, c) es -> child n es = Some c.
Proof.
  induction es as [|[k d] es IH]; simpl; [tauto|].
  intros H. inversion H; subst. intros [[= -> ->]|Hin].
  - now rewrite String.eqb_refl.
  - destruct (String.eqb_spec n k) as [->|Hk]; auto.
    exfalso. apply H2. change k with (fst (k, c)). now apply in_map.
Qed.

Lemma has_dirents n es :
  has (map name (dirents es)) n = true <-> child n es <> None.
Proof.
  unfold has, dirents. rewrite map_map. simpl.
  rewrite existsb_eqb_In.
  split.
  - intros Hin Hc. apply child_None_not_in in Hc. contradiction.
  - intros Hc. destruct (in_dec string_dec n (map fst es)) as [|Hn]; auto.
    apply child_None_not_in in Hn. contradiction.
Qed.

(* ================================================================== *)
(** * Paths into a tree *)
(* ================================================================== *)

Lemma lookup_app p q t :
  lookup (p ++ q) t =
  match lookup p t with Some c => lookup q c | None => None end.
Proof.
  revert t. induction p as [|n p IH]; intros t; simpl; auto.
  destruct t as [d|es]; auto.
  destruct (child n es); auto.
Qed.

Lemma lookup_snoc p n t es :
  lookup p t = Some (Dir es) -> lookup (p ++ [n]) t = child n es.
Proof.
  intros H. rewrite lookup_app, H. simpl. now destruct (child n es).
Qed.

Lemma lookup_below_file p q t d :
  lookup p t = Some (File d) -> q <> [] -> lookup (p ++ q) t = None.
Proof.
  intros H Hq. rewrite lookup_app, H. destruct q; [congruence|reflexivity].
Qed.

Lemma is_prefix_refl p : is_prefix p p = true.
Proof. induction p; simpl; auto. now rewrite String.eqb_refl. Qed.

Lemma is_prefix_app p q : is_prefix p (p ++ q) = true.
Proof. induction p; simpl; auto. now rewrite String.eqb_refl. Qed.

Lemma is_prefix_true p q : is_prefix p q = true <-> exists r, q = p ++ r.
Proof.
  split.
  - revert q. induction p as [|a p IH]; intros q H; simpl in *.
    + now exists q.
    + destruct q as [|b q]; [discriminate|].
      apply andb_true_iff in H as [E H]. apply String.eqb_eq in E. subst.
      destruct (IH _ H) as [r ->]. now exists r.
  - intros [r ->]. apply is_prefix_app.
Qed.

Lemma disjoint_sym p q : disjoint p q = disjoint q p.
Proof. unfold disjoint. apply andb_comm. Qed.

Lemma is_prefix_trans p q r :
  is_prefix p q = true -> is_prefix q r = true -> is_prefix p r = true.
Proof.
  rewrite !is_prefix_true. intros [a ->] [b ->]. exists (a ++ b).
  now rewrite app_assoc.
Qed.

(** Two paths that diverge keep diverging below. *)
Lemma disjoint_app p q a b :
  disjoint p q = true -> disjoint (p ++ a) (q ++ b) = true.
Proof.
  unfold disjoint. revert q. induction p as [|x p IH]; intros q; simpl.
  - discriminate.
  - destruct q as [|y q]; simpl.
    + discriminate.
    + destruct (String.eqb_spec x y) as [->|Hxy]; simpl.
      * rewrite String.eqb_refl. simpl. apply IH.
      * destruct (String.eqb_spec y x); [congruence|]. reflexivity.
Qed.

(* ================================================================== *)
(** * Replacing a subtree *)
(* ================================================================== *)

Lemma lookup_plug_same p c t d :
  lookup p t = Some d -> lookup p (plug p c t) = Some c.
Proof.
  revert t. induction p as [|n p IH]; intros t; simpl; auto.
  destruct t as [dt|es]; [discriminate|].
  destruct (child n es) as [e|] eqn:E; [|discriminate].
  intros H. simpl. rewrite child_set_child_same. auto.
Qed.

Lemma lookup_plug_below p q c t d :
  lookup p t = Some d -> lookup (p ++ q) (plug p c t) = lookup q c.
Proof.
  intros H. rewrite lookup_app, (lookup_plug_same _ _ _ _ H). reflexivity.
Qed.

Lemma lookup_plug_frame p q c t :
  disjoint p q = true -> lookup q (plug p c t) = lookup q t.
Proof.
  unfold disjoint. revert q t. induction p as [|n p IH]; intros q t; simpl.
  - discriminate.
  - destruct q as [|m q]; simpl; [discriminate|].
    destruct t as [dt|es]; auto.
    destruct (child n es) as [e|] eqn:E; auto.
    destruct (String.eqb_spec n m) as [->|Hnm]; simpl.
    + rewrite String.eqb_refl. simpl. intros H.
      rewrite child_set_child_same, E. auto.
    + intros _. now rewrite child_set_child_other.
Qed.

Lemma plug_app p q c t d :
  lookup p t = Some d -> plug (p ++ q) c t = plug p (plug q c d) t.
Proof.
  revert t. induction p as [|n p IH]; intros t; simpl.
  - now intros [= ->].
  - destruct t as [dt|es]; [discriminate|].
    destruct (child n es) as [e|] eqn:E; [|discriminate].
    intros H. now rewrite (IH _ H).
Qed.

Lemma plug_plug p c c' t d :
  lookup p t = Some d -> plug p c (plug p c' t) = plug p c t.
Proof.
  revert t. induction p as [|n p IH]; intros t; simpl; auto.
  destruct t as [dt|es]; [discriminate|].
  destruct (child n es) as [e|] eqn:E; [|discriminate].
  intros H. simpl. rewrite child_set_child_same, set_child_set_child.
  now rewrite (IH _ H).
Qed.

Lemma plug_id p t d : lookup p t = Some d -> plug p d t = t.
Proof.
  revert t. induction p as [|n p IH]; intros t; simpl.
  - now intros [= ->].
  - destruct t as [dt|es]; [discriminate|].
    destruct (child n es) as [e|] eqn:E; [|discriminate].
    intros H. rewrite (IH _ H). f_equal.
    clear -E. induction es as [|[k x] es IH]; simpl in *; [discriminate|].
    destruct (String.eqb_spec n k) as [->|Hk].
    + now injection E as ->.
    + now rewrite IH.
Qed.

(** An operation at [p ++ q] is the operation at [q] on the subtree at [p]. *)
Lemma alterO_local p q f t d d' :
  lookup p t = Some d ->
  alterO q f (Some d) = inr (Some d') ->
  alterO (p ++ q) f (Some t) = inr (Some (plug p d' t)).
Proof.
  revert t. induction p as [|n p IH]; intros t; simpl.
  - now intros [= ->].
  - destruct t as [dt|es]; [discriminate|].
    destruct (child n es) as [e|] eqn:E; [|discriminate].
    intros H1 H2. now rewrite (IH _ H1 H2).
Qed.

Lemma alter_local p q f t d d' :
  lookup p t = Some d ->
  alterO q f (Some d) = inr (Some d') ->
  alter (p ++ q) f t = inr (plug p d' t).
Proof.
  intros H1 H2. unfold alter. now rewrite (alterO_local _ _ _ _ _ _ H1 H2).
Qed.

Lemma mkdirO_local p q t d d' :
  lookup p t = Some d ->
  mkdirO q (Some d) = inr d' ->
  mkdirO (p ++ q) (Some t) = inr (plug p d' t).
Proof.
  revert t. induction p as [|n p IH]; intros t; simpl.
  - now intros [= ->].
  - destruct t as [dt|es]; [discriminate|].
    destruct (child n es) as [e|] eqn:E; [|discriminate].
    intros H1 H2. now rewrite (IH _ H1 H2).
Qed.

Lemma mkdirO_existing p t es :
  lookup p t = Some (Dir es) -> mkdirO p (Some t) = inr t.
Proof.
  intros H. replace p with (p ++ []) by apply app_nil_r.
  rewrite (mkdirO_local p [] t _ (Dir es) H); [|reflexivity].
  now rewrite (plug_id _ _ _ H).
Qed.

(** Creating a directory below nothing creates the whole chain. *)
Lemma mkdirO_None p : exists c, mkdirO p None = inr c /\ lookup p c = Some (Dir []).
Proof.
  induction p as [|n p (c & E & L)]; simpl.
  - eauto.
  - rewrite E. eexists; split; eauto. simpl. now rewrite String.eqb_refl.
Qed.

Lemma mkdirO_None_frame p c q :
  mkdirO p None = inr c -> is_prefix q p = false -> lookup q c = None.
Proof.
  revert c q. induction p as [|n p IH]; intros c q; simpl.
  - intros [= <-]. destruct q; [discriminate|reflexivity].
  - destruct (mkdirO p None) as [e|c'] eqn:E; [discriminate|].
    intros [= <-]. destruct q as [|m q]; [discriminate|]. simpl.
    destruct (String.eqb_spec m n) as [->|Hmn]; simpl; auto.
Qed.

Lemma mkdirO_fresh p t t' :
  mkdirO p (Some t) = inr t' ->
  lookup p t = None ->
  lookup p t' = Some (Dir []) /\
  forall q, is_prefix q p = false -> lookup q t' = lookup q t.
Proof.
  revert t t'. induction p as [|n p IH]; intros t t'; simpl.
  - discriminate.
  - destruct t as [dt|es]; [discriminate|].
    destruct (child n es) as [e|] eqn:E.
    + destruct (mkdirO p (Some e)) as [er|c] eqn:M; [discriminate|].
      intros [= <-] L. destruct (IH _ _ M L) as [L1 F]. split.
      * simpl. now rewrite child_set_child_same.
      * intros [|m q]; [discriminate|]. simpl.
        destruct (String.eqb_spec m n) as [->|Hmn]; simpl.
        -- rewrite child_set_child_same, E. apply F.
        -- intros _. rewrite child_set_child_other; auto.
    + destruct (mkdirO_None p) as (c & M & L1). rewrite M.
      intros [= <-] _. split.
      * simpl. now rewrite child_set_child_same.
      * intros [|m q]; [discriminate|]. simpl.
        destruct (String.eqb_spec m n) as [->|Hmn]; simpl.
        -- rewrite child_set_child_same, E.
           apply (mkdirO_None_frame _ _ _ M).
        -- intros _. rewrite child_set_child_other; auto.
Qed.

(* ================================================================== *)
(** * Running the primitives *)
(* ================================================================== *)

Lemma bind_Ok {A B} (m : M A) (k : A -> M B) w a w' :
  m w = (Ok a, w') -> bind m k w = k a w'.
Proof. unfold bind. now intros ->. Qed.

Lemma readdirSync_Dir p w es :
  lookup p (fs w) = Some (Dir es) -> readdirSync p w = (Ok (dirents es), w).
Proof. unfold readdirSync. now intros ->. Qed.

Lemma readFileSync_File p w d :
  lookup p (fs w) = Some (File d) -> readFileSync p w = (Ok d, w).
Proof. unfold readFileSync. now intros ->. Qed.

Lemma existsSync_Some p w t :
  lookup p (fs w) = Some t -> existsSync p w = (Ok true, w).
Proof. unfold existsSync. now intros ->. Qed.

Lemma existsSync_None p w :
  lookup p (fs w) = None -> existsSync p w = (Ok false, w).
Proof. unfold existsSync. now intros ->. Qed.

Lemma lstatSync_Some p w t :
  lookup p (fs w) = Some t -> lstatSync_isDirectory p w = (Ok (isDir t), w).
Proof. unfold lstatSync_isDirectory. now intros ->. Qed.

Lemma modify_Ok f w t :
  f (fs w) = inr t -> modify f w = (Ok tt, World t (out w)).
Proof. unfold modify. now intros ->. Qed.

Lemma copyFileSync_Ok src dest w d t :
  lookup src (fs w) = Some (File d) ->
  alter dest (write_file d) (fs w) = inr t ->
  copyFileSync src dest w = (Ok tt, World t (out w)).
Proof.
  intros H1 H2. unfold copyFileSync.
  rewrite (bind_Ok _ _ _ _ _ (readFileSync_File _ _ _ H1)).
  now apply modify_Ok.
Qed.

Lemma height_child n c es : In (n, c) es -> height c < height (Dir es).
Proof.
  intros Hin. simpl. apply Nat.lt_succ_r.
  assert (H : Forall (fun k => k <= list_max (map (fun e => height (snd e)) es))
                (map (fun e => height (snd e)) es))
    by now apply list_max_le.
  rewrite Forall_forall in H. apply H.
  change (height c) with ((fun e => height (snd e)) (n, c)). now apply in_map.
Qed.

Lemma wf_Dir es :
  wf (Dir es) = true ->
  NoDup (map fst es) /\ forall n c, In (n, c) es -> wf c = true.
Proof.
  simpl. rewrite andb_true_iff, nodupb_NoDup, forallb_forall.
  intros [H1 H2]. split; auto. intros n c Hin. apply (H2 _ Hin).
Qed.

Lemma plug_single n c es d :
  child n es = Some d -> plug [n] c (Dir es) = Dir (set_child n c es).
Proof. simpl. now intros ->. Qed.

(* ================================================================== *)
(** * Well-formedness is preserved *)
(* ================================================================== *)

Lemma wf_child n c es : wf (Dir es) = true -> child n es = Some c -> wf c = true.
Proof.
  intros Hwf Hc. destruct (wf_Dir _ Hwf) as [_ H].
  apply (H n). now apply child_In.
Qed.

Lemma wf_lookup p : forall t c, wf t = true -> lookup p t = Some c -> wf c = true.
Proof.
  induction p as [|n p IH]; intros t c Hwf; simpl.
  - now intros [= <-].
  - destruct t as [d|es]; [discriminate|].
    destruct (child n es) as [e|] eqn:E; [|discriminate].
    apply IH. apply (wf_child _ _ _ Hwf E).
Qed.

Lemma names_set_child n c es :
  map fst (set_child n c es) =
  match child n es with
  | Some _ => map fst es
  | None => map fst es ++ [n]
  end.
Proof.
  induction es as [|[k x] es IH]; simpl; auto.
  destruct (String.eqb n k) eqn:E; simpl; auto.
  rewrite IH. now destruct (child n es).
Qed.

Lemma forallb_set_child (P : string * node -> bool) n c es :
  forallb P es = true -> (forall k, P (k, c) = true) ->
  forallb P (set_child n c es) = true.
Proof.
  intros H Hc. induction es as [|[k x] es IH]; simpl in *.
  - now rewrite Hc.
  - apply andb_true_iff in H as [H1 H2].
    destruct (String.eqb n k); simpl.
    + now rewrite Hc, H2.
    + now rewrite H1, IH.
Qed.

Lemma wf_set_child n c es :
  wf (Dir es) = true -> wf c = true -> wf (Dir (set_child n c es)) = true.
Proof.
  simpl. rewrite !andb_true_iff, !nodupb_NoDup. intros [Hnd Hall] Hc. split.
  - rewrite names_set_child. destruct (child n es) eqn:E; auto.
    apply child_None_not_in in E.
    apply NoDup_rev in Hnd. rewrite <- (rev_involutive (map fst es ++ [n])).
    apply NoDup_rev. rewrite rev_app_distr. simpl. constructor; auto.
    now rewrite <- in_rev.
  - now apply forallb_set_child.
Qed.


Lemma wf_plug p : forall c t, wf t = true -> wf c = true -> wf (plug p c t) = true.
Proof.
  induction p as [|n p IH]; intros c t Ht Hc; simpl; auto.
  destruct t as [d|es]; auto.
  destruct (child n es) as [e|] eqn:E; auto.
  apply wf_set_child; auto. apply IH; auto. apply (wf_child _ _ _ Ht E).
Qed.

Lemma wf_mkdirO p : forall o t',
  (forall t, o = Some t -> wf t = true) -> mkdirO p o = inr t' -> wf t' = true.
Proof.
  induction p as [|n p IH]; intros o t' Ho; simpl.
  - destruct o as [[d|es]|]; try discriminate.
    + intros [= <-]. now apply Ho.
    + now intros [= <-].
  - destruct o as [[d|es]|]; try discriminate.
    + destruct (mkdirO p (child n es)) as [er|c] eqn:M; [discriminate|].
      intros [= <-]. apply wf_set_child; [now apply Ho|].
      apply (IH _ _ (fun t Ht => wf_child _ _ _ (Ho _ eq_refl) Ht) M).
    + destruct (mkdirO p None) as [er|c] eqn:M; [discriminate|].
      intros [= <-]. simpl. rewrite (IH None c); auto; discriminate.
Qed.


(* ================================================================== *)
(** * [copyDirectory] *)
(* ================================================================== *)

Lemma copy_loop k src dest t0 o d0 :
  copies k ->
  disjoint src dest = true ->
  lookup dest t0 = Some d0 ->
  forall post pre,
    wf (Dir (pre ++ post)) = true ->
    (forall n c, In (n, c) post -> height c < k) ->
    lookup src t0 = Some (Dir (pre ++ post)) ->
    forEach (dirents post) (fun entry =>
        let srcPath := src ++ [name entry] in
        let destPath := dest ++ [name entry] in
        if isDirectory entry then copyDirectory k srcPath destPath
        else copyFileSync srcPath destPath)
      (World (plug dest (Dir pre) t0) o)
    = (Ok tt, World (plug dest (Dir (pre ++ post)) t0) o).
Proof.
  intros IHk Hdis Hdest post.
  induction post as [|[n c] post IH]; intros pre Hwf Hh Hsrc.
  - now rewrite app_nil_r.
  - destruct (wf_Dir _ Hwf) as [Hnd Hwfc].
    assert (Hin : In (n, c) (pre ++ (n, c) :: post))
      by (apply in_or_app; right; left; reflexivity).
    assert (Hc : child n (pre ++ (n, c) :: post) = Some c)
      by now apply In_child.
    assert (Hpre : child n pre = None).
    { apply child_None_not_in. intros Hn.
      rewrite map_app in Hnd. simpl in Hnd.
      apply NoDup_remove_2 in Hnd. apply Hnd. apply in_or_app. now left. }
    assert (Eapp : pre ++ (n, c) :: post = (pre ++ [(n, c)]) ++ post)
      by now rewrite <- app_assoc.
    set (ti := plug dest (Dir pre) t0).
    assert (Hdi : lookup dest ti = Some (Dir pre))
      by (apply (lookup_plug_same _ _ _ _ Hdest)).
    assert (Hsi : lookup (src ++ [n]) ti = Some c).
    { unfold ti. rewrite lookup_plug_frame.
      - now rewrite (lookup_snoc _ _ _ _ Hsrc).
      - rewrite disjoint_sym in Hdis.
        rewrite <- (app_nil_r dest). now apply disjoint_app. }
    simpl forEach. simpl name. simpl isDirectory.
    destruct c as [d|sub]; simpl isDir; cbv iota.
    + (* a regular file *)
      assert (Hal : alter (dest ++ [n]) (write_file d) ti
                    = inr (plug dest (Dir (pre ++ [(n, File d)])) t0)).
      { rewrite (alter_local dest [n] _ ti (Dir pre)
                   (Dir (set_child n (File d) pre)) Hdi).
        - unfold ti. rewrite (plug_plug _ _ _ _ _ Hdest).
          now rewrite set_child_fresh.
        - simpl. now rewrite Hpre. }
      rewrite (bind_Ok _ _ _ _ _ (copyFileSync_Ok _ _ (World ti o) _ _ Hsi Hal)).
      cbv beta. simpl out. rewrite Eapp.
      apply IH; rewrite <- ?Eapp; auto.
      intros m c' Hm. apply (Hh m). now right.
    + (* a sub-directory *)
      assert (Hmk : mkdirO (dest ++ [n]) (Some ti)
                    = inr (plug dest (Dir (pre ++ [(n, Dir [])])) t0)).
      { rewrite (mkdirO_local dest [n] ti (Dir pre)
                   (Dir (set_child n (Dir []) pre)) Hdi).
        - unfold ti. rewrite (plug_plug _ _ _ _ _ Hdest).
          now rewrite set_child_fresh.
        - simpl. now rewrite Hpre. }
      assert (Hrun := IHk (Dir sub) (src ++ [n]) (dest ++ [n]) ti _ o
                (Hh _ _ (or_introl eq_refl)) (Hwfc _ _ Hin) eq_refl Hsi
                (disjoint_app _ _ [n] [n] Hdis)
                ltac:(rewrite (lookup_snoc _ _ _ _ Hdi); exact Hpre) Hmk).
      rewrite (bind_Ok _ _ _ _ _ Hrun). cbv beta.
      assert (Hd1 : lookup dest (plug dest (Dir (pre ++ [(n, Dir [])])) t0)
                    = Some (Dir (pre ++ [(n, Dir [])])))
        by (apply (lookup_plug_same _ _ _ _ Hdest)).
      rewrite (plug_app _ _ _ _ _ Hd1).
      rewrite (plug_plug _ _ _ _ _ Hdest).
      rewrite (plug_single n (Dir sub) _ (Dir [])).
      2:{ rewrite <- (set_child_fresh n (Dir []) pre Hpre).
          apply child_set_child_same. }
      rewrite <- (set_child_fresh n (Dir []) pre Hpre).
      rewrite set_child_set_child, (set_child_fresh _ _ _ Hpre).
      rewrite Eapp.
      apply IH; rewrite <- ?Eapp; auto.
      intros m c' Hm. apply (Hh m). now right.
Qed.

Lemma copyDirectory_copies k : copies k.
Proof.
  induction k as [|k IHk]; intros tsrc src dest t t0 o Hh Hwf Hd Hsrc Hdis Hdest Hmk.
  - inversion Hh.
  - destruct tsrc as [d|es]; [discriminate|].
    destruct (mkdirO_fresh _ _ _ Hmk Hdest) as [Hd0 Hframe].
    assert (Hs0 : lookup src t0 = Some (Dir es)).
    { rewrite Hframe; auto. unfold disjoint in Hdis.
      apply andb_true_iff in Hdis as [H _]. now apply negb_true_iff. }
    simpl copyDirectory.
    rewrite (bind_Ok _ _ (World t o) tt (World t0 o)).
    2:{ unfold mkdirSync. now apply modify_Ok. }
    rewrite (bind_Ok _ _ _ _ _ (readdirSync_Dir src (World t0 o) es Hs0)).
    rewrite <- (plug_id dest t0 _ Hd0) at 1.
    apply (copy_loop k src dest t0 o _ IHk Hdis Hd0 es []); auto.
    intros n c Hin. apply height_child in Hin. lia.
Qed.

(* ================================================================== *)
(** * [compareFilesRecursively] on two copies of one tree *)
(* ================================================================== *)

Lemma jsstring_eqb_eq a b : jsstring_eqb a b = true <-> a = b.
Proof.
  revert b. induction a as [|x a IH]; intros [|y b]; simpl;
    try (split; [discriminate|discriminate]); try tauto.
  rewrite andb_true_iff, N.eqb_eq, IH. split.
  - now intros [-> ->].
  - now intros [= -> ->].
Qed.

Lemma jsstring_eqb_refl a : jsstring_eqb a a = true.
Proof. now apply jsstring_eqb_eq. Qed.

Lemma forEach_fixed {A} (l : list A) (f : A -> M unit) w :
  (forall a, In a l -> f a w = (Ok tt, w)) -> forEach l f w = (Ok tt, w).
Proof.
  induction l as [|a l IH]; intros H; simpl; auto.
  rewrite (bind_Ok _ _ _ _ _ (H a (or_introl eq_refl))).
  apply IH. intros b Hb. apply H. now right.
Qed.

Lemma In_dirents e es :
  In e (dirents es) <-> exists n c, In (n, c) es /\ e = Dirent n (isDir c).
Proof.
  unfold dirents. rewrite in_map_iff. split.
  - intros ([n c] & <- & Hin). now exists n, c.
  - intros (n & c & Hin & ->). now exists (n, c).
Qed.

Lemma compare_same k :
  forall tsrc a b w,
    height tsrc < k -> wf tsrc = true -> isDir tsrc = true ->
    lookup a (fs w) = Some tsrc -> lookup b (fs w) = Some tsrc ->
    compareFilesRecursively k a b w = (Ok tt, w).
Proof.
  induction k as [|k IHk]; intros tsrc a b w Hh Hwf Hd Ha Hb.
  - inversion Hh.
  - destruct tsrc as [d|es]; [discriminate|].
    destruct (wf_Dir _ Hwf) as [Hnd Hwfc].
    simpl compareFilesRecursively.
    rewrite (bind_Ok _ _ _ _ _ (readdirSync_Dir a w es Ha)).
    rewrite (bind_Ok _ _ _ _ _ (readdirSync_Dir b w es Hb)).
    cbv zeta.
    rewrite (bind_Ok _ _ w tt w).
    + apply forEach_fixed. intros e He.
      replace (has (map name (dirents es)) (name e)) with true; auto.
      symmetry. unfold has. apply existsb_eqb_In. now apply in_map.
    + apply forEach_fixed. intros e He.
      apply In_dirents in He as (n & c & Hin & ->).
      cbv beta. cbn [name isDirectory].
      assert (Hc : child n es = Some c) by now apply In_child.
      replace (has (map name (dirents es)) n) with true
        by (symmetry; apply has_dirents; congruence).
      destruct c as [d|sub]; cbn [isDir negb].
      * rewrite (bind_Ok _ _ _ d w).
        2:{ apply readFileSync_File. now rewrite (lookup_snoc _ _ _ _ Ha). }
        rewrite (bind_Ok _ _ _ d w).
        2:{ apply readFileSync_File. now rewrite (lookup_snoc _ _ _ _ Hb). }
        now rewrite jsstring_eqb_refl.
      * apply (IHk (Dir sub)); auto.
        -- apply height_child in Hin. lia.
        -- apply (Hwfc _ _ Hin).
        -- now rewrite (lookup_snoc _ _ _ _ Ha).
        -- now rewrite (lookup_snoc _ _ _ _ Hb).
Qed.

Lemma absent_not_prefix dest src t c :
  lookup dest t = None -> lookup src t = Some c -> is_prefix dest src = false.
Proof.
  intros Hd Hs. destruct (is_prefix dest src) eqn:E; auto.
  apply is_prefix_true in E as [r ->].
  rewrite lookup_app, Hd in Hs. discriminate.
Qed.

Lemma copyDirectory_fresh k src dest t o tsrc :
  lookup src t = Some tsrc -> isDir tsrc = true -> wf tsrc = true ->
  lookup dest t = None -> creatable dest t = true ->
  is_prefix src dest = false ->
  height tsrc < k ->
  exists t',
    copyDirectory k src dest (World t o) = (Ok tt, World t' o) /\
    lookup src t' = Some tsrc /\ lookup dest t' = Some tsrc /\
    (forall q, disjoint dest q = true -> lookup q t' = lookup q t) /\
    (wf t = true -> wf t' = true).
Proof.
  intros Hs Hd Hwf Hdest Hcr Hout Hh.
  unfold creatable in Hcr.
  destruct (mkdirO dest (Some t)) as [e|t0] eqn:Hmk; [discriminate|].
  assert (Hdis : disjoint src dest = true).
  { unfold disjoint. rewrite Hout, (absent_not_prefix _ _ _ _ Hdest Hs). reflexivity. }
  destruct (mkdirO_fresh _ _ _ Hmk Hdest) as [Hd0 Hframe].
  exists (plug dest tsrc t0). split; [|split; [|split; [|split]]].
  - now apply copyDirectory_copies.
  - rewrite lookup_plug_frame by now rewrite disjoint_sym.
    rewrite Hframe; auto.
  - apply (lookup_plug_same _ _ _ _ Hd0).
  - intros q Hq. rewrite lookup_plug_frame by assumption.
    apply Hframe. unfold disjoint in Hq.
    apply andb_true_iff in Hq as [_ Hq]. now apply negb_true_iff.
  - intros Ht. apply wf_plug; auto.
    apply (wf_mkdirO dest (Some t) t0); auto. now intros ? [= <-].
Qed.

(** C7. Copying a directory tree T to a destination D that does not exist
    yet and lies outside T, and then comparing T with D, reports nothing:
    the copy ends without error, D holds the very tree of T, T is
    untouched, and [compareFilesRecursively] returns without a single
    [differs] or [missing] line. *)
Theorem copyTree_then_diff_is_empty :
  forall k src dest t o tsrc,
    lookup src t = Some tsrc -> isDir tsrc = true -> wf tsrc = true ->
    lookup dest t = None -> creatable dest t = true ->
    is_prefix src dest = false ->
    height tsrc < k ->
    exists t',
      copyDirectory k src dest (World t o) = (Ok tt, World t' o) /\
      lookup src t' = Some tsrc /\ lookup dest t' = Some tsrc /\
      compareFilesRecursively k src dest (World t' o) = (Ok tt, World t' o).
Proof.
  intros k src dest t o tsrc Hs Hd Hwf Hdest Hcr Hout Hh.
  destruct (copyDirectory_fresh k src dest t o tsrc Hs Hd Hwf Hdest Hcr Hout Hh)
    as (t' & Hrun & Hs' & Hd' & _ & _).
  exists t'. repeat split; auto.
  now apply (compare_same k tsrc).
Qed.

Lemma copyTree_then_diff_is_empty_witness :
  exists t',
    copyDirectory 3 ["srv"] ["mirror"; "srv"] (World disk_site []) = (Ok tt, World t' []) /\
    lookup ["srv"] t' = Some site /\ lookup ["mirror"; "srv"] t' = Some site /\
    compareFilesRecursively 3 ["srv"] ["mirror"; "srv"] (World t' [])
    = (Ok tt, World t' []).
Proof.
  apply (copyTree_then_diff_is_empty 3 ["srv"] ["mirror"; "srv"] disk_site [] site);
    try reflexivity.
  vm_compute. lia.
Defined.

(* ================================================================== *)
(** * [deleteDirectory] *)
(* ================================================================== *)

Lemma del_child_set_child n c es d :
  child n es = Some d -> del_child n (set_child n c es) = del_child n es.
Proof.
  induction es as [|[k x] es IH]; simpl; [discriminate|].
  destruct (String.eqb n k) eqn:E; simpl; rewrite E; auto.
  intros H. now rewrite IH.
Qed.

Lemma alterO_plug p f c t d :
  lookup p t = Some d ->
  alterO p f (Some (plug p c t)) = alterO p (fun _ => f (Some c)) (Some t).
Proof.
  revert t. induction p as [|n p IH]; intros t; simpl; auto.
  destruct t as [dt|es]; [discriminate|].
  destruct (child n es) as [e|] eqn:E; [|discriminate].
  intros H. rewrite child_set_child_same, (IH _ H).
  destruct (alterO p (fun _ => f (Some c)) (Some e)) as [er|[c'|]]; auto.
  - now rewrite set_child_set_child.
  - now rewrite (del_child_set_child _ _ _ _ E).
Qed.

Lemma lookup_parent p n t c :
  lookup (p ++ [n]) t = Some c ->
  exists es, lookup p t = Some (Dir es) /\ child n es = Some c.
Proof.
  rewrite lookup_app. destruct (lookup p t) as [[d|es]|]; try discriminate.
  simpl. destruct (child n es) eqn:E; [|discriminate].
  intros [= ->]. eauto.
Qed.

Lemma remove_at_snoc p n t es :
  lookup p t = Some (Dir es) ->
  alter (p ++ [n]) (fun _ => inr None) t = inr (plug p (Dir (del_child n es)) t).
Proof.
  intros H. apply (alter_local p [n] _ t (Dir es)); auto.
Qed.

Lemma delete_loop k dir t o d0 :
  deletes k ->
  lookup dir t = Some d0 ->
  forall rest,
    (forall n c, In (n, c) rest -> height c < k) ->
    forEach (map fst rest) (fun file =>
        let curPath := dir ++ [file] in
        d <- lstatSync_isDirectory curPath ;;
        if d then deleteDirectory k curPath else unlinkSync curPath)
      (World (plug dir (Dir rest) t) o)
    = (Ok tt, World (plug dir (Dir []) t) o).
Proof.
  intros IHk Hdir rest.
  induction rest as [|[n c] rest IH]; intros Hh; [reflexivity|].
  set (ti := plug dir (Dir ((n, c) :: rest)) t).
  assert (Hdi : lookup dir ti = Some (Dir ((n, c) :: rest)))
    by apply (lookup_plug_same _ _ _ _ Hdir).
  assert (Hci : lookup (dir ++ [n]) ti = Some c).
  { rewrite (lookup_snoc _ _ _ _ Hdi). simpl. now rewrite String.eqb_refl. }
  assert (Hnext : plug dir (Dir (del_child n ((n, c) :: rest))) ti
                  = plug dir (Dir rest) t).
  { simpl. rewrite String.eqb_refl. apply (plug_plug _ _ _ _ _ Hdir). }
  simpl map. simpl forEach. cbv zeta.
  rewrite (bind_Ok _ _ (World ti o) tt (World (plug dir (Dir rest) t) o)).
  - apply IH. intros m c' Hm. apply (Hh m). now right.
  - rewrite (bind_Ok _ _ _ _ _ (lstatSync_Some _ (World ti o) _ Hci)).
    destruct c as [d|sub]; cbn [isDir].
    + unfold unlinkSync. rewrite <- Hnext. apply modify_Ok. simpl fs.
      apply (alter_local dir [n] _ ti _ _ Hdi). simpl.
      now rewrite String.eqb_refl.
    + rewrite (IHk (Dir sub) (dir ++ [n]) ti o); auto.
      * unfold remove_at. rewrite (remove_at_snoc _ _ _ _ Hdi). now rewrite Hnext.
      * apply (Hh n). now left.
      * intros E. now apply app_eq_nil in E as [_ E].
Qed.

Lemma deleteDirectory_deletes k : deletes k.
Proof.
  induction k as [|k IHk]; intros tdir dir t o Hh Hd Hdir Hne.
  - inversion Hh.
  - destruct tdir as [d|es]; [discriminate|].
    simpl deleteDirectory.
    rewrite (bind_Ok _ _ _ _ _ (existsSync_Some dir (World t o) _ Hdir)).
    rewrite (bind_Ok _ _ _ _ _ (readdirSync_Dir dir (World t o) es Hdir)).
    assert (Hnames : map name (dirents es) = map fst es).
    { unfold dirents. rewrite map_map. reflexivity. }
    rewrite Hnames.
    rewrite (bind_Ok _ _ (World t o) tt (World (plug dir (Dir []) t) o)).
    + unfold rmdirSync, remove_at.
      destruct (exists_last Hne) as (p & n & ->).
      destruct (lookup_parent _ _ _ _ Hdir) as (E & Hp & Hc).
      rewrite (remove_at_snoc _ _ _ _ Hp).
      apply modify_Ok. simpl fs. unfold alter.
      rewrite (alterO_plug _ _ _ _ _ Hdir). simpl rmdir_entry.
      fold (alter (p ++ [n]) (fun _ => inr None) t).
      apply (remove_at_snoc _ _ _ _ Hp).
    + rewrite <- (plug_id dir t _ Hdir) at 1.
      apply (delete_loop k dir t o _ IHk Hdir).
      intros n c Hin. apply height_child in Hin. lia.
Qed.

(* ================================================================== *)
(** * What an update leaves alone *)
(* ================================================================== *)

Lemma alterO_frame p f : forall o o' q,
  alterO p f o = inr o' -> disjoint p q = true -> lookupO q o' = lookupO q o.
Proof.
  unfold disjoint.
  induction p as [|n p IH]; intros o o' q; simpl.
  - discriminate.
  - destruct o as [[d|es]|]; try discriminate.
    destruct (alterO p f (child n es)) as [er|r] eqn:A; [discriminate|].
    destruct q as [|m q]; [destruct r; intros [= <-]; discriminate|].
    simpl.
    destruct (String.eqb_spec n m) as [->|Hnm]; simpl.
    + rewrite String.eqb_refl. simpl. intros Ho Hd.
      specialize (IH _ _ q A Hd).
      destruct r as [c|]; injection Ho as <-; simpl.
      * rewrite child_set_child_same. simpl in IH. rewrite IH.
        now destruct (child m es).
      * destruct p as [|k p]; [destruct q; discriminate|].
        simpl in A. destruct (child m es) as [[dd|ee]|]; try discriminate.
        destruct (alterO p f (child k ee)) as [?|[?|]]; discriminate.
    + intros Ho _. destruct r as [c|]; injection Ho as <-; simpl.
      * now rewrite child_set_child_other.
      * now rewrite child_del_child_other.
Qed.

Lemma remove_at_frame p q t :
  disjoint p q = true -> lookup q (remove_at p t) = lookup q t.
Proof.
  intros Hd. unfold remove_at, alter.
  destruct (alterO p (fun _ => inr None) (Some t)) as [e|[t'|]] eqn:A; auto.
  apply (alterO_frame _ _ _ _ _ A Hd).
Qed.

Lemma disjoint_nonempty p q : disjoint p q = true -> p <> [] /\ q <> [].
Proof.
  unfold disjoint. destruct p, q; simpl; try discriminate.
  split; discriminate.
Qed.

(** After the directory at [root] is taken out, [root] is free again. *)
Lemma remove_at_vacates root t tr :
  wf t = true -> lookup root t = Some tr -> root <> [] ->
  lookup root (remove_at root t) = None /\
  creatable root (remove_at root t) = true.
Proof.
  intros Hwf Hr Hne.
  destruct (exists_last Hne) as (p & n & ->).
  destruct (lookup_parent _ _ _ _ Hr) as (E & Hp & Hc).
  unfold remove_at. rewrite (remove_at_snoc _ _ _ _ Hp).
  set (E' := del_child n E).
  assert (HE' : child n E' = None).
  { apply child_del_child_same.
    apply (wf_Dir E). apply (wf_lookup _ _ _ Hwf Hp). }
  assert (Hp' : lookup p (plug p (Dir E') t) = Some (Dir E'))
    by apply (lookup_plug_same _ _ _ _ Hp).
  split.
  - now rewrite (lookup_snoc _ _ _ _ Hp').
  - unfold creatable.
    rewrite (mkdirO_local p [n] _ (Dir E') (Dir (set_child n (Dir []) E')) Hp'); auto.
    simpl. now rewrite HE'.
Qed.

(* ================================================================== *)
(** * [restore] and [backup] *)
(* ================================================================== *)

Lemma restore_missing cwd fuel updateDir backupDir w :
  lookup (resolve cwd backupDir) (fs w) = None ->
  restore_action cwd fuel updateDir backupDir w
  = (Ok tt, World (fs w) (out w ++ [ErrBackupMissing backupDir])).
Proof.
  intros H. unfold restore_action.
  now rewrite (bind_Ok _ _ _ _ _ (existsSync_None _ w H)).
Qed.

Lemma restore_replaces cwd fuel updateDir backupDir w tb :
  let root := resolve cwd updateDir in
  let bk := resolve cwd backupDir in
  wf (fs w) = true ->
  lookup bk (fs w) = Some tb -> isDir tb = true ->
  disjoint root bk = true ->
  replaceable root (fs w) = true ->
  height tb < fuel ->
  (forall tr, lookup root (fs w) = Some tr -> height tr < fuel) ->
  exists t',
    restore_action cwd fuel updateDir backupDir w
    = (Ok tt, World t' (out w ++ [LogRestored updateDir backupDir])) /\
    lookup root t' = Some tb /\ lookup bk t' = Some tb /\
    forall q, disjoint root q = true -> lookup q t' = lookup q (fs w).
Proof.
  intros root bk Hwf Hb Hd Hdis Hrep Hhb Hhr.
  destruct w as [t o]. simpl fs in *. simpl out.
  assert (Hdel : exists t1,
    deleteDirectory fuel root (World t o) = (Ok tt, World t1 o) /\
    lookup root t1 = None /\ creatable root t1 = true /\
    forall q, disjoint root q = true -> lookup q t1 = lookup q t).
  { unfold replaceable in Hrep.
    destruct (lookup root t) as [tr|] eqn:Hr.
    - exists (remove_at root t).
      destruct (disjoint_nonempty _ _ Hdis) as [Hne _].
      destruct (remove_at_vacates root t tr Hwf Hr Hne) as [H1 H2].
      repeat split; auto.
      + apply (deleteDirectory_deletes fuel tr); auto.
      + intros q Hq. now apply remove_at_frame.
    - exists t. repeat split; auto.
      destruct fuel as [|k]; [inversion Hhb|]. simpl deleteDirectory.
      now rewrite (bind_Ok _ _ _ _ _ (existsSync_None root (World t o) Hr)). }
  destruct Hdel as (t1 & Hrun1 & Hr1 & Hc1 & Hf1).
  assert (Hb1 : lookup bk t1 = Some tb) by (rewrite Hf1; auto).
  assert (Hpre : is_prefix bk root = false).
  { unfold disjoint in Hdis. apply andb_true_iff in Hdis as [_ H].
    now apply negb_true_iff. }
  destruct (copyDirectory_fresh fuel bk root t1 o tb Hb1 Hd
              (wf_lookup _ _ _ Hwf Hb) Hr1 Hc1 Hpre Hhb)
    as (t' & Hrun2 & Hb' & Hr' & Hf' & _).
  exists t'. split; [|split; [|split]]; auto.
  - unfold restore_action. fold root. fold bk.
    rewrite (bind_Ok _ _ _ _ _ (existsSync_Some bk (World t o) _ Hb)).
    cbn [negb].
    rewrite (bind_Ok _ _ _ _ _ Hrun1).
    now rewrite (bind_Ok _ _ _ _ _ Hrun2).
  - intros q Hq. rewrite Hf'; auto.
Qed.

Lemma is_prefix_app_both p a b : is_prefix (p ++ a) (p ++ b) = is_prefix a b.
Proof. induction p; simpl; auto. now rewrite String.eqb_refl. Qed.

Lemma length_append a b :
  String.length (String.append a b) = String.length a + String.length b.
Proof. induction a; simpl; auto. Qed.

Lemma backupDir_of_snoc p l now :
  exists suffix, suffix <> "" /\
    backupDir_of (p ++ [l]) now = p ++ [String.append l suffix].
Proof.
  unfold backupDir_of. rewrite rev_app_distr. simpl. rewrite rev_involutive.
  eexists. split; [|reflexivity]. discriminate.
Qed.

Lemma backupDir_of_disjoint root now :
  root <> [] -> disjoint root (backupDir_of root now) = true.
Proof.
  intros Hne. destruct (exists_last Hne) as (p & l & ->).
  destruct (backupDir_of_snoc p l now) as (sfx & Hs & ->).
  assert (Hl : String.append l sfx <> l).
  { intros E. apply (f_equal String.length) in E.
    rewrite length_append in E. destruct sfx; [congruence|]. simpl in E. lia. }
  unfold disjoint. rewrite !is_prefix_app_both. simpl.
  apply String.eqb_neq in Hl. rewrite Hl, String.eqb_sym, Hl. reflexivity.
Qed.

Lemma sibling_creatable p l m t c :
  lookup (p ++ [l]) t = Some c -> lookup (p ++ [m]) t = None ->
  creatable (p ++ [m]) t = true.
Proof.
  intros Hl Hm. destruct (lookup_parent _ _ _ _ Hl) as (E & Hp & _).
  rewrite (lookup_snoc _ _ _ _ Hp) in Hm.
  unfold creatable.
  rewrite (mkdirO_local p [m] t (Dir E) (Dir (set_child m (Dir []) E)) Hp); auto.
  simpl. now rewrite Hm.
Qed.

Lemma backup_creates cwd fuel now updateDir t o tr :
  let root := resolve cwd updateDir in
  let bk := backupDir_of root now in
  lookup root t = Some tr -> isDir tr = true -> wf tr = true ->
  root <> [] -> lookup bk t = None -> height tr < fuel ->
  exists t1,
    backup_action cwd fuel now updateDir (World t o)
    = (Ok tt, World t1 (o ++ [LogBackupCreated bk])) /\
    lookup bk t1 = Some tr /\ lookup root t1 = Some tr /\
    (wf t = true -> wf t1 = true).
Proof.
  intros root bk Hr Hd Hwf Hne Hb Hh.
  assert (Hdis := backupDir_of_disjoint root now Hne). fold bk in Hdis.
  assert (Hcr : creatable bk t = true).
  { clear Hdis. subst bk. destruct (exists_last Hne) as (p & l & E).
    rewrite E in *. destruct (backupDir_of_snoc p l now) as (sfx & _ & E').
    rewrite E' in *. apply (sibling_creatable p l _ t tr); auto. }
  assert (Hpre : is_prefix root bk = false).
  { unfold disjoint in Hdis. apply andb_true_iff in Hdis as [H _].
    now apply negb_true_iff. }
  destruct (copyDirectory_fresh fuel root bk t o tr Hr Hd Hwf Hb Hcr Hpre Hh)
    as (t1 & Hrun & Hr1 & Hb1 & _ & Hwf1).
  exists t1. repeat split; auto.
  unfold backup_action. fold root. fold bk.
  now rewrite (bind_Ok _ _ _ _ _ Hrun).
Qed.

(** C6 (amended). [restore] reports a missing backup directory and leaves
    the file system as it is. When the backup is a directory that neither
    contains the update directory nor lies inside it, and the update
    directory is a directory (or absent and creatable), [restore] ends
    without error, the update directory holds the very tree of the backup,
    the backup is untouched, and so is everything outside the update
    directory. Hence after [backup] to a fresh sibling and [restore] from
    it, the update directory holds the tree it held before, and comparing
    the snapshot with it reports nothing. *)
Theorem restore_replaces_root_by_backup :
  forall cwd fuel updateDir backupDir w,
    let root := resolve cwd updateDir in
    let bk := resolve cwd backupDir in
    (lookup bk (fs w) = None ->
     restore_action cwd fuel updateDir backupDir w
     = (Ok tt, World (fs w) (out w ++ [ErrBackupMissing backupDir])))
    /\
    (forall tb,
       wf (fs w) = true ->
       lookup bk (fs w) = Some tb -> isDir tb = true ->
       disjoint root bk = true ->
       replaceable root (fs w) = true ->
       height tb < fuel ->
       (forall tr, lookup root (fs w) = Some tr -> height tr < fuel) ->
       exists t',
         restore_action cwd fuel updateDir backupDir w
         = (Ok tt, World t' (out w ++ [LogRestored updateDir backupDir])) /\
         lookup root t' = Some tb /\ lookup bk t' = Some tb /\
         forall q, disjoint root q = true -> lookup q t' = lookup q (fs w))
    /\
    (forall now tr,
       wf (fs w) = true ->
       lookup root (fs w) = Some tr -> isDir tr = true -> root <> [] ->
       bk = backupDir_of root now -> lookup bk (fs w) = None ->
       height tr < fuel ->
       exists w1 w2,
         backup_action cwd fuel now updateDir w = (Ok tt, w1) /\
         restore_action cwd fuel updateDir backupDir w1 = (Ok tt, w2) /\
         lookup root (fs w2) = Some tr /\
         compareFilesRecursively fuel bk root w2 = (Ok tt, w2)).
Proof.
  intros cwd fuel updateDir backupDir w root bk. split; [|split].
  - apply restore_missing.
  - intros tb. apply restore_replaces.
  - intros now tr Hwf Hr Hd Hne Ebk Hb Hh.
    assert (Hwftr : wf tr = true) by apply (wf_lookup _ _ _ Hwf Hr).
    destruct w as [t o]. simpl fs in *.
    destruct (backup_creates cwd fuel now updateDir t o tr Hr Hd Hwftr Hne)
      as (t1 & Hrun1 & Hb1 & Hr1 & Hwf1); auto.
    { fold root. now rewrite <- Ebk. }
    fold root in Hrun1, Hb1, Hr1. rewrite <- Ebk in Hrun1, Hb1.
    set (w1 := World t1 (o ++ [LogBackupCreated bk])) in *.
    destruct (restore_replaces cwd fuel updateDir backupDir w1 tr)
      as (t2 & Hrun2 & Hr2 & Hb2 & _); simpl fs; auto.
    + fold root. fold bk. rewrite Ebk. now apply backupDir_of_disjoint.
    + unfold replaceable. fold root. now rewrite Hr1.
    + fold root. intros tr' E. rewrite Hr1 in E. now injection E as <-.
    + fold root in Hr2. fold bk in Hb2.
      eexists _, _. repeat split; eauto.
      apply (compare_same fuel tr); auto.
Qed.

Lemma restore_replaces_root_by_backup_witness :
  restore_action ["home"] 3 "u1" "nowhere" (world0 disk_u1)
  = (Ok tt, World disk_u1 [ErrBackupMissing "nowhere"])
  /\
  (exists t',
     restore_action ["home"] 3 "u1" "u1_backup_17" (world0 disk_u1_snapshot)
     = (Ok tt, World t' [LogRestored "u1" "u1_backup_17"]) /\
     lookup ["home"; "u1"] t' = Some u1_snapshot /\
     lookup ["home"; "u1_backup_17"] t' = Some u1_snapshot /\
     forall q, disjoint ["home"; "u1"] q = true ->
               lookup q t' = lookup q disk_u1_snapshot)
  /\
  (exists w1 w2,
     backup_action ["home"] 3 17 "u1" (world0 disk_u1) = (Ok tt, w1) /\
     restore_action ["home"] 3 "u1" "u1_backup_17" w1 = (Ok tt, w2) /\
     lookup ["home"; "u1"] (fs w2) = Some u1 /\
     compareFilesRecursively 3 ["home"; "u1_backup_17"] ["home"; "u1"] w2
     = (Ok tt, w2)).
Proof.
  split; [|split].
  - apply (proj1 (restore_replaces_root_by_backup
                    ["home"] 3 "u1" "nowhere" (world0 disk_u1))).
    reflexivity.
  - apply (proj1 (proj2 (restore_replaces_root_by_backup
                    ["home"] 3 "u1" "u1_backup_17" (world0 disk_u1_snapshot)))
             u1_snapshot); try reflexivity.
    + vm_compute. lia.
    + intros tr E. vm_compute in E. injection E as <-. vm_compute. lia.
  - apply (proj2 (proj2 (restore_replaces_root_by_backup
                    ["home"] 3 "u1" "u1_backup_17" (world0 disk_u1)))
             17%N u1); try reflexivity.
    + discriminate.
    + vm_compute. lia.
Defined.

(** C6, as stated, fails when the backup lies inside the update directory:
    the update directory is deleted first and the backup with it, so
    [restore] ends with [ENOENT] or does not end, and the update directory
    never holds a copy of the backup. *)
Lemma restore_from_inside_loses_backup :
  exists tb,
    lookup (resolve ["home"] "u1/old") disk_u1 = Some tb /\
    forall fuel,
      lookup (resolve ["home"] "u1")
             (fs (snd (restore_action ["home"] fuel "u1" "u1/old" (world0 disk_u1))))
      <> Some tb.
Proof.
  eexists. split; [reflexivity|].
  intros [|[|[|fuel]]]; vm_compute; discriminate.
Qed.

(* ================================================================== *)
(** * [remove] *)
(* ================================================================== *)







Lemma existsSync_name_dir f w t :
  lookup (components f) (fs w) = Some t -> isDir t = true ->
  existsSync_name f w = (Ok true, w).
Proof.
  intros H Hd. unfold existsSync_name, stat. rewrite H.
  destruct t; [discriminate|reflexivity].
Qed.

Lemma existsSync_name_None f w :
  lookup (components f) (fs w) = None -> existsSync_name f w = (Ok false, w).
Proof. intros H. unfold existsSync_name, stat. now rewrite H. Qed.

Lemma readonly_existsSync_name f : readonly (existsSync_name f).
Proof. intros w r w' [= _ <-]. reflexivity. Qed.






(** The same command on the path with a separator at its end: the names
    [old/a.txt/] and [new/a.txt/] lead nowhere, both sides are reported
    absent and the two files stay. *)
Example remove_with_trailing_separator :
  remove_action ["home"] "u1" "a.txt/" (world0 disk_u1)
  = (Ok tt,
     World disk_u1
           [LogDoesNotExist (Filename ["home"; "u1"; "old"; "a.txt"] true);
            LogDoesNotExist (Filename ["home"; "u1"; "new"; "a.txt"] true)]).
Proof. reflexivity. Qed.

(* ================================================================== *)
(** * What [compareFilesRecursively] reports *)
(* ================================================================== *)

Lemma bind_Ok_inv {A B} (m : M A) (k : A -> M B) w b w' :
  bind m k w = (Ok b, w') ->
  exists a w1, m w = (Ok a, w1) /\ k a w1 = (Ok b, w').
Proof.
  unfold bind. destruct (m w) as [[a|e|] w1]; try discriminate. eauto.
Qed.

Lemma readdirSync_inv p w l w' :
  readdirSync p w = (Ok l, w') ->
  w' = w /\ exists es, lookup p (fs w) = Some (Dir es) /\ l = dirents es.
Proof.
  unfold readdirSync. destruct (lookup p (fs w)) as [[d|es]|]; try discriminate.
  intros [= <- <-]. eauto.
Qed.

Lemma readFileSync_inv p w d w' :
  readFileSync p w = (Ok d, w') -> w' = w /\ lookup p (fs w) = Some (File d).
Proof.
  unfold readFileSync. destruct (lookup p (fs w)) as [[x|es]|]; try discriminate.
  now intros [= <- <-].
Qed.

(** A loop whose every round keeps the file system and reports a
    [differs] line exactly when [D] holds of its element. *)
Lemma forEach_differs {A} (l : list A) (f : A -> M unit) (t : node)
  (D : A -> string -> Prop) :
  (forall a w1 w2, In a l -> fs w1 = t -> f a w1 = (Ok tt, w2) ->
     fs w2 = t /\ exists evs, out w2 = out w1 ++ evs /\
       forall nm, In (LogDiffers nm) evs <-> D a nm) ->
  forall w w', fs w = t -> forEach l f w = (Ok tt, w') ->
    fs w' = t /\ exists evs, out w' = out w ++ evs /\
      forall nm, In (LogDiffers nm) evs <-> exists a, In a l /\ D a nm.
Proof.
  induction l as [|a l IH]; intros Hf w w' Hw; simpl.
  - intros [= <-]. split; auto. exists []. rewrite app_nil_r. split; auto.
    intros nm. split; [contradiction|]. now intros (a & [] & _).
  - intros Hrun. apply bind_Ok_inv in Hrun as ([] & w1 & H1 & H2).
    destruct (Hf a w w1 (or_introl eq_refl) Hw H1) as (Hw1 & e1 & Ho1 & Hd1).
    destruct (IH (fun b u v Hb => Hf b u v (or_intror Hb)) w1 w' Hw1 H2)
      as (Hw' & e2 & Ho2 & Hd2).
    split; auto. exists (e1 ++ e2). split.
    + now rewrite Ho2, Ho1, app_assoc.
    + intros nm. rewrite in_app_iff, Hd1, Hd2. split.
      * intros [H|(b & Hb & H)]; eauto.
      * intros (b & [<-|Hb] & H); eauto.
Qed.

Lemma compare_Ok_dirs k a b w w' :
  compareFilesRecursively k a b w = (Ok tt, w') ->
  exists ea eb, lookup a (fs w) = Some (Dir ea) /\ lookup b (fs w) = Some (Dir eb).
Proof.
  destruct k as [|k]; simpl; [discriminate|].
  intros H. apply bind_Ok_inv in H as (la & w1 & H1 & H).
  apply readdirSync_inv in H1 as (-> & ea & Ha & _).
  apply bind_Ok_inv in H as (lb & w2 & H2 & H).
  apply readdirSync_inv in H2 as (-> & eb & Hb & _). eauto.
Qed.

Lemma differs_through_child t a b h nm :
  differs_through t a b h nm ->
  exists ca cb, lookup (a ++ [h]) t = Some ca /\ lookup (b ++ [h]) t = Some cb.
Proof.
  intros (p & x & y & (tl & E) & Ha & Hb & _).
  rewrite E in Ha, Hb.
  change (h :: tl) with ([h] ++ tl) in Ha, Hb.
  rewrite app_assoc, lookup_app in Ha, Hb.
  destruct (lookup (a ++ [h]) t); [|discriminate].
  destruct (lookup (b ++ [h]) t); [|discriminate]. eauto.
Qed.

(** Through a pair of directories: the pairs below it. *)
Lemma differs_through_dirs t a b h nm ea :
  lookup (a ++ [h]) t = Some (Dir ea) ->
  differs_through t a b h nm <-> differs_below t (a ++ [h]) (b ++ [h]) nm.
Proof.
  intros Ha. split.
  - intros (p & x & y & (tl & E) & Hx & Hy & Hne).
    destruct p as [|h' p].
    + simpl in E. injection E as -> <-. simpl in Hx. congruence.
    + simpl in E. injection E as -> <-.
      exists p, x, y. rewrite <- !app_assoc. simpl. auto.
  - intros (p & x & y & Hx & Hy & Hne).
    exists (h :: p), x, y. rewrite <- !app_assoc in Hx, Hy. simpl in *.
    split; eauto.
Qed.

(** Through a regular file: that file and its namesake. *)
Lemma differs_through_file t a b h nm x y :
  lookup (a ++ [h]) t = Some (File x) ->
  lookup (b ++ [h]) t = Some (File y) ->
  differs_through t a b h nm <-> nm = h /\ toString x <> toString y.
Proof.
  intros Ha Hb. split.
  - intros (p & x' & y' & (tl & E) & Hx & Hy & Hne).
    destruct p as [|h' p].
    + simpl in E. injection E as -> <-. simpl in Hx, Hy.
      rewrite Ha in Hx. rewrite Hb in Hy.
      injection Hx as <-. injection Hy as <-. auto.
    + simpl in E. injection E as -> <-.
      change (a ++ (h :: p) ++ [nm]) with (a ++ [h] ++ (p ++ [nm])) in Hx.
      rewrite app_assoc, lookup_below_file with (d := x) in Hx; auto.
      * discriminate.
      * now destruct p.
  - intros [-> Hne]. exists [], x, y. simpl. split; eauto.
Qed.

Lemma log_other_inv e w w2 :
  (forall nm, e <> LogDiffers nm) ->
  log e w = (Ok tt, w2) ->
  fs w2 = fs w /\ exists evs, out w2 = out w ++ evs /\
    forall nm, In (LogDiffers nm) evs <-> False.
Proof.
  intros He [= <-]. split; auto. exists [e]. split; auto.
  intros nm. split; [|contradiction].
  intros [E|[]]. now apply (He nm).
Qed.

Lemma ret_inv w w2 :
  ret tt w = (Ok tt, w2) ->
  fs w2 = fs w /\ exists evs, out w2 = out w ++ evs /\
    forall nm, In (LogDiffers nm) evs <-> False.
Proof.
  intros [= <-]. split; auto. exists []. rewrite app_nil_r. split; auto.
  intros nm. split; contradiction.
Qed.

Lemma compare_reports k :
  forall a b w w',
    compareFilesRecursively k a b w = (Ok tt, w') ->
    fs w' = fs w /\ exists evs, out w' = out w ++ evs /\
      forall nm, In (LogDiffers nm) evs <-> differs_below (fs w) a b nm.
Proof.
  induction k as [|k IHk]; intros a b w w'; simpl; [discriminate|].
  intros H. apply bind_Ok_inv in H as (la & w1 & H1 & H).
  apply readdirSync_inv in H1 as (-> & ea & Ha & ->).
  apply bind_Ok_inv in H as (lb & w2 & H2 & H).
  apply readdirSync_inv in H2 as (-> & eb & Hb & ->).
  cbv zeta in H.
  apply bind_Ok_inv in H as ([] & wm & Hloop1 & Hloop2).
  set (t := fs w) in *.
  apply (forEach_differs _ _ t
           (fun e nm => differs_through t a b (name e) nm)) in Hloop1; auto.
  - destruct Hloop1 as (Hwm & e1 & Ho1 & Hd1).
    apply (forEach_differs _ _ t (fun _ _ => False)) in Hloop2; auto.
    + destruct Hloop2 as (Hw' & e2 & Ho2 & Hd2).
      split; auto. exists (e1 ++ e2). split.
      * now rewrite Ho2, Ho1, app_assoc.
      * intros nm. rewrite in_app_iff, Hd1, Hd2. split.
        -- intros [(e & _ & p & x & y & _ & Hx & Hy & Hne)|(e & _ & [])].
           now exists p, x, y.
        -- intros (p & x & y & Hx & Hy & Hne). left.
           destruct (p ++ [nm]) as [|h tl] eqn:E;
             [now destruct p|].
           assert (Hh : exists c, child h ea = Some c).
           { change (h :: tl) with ([h] ++ tl) in Hx.
             rewrite app_assoc, lookup_app, (lookup_snoc _ _ _ _ Ha) in Hx.
             destruct (child h ea); [eauto|discriminate]. }
           destruct Hh as (c & Hc).
           exists (Dirent h (isDir c)). split.
           ++ apply In_dirents. exists h, c. split; auto. now apply child_In.
           ++ exists p, x, y. rewrite E. split; eauto.
    + intros e u v _ Hu. cbv beta.
      destruct (negb (has (map name (dirents ea)) (name e))).
      * intros Hlog. apply log_other_inv in Hlog; [|discriminate].
        destruct Hlog as (Hv & evs & Ho & Hd). rewrite Hv. eauto.
      * intros Hret. apply ret_inv in Hret.
        destruct Hret as (Hv & evs & Ho & Hd). rewrite Hv. eauto.
  - intros e u v He Hu. cbv beta.
    set (h := name e).
    assert (Hmiss : has (map name (dirents eb)) h = false ->
                    forall nm, False <-> differs_through t a b h nm).
    { intros Hhas nm. split; [contradiction|]. intros Hd.
      apply differs_through_child in Hd as (ca & cb & _ & Hcb).
      rewrite (lookup_snoc _ _ _ _ Hb) in Hcb.
      assert (Hne : child h eb <> None) by congruence.
      apply has_dirents in Hne. congruence. }
    destruct (isDirectory e).
    + destruct (has (map name (dirents eb)) h) eqn:Hhas.
      * intros Hrec.
        destruct (compare_Ok_dirs _ _ _ _ _ Hrec) as (ca & cb & Hca & Hcb).
        apply IHk in Hrec as (Hv & evs & Ho & Hd).
        rewrite Hu in *. split; auto. exists evs. split; auto.
        intros nm. rewrite Hd. symmetry.
        apply (differs_through_dirs t a b h nm ca Hca).
      * intros Hlog. apply log_other_inv in Hlog; [|discriminate].
        destruct Hlog as (Hv & evs & Ho & Hd). rewrite Hv.
        split; auto. exists evs. split; auto.
        intros nm. rewrite Hd. now apply Hmiss.
    + destruct (has (map name (dirents eb)) h) eqn:Hhas; cbn [negb].
      * intros Hrd. apply bind_Ok_inv in Hrd as (x & u1 & Hx & Hrd).
        apply readFileSync_inv in Hx as (-> & Hx).
        apply bind_Ok_inv in Hrd as (y & u2 & Hy & Hrd).
        apply readFileSync_inv in Hy as (-> & Hy).
        rewrite Hu in Hx, Hy.
        assert (Hthr := differs_through_file t a b h).
        destruct (jsstring_eqb (toString x) (toString y)) eqn:Eq; cbn [negb] in Hrd.
        -- apply jsstring_eqb_eq in Eq.
           apply ret_inv in Hrd as (Hv & evs & Ho & Hd). rewrite Hv.
           split; auto. exists evs. split; auto.
           intros nm. rewrite Hd, (Hthr nm x y Hx Hy). tauto.
        -- injection Hrd as <-. split; auto. exists [LogDiffers h]. split; auto.
           intros nm. rewrite (Hthr nm x y Hx Hy). simpl. split.
           ++ intros [[= ->]|[]]. split; auto.
              intros E. apply jsstring_eqb_eq in E. congruence.
           ++ intros [-> _]. now left.
      * intros Hlog. apply log_other_inv in Hlog; [|discriminate].
        destruct Hlog as (Hv & evs & Ho & Hd). rewrite Hv.
        split; auto. exists evs. split; auto.
        intros nm. rewrite Hd. now apply Hmiss.
Qed.

Lemma forEach_total {A} (l : list A) (f : A -> M unit) (t : node) :
  (forall a w1, In a l -> fs w1 = t ->
     exists w2, f a w1 = (Ok tt, w2) /\ fs w2 = t) ->
  forall w, fs w = t -> exists w', forEach l f w = (Ok tt, w') /\ fs w' = t.
Proof.
  induction l as [|a l IH]; intros Hf w Hw; simpl.
  - now exists w.
  - destruct (Hf a w (or_introl eq_refl) Hw) as (w1 & H1 & Hw1).
    destruct (IH (fun b u Hb => Hf b u (or_intror Hb)) w1 Hw1) as (w' & H2 & Hw').
    exists w'. now rewrite (bind_Ok _ _ _ _ _ H1).
Qed.

(** On two well-formed directories without a clash of kinds the walk ends
    without error, within the height of the old tree. *)
Lemma compare_total k :
  forall told tnew a b w,
    height told < k -> wf told = true ->
    isDir told = true -> compatible told tnew = true ->
    lookup a (fs w) = Some told -> lookup b (fs w) = Some tnew ->
    exists w', compareFilesRecursively k a b w = (Ok tt, w').
Proof.
  induction k as [|k IHk]; intros told tnew a b w Hh Hwf Hd Hc Ha Hb.
  - inversion Hh.
  - destruct told as [d|ea]; [discriminate|].
    destruct tnew as [d|eb]; [discriminate|].
    destruct (wf_Dir _ Hwf) as [Hnd Hwfc].
    simpl in Hc. rewrite forallb_forall in Hc.
    simpl compareFilesRecursively.
    rewrite (bind_Ok _ _ _ _ _ (readdirSync_Dir a w ea Ha)).
    rewrite (bind_Ok _ _ _ _ _ (readdirSync_Dir b w eb Hb)).
    cbv zeta.
    match goal with
    | |- exists w', bind (forEach ?l ?f) _ _ = _ =>
        destruct (forEach_total l f (fs w)) with (w := w) as (wm & Hm & Hwm); auto
    end.
    + intros e u He Hu. apply In_dirents in He as (n & c & Hin & ->).
      cbn [name isDirectory].
      assert (Hca : lookup (a ++ [n]) (fs u) = Some c).
      { rewrite Hu, (lookup_snoc _ _ _ _ Ha). now apply In_child. }
      specialize (Hc _ Hin). simpl in Hc.
      assert (Hcb : lookup (b ++ [n]) (fs u) = child n eb)
        by now rewrite Hu, (lookup_snoc _ _ _ _ Hb).
      destruct (has (map name (dirents eb)) n) eqn:Hhas.
      * assert (Hne : child n eb <> None) by now apply has_dirents.
        destruct (child n eb) as [c'|]; [|congruence].
        destruct c as [x|sub]; cbn [isDir negb].
        -- destruct c' as [y|]; [|discriminate].
           rewrite (bind_Ok _ _ _ _ _ (readFileSync_File _ u x Hca)).
           rewrite (bind_Ok _ _ _ _ _ (readFileSync_File _ u y Hcb)).
           destruct (negb (jsstring_eqb (toString x) (toString y))).
           ++ eexists. split; [reflexivity|]. exact Hu.
           ++ eexists. split; [reflexivity|]. exact Hu.
        -- destruct (IHk (Dir sub) c' (a ++ [n]) (b ++ [n]) u) as (v & Hv); auto.
           ++ apply height_child in Hin. lia.
           ++ apply (Hwfc _ _ Hin).
           ++ exists v. split; auto.
              apply compare_reports in Hv as [Hv _]. congruence.
      * destruct c as [x|sub]; cbn [isDir negb];
          (eexists; split; [reflexivity|exact Hu]).
    + rewrite (bind_Ok _ _ _ _ _ Hm).
      match goal with
      | |- exists w', forEach ?l ?f _ = _ =>
          destruct (forEach_total l f (fs w)) with (w := wm) as (w' & Hw' & _); auto
      end.
      * intros e u _ Hu. cbv beta.
        destruct (negb (has (map name (dirents ea)) (name e)));
          (eexists; split; [reflexivity|exact Hu]).
      * now exists w'.
Qed.

(** C1 (amended). On two well-formed trees without a clash of kinds,
    [compareFilesRecursively] ends without error, leaves the file system
    alone, and prints a [differs] line with a file name exactly when some
    relative path ending in that name is a regular file in both trees and
    the two contents, decoded by [toString], are different strings. So
    every [differs] line comes from a pair of files that are not
    byte-identical, and when all the pairs are byte-identical no [differs]
    line is printed. *)
Theorem compare_differs_iff_text_differs :
  forall fuel oldPath newPath w told tnew,
    lookup oldPath (fs w) = Some told -> lookup newPath (fs w) = Some tnew ->
    isDir told = true -> wf told = true -> compatible told tnew = true ->
    height told < fuel ->
    exists evs,
      compareFilesRecursively fuel oldPath newPath w
      = (Ok tt, World (fs w) (out w ++ evs)) /\
      (forall nm, In (LogDiffers nm) evs <->
                  differs_below (fs w) oldPath newPath nm) /\
      (forall nm, In (LogDiffers nm) evs ->
                  exists p x y,
                    lookup (oldPath ++ p ++ [nm]) (fs w) = Some (File x) /\
                    lookup (newPath ++ p ++ [nm]) (fs w) = Some (File y) /\
                    x <> y) /\
      ((forall p nm x y,
          lookup (oldPath ++ p ++ [nm]) (fs w) = Some (File x) ->
          lookup (newPath ++ p ++ [nm]) (fs w) = Some (File y) -> x = y) ->
       forall nm, ~ In (LogDiffers nm) evs).
Proof.
  intros fuel oldPath newPath w told tnew Ho Hn Hd Hwf Hc Hh.
  destruct (compare_total fuel told tnew oldPath newPath w Hh Hwf Hd Hc Ho Hn)
    as (w' & Hrun).
  destruct (compare_reports _ _ _ _ _ Hrun) as (Hfs & evs & Hout & Hiff).
  exists evs. split; [|split; [|split]].
  - rewrite Hrun. destruct w' as [t' o']. simpl in *. now subst.
  - exact Hiff.
  - intros nm Hin. apply Hiff in Hin as (p & x & y & Hx & Hy & Hne).
    exists p, x, y. repeat split; auto. intros ->. now apply Hne.
  - intros Hall nm Hin. apply Hiff in Hin as (p & x & y & Hx & Hy & Hne).
    apply Hne. now rewrite (Hall p nm x y Hx Hy).
Qed.

Lemma compare_differs_iff_text_differs_witness :
  exists evs,
    compareFilesRecursively 2 ["home"; "u1"; "old"] ["home"; "u1"; "new"]
      (world0 disk_u1)
    = (Ok tt, World disk_u1 ([] ++ evs)) /\
    (forall nm, In (LogDiffers nm) evs <->
                differs_below disk_u1 ["home"; "u1"; "old"] ["home"; "u1"; "new"] nm) /\
    (forall nm, In (LogDiffers nm) evs ->
                exists p x y,
                  lookup (["home"; "u1"; "old"] ++ p ++ [nm]) disk_u1 = Some (File x) /\
                  lookup (["home"; "u1"; "new"] ++ p ++ [nm]) disk_u1 = Some (File y) /\
                  x <> y) /\
    ((forall p nm x y,
        lookup (["home"; "u1"; "old"] ++ p ++ [nm]) disk_u1 = Some (File x) ->
        lookup (["home"; "u1"; "new"] ++ p ++ [nm]) disk_u1 = Some (File y) ->
        x = y) ->
     forall nm, ~ In (LogDiffers nm) evs).
Proof.
  apply (compare_differs_iff_text_differs 2 ["home"; "u1"; "old"]
           ["home"; "u1"; "new"] (world0 disk_u1)
           (Dir [("a.txt", File (bytes "x"))])
           (Dir [("a.txt", File (bytes "y"))])); try reflexivity.
  vm_compute. lia.
Defined.

(** C1, as stated, fails on contents that are not valid UTF-8: the two
    files differ in their only byte, both decode to U+FFFD, and [compare]
    prints nothing whatever the recursion budget. *)
Lemma compare_misses_malformed_bytes :
  [xff] <> [xfe] /\
  lookup ["u"; "old"; "logo.bin"] disk_logo = Some (File [xff]) /\
  lookup ["u"; "new"; "logo.bin"] disk_logo = Some (File [xfe]) /\
  compare_action [] 1 "u" (world0 disk_logo) = (Ok tt, world0 disk_logo) /\
  forall fuel, out (snd (compare_action [] fuel "u" (world0 disk_logo))) = [].
Proof.
  repeat split; try discriminate.
  intros [|fuel]; reflexivity.
Qed.

(** C3: the code at a name that is a regular file in [old] and a directory
    in [new], and the other way round. The name counts as present on both
    sides (no [missing] line), but reading the directory as a file throws
    [EISDIR], and listing the file as a directory throws [ENOTDIR]; no
    [differs] line is printed. *)
Lemma compare_clash_of_kinds_throws :
  (forall fuel,
     compare_action [] (S fuel) "u" (world0 disk_file_vs_dir)
     = (Throw EISDIR, world0 disk_file_vs_dir)) /\
  (forall fuel,
     compare_action [] (S (S fuel)) "u" (world0 disk_dir_vs_file)
     = (Throw ENOTDIR, world0 disk_dir_vs_file)).
Proof. split; intros fuel; reflexivity. Qed.

(** The half of C2 that holds: a version whose directory is absent is
    reported and nothing is listed. *)
Lemma list_missing_version_dir cwd fuel updateDir version w :
  lookup (join (resolve cwd updateDir) version) (fs w) = None ->
  list_action cwd fuel updateDir version w
  = (Ok tt, World (fs w) (out w ++ [ErrVersionDirMissing version])).
Proof.
  intros H. unfold list_action.
  now rewrite (bind_Ok _ _ _ _ _
                 (existsSync_name_None
                    (joinName (resolve cwd updateDir) [] version) w H)).
Qed.

(** C2: the code at a version that is neither [old] nor [new]. The
    directory [u/tmp] exists, and [list] prints its files. *)
Lemma list_accepts_any_version :
  forall fuel,
    list_action [] (S (S fuel)) "u" "tmp" (world0 disk_tmp)
    = (Ok tt, World disk_tmp [LogFilesIn "tmp";
                              LogPath ["u"; "tmp"; "notes.txt"]]).
Proof. intros fuel. reflexivity. Qed.

(* ================================================================== *)
(** * The confirmation prompt *)
(* ================================================================== *)

Lemma trimStart_split s :
  exists l, s = l ++ trimStart s /\ forallb isWhiteSpace l = true.
Proof.
  induction s as [|c s (l & E & Hl)]; simpl.
  - now exists [].
  - destruct (isWhiteSpace c) eqn:Hc.
    + exists (c :: l). simpl. rewrite Hc, Hl. split; auto. now f_equal.
    + now exists [].
Qed.

Lemma trimStart_head s c r : trimStart s = c :: r -> isWhiteSpace c = false.
Proof.
  induction s as [|d s IH]; simpl; [discriminate|].
  destruct (isWhiteSpace d) eqn:Hd; auto.
  now intros [= -> ->].
Qed.

Lemma trimStart_ws l s :
  forallb isWhiteSpace l = true -> trimStart (l ++ s) = trimStart s.
Proof.
  induction l as [|c l IH]; simpl; auto.
  intros H. apply andb_true_iff in H as [Hc Hl]. rewrite Hc. auto.
Qed.

Lemma forallb_rev {A} (P : A -> bool) l :
  forallb P (rev l) = forallb P l.
Proof.
  induction l as [|a l IH]; simpl; auto.
  rewrite forallb_app, IH. simpl. rewrite andb_true_r. apply andb_comm.
Qed.

(** [trim] leaves one character exactly when the line is that character,
    not a blank, between blanks. *)
Lemma trim_single answer c :
  trim answer = [c] <->
  exists l r, answer = l ++ c :: r /\ isWhiteSpace c = false /\
              forallb isWhiteSpace l = true /\ forallb isWhiteSpace r = true.
Proof.
  unfold trim, trimEnd. split.
  - intros H. apply (f_equal (@rev N)) in H. rewrite rev_involutive in H.
    simpl in H.
    destruct (trimStart_split answer) as (l & E1 & Hl).
    destruct (trimStart_split (rev (trimStart answer))) as (r & E2 & Hr).
    rewrite H in E2. apply (f_equal (@rev N)) in E2.
    rewrite rev_involutive, rev_app_distr in E2. simpl in E2.
    exists l, (rev r). rewrite E1 at 1. rewrite E2.
    repeat split; auto.
    + apply (trimStart_head _ _ _ H).
    + now rewrite forallb_rev.
  - intros (l & r & -> & Hc & Hl & Hr).
    rewrite trimStart_ws by assumption. simpl. rewrite Hc.
    change (rev (c :: r)) with (rev r ++ [c]).
    rewrite trimStart_ws by now rewrite forallb_rev.
    simpl. now rewrite Hc.
Qed.

Section ConfirmationFacts.

Variable unicodeLower : jsstring -> N -> jsstring -> jsstring.
Hypothesis table : no_y_outside_ascii unicodeLower.

Lemma lowerFrom_nil before s : lowerFrom unicodeLower before s = [] -> s = [].
Proof.
  destruct s as [|c s]; auto. simpl.
  destruct (c <? 0x80)%N eqn:Hc; [discriminate|].
  apply N.ltb_ge in Hc.
  destruct (table before c s Hc) as (u & us & -> & _). discriminate.
Qed.

Lemma asciiLower_y c : asciiLower c = 0x79%N <-> c = 0x79%N \/ c = 0x59%N.
Proof.
  unfold asciiLower, inrange.
  destruct (0x41 <=? c)%N eqn:H1; destruct (c <=? 0x5A)%N eqn:H2; simpl;
    try apply N.leb_le in H1; try apply N.leb_le in H2;
    try apply N.leb_gt in H1; try apply N.leb_gt in H2; lia.
Qed.

Lemma toLowerCase_y s :
  toLowerCase unicodeLower s = [0x79%N] <-> s = [0x79%N] \/ s = [0x59%N].
Proof.
  unfold toLowerCase. split.
  - destruct s as [|c s]; simpl; [discriminate|].
    destruct (c <? 0x80)%N eqn:Hc.
    + intros [= Hl Hs]. apply lowerFrom_nil in Hs. subst s.
      apply asciiLower_y in Hl as [->| ->]; auto.
    + apply N.ltb_ge in Hc.
      destruct (table [] c s Hc) as (u & us & -> & Hu).
      intros [= E _]. contradiction.
  - intros [->| ->]; reflexivity.
Qed.

Lemma askConfirmation_true answer :
  askConfirmation unicodeLower answer = true <->
  exists l c r, answer = l ++ c :: r /\ (c = 0x79%N \/ c = 0x59%N) /\
                forallb isWhiteSpace l = true /\ forallb isWhiteSpace r = true.
Proof.
  unfold askConfirmation. rewrite jsstring_eqb_eq, toLowerCase_y. split.
  - intros [H|H]; apply trim_single in H as (l & r & E & _ & Hl & Hr);
      eexists l, _, r; eauto.
  - intros (l & c & r & E & [->| ->] & Hl & Hr); [left|right];
      apply trim_single; exists l, r; auto.
Qed.

End ConfirmationFacts.

(* ================================================================== *)
(** * The push session *)
(* ================================================================== *)

Section PushFacts.

Variable T : Type.
Variable put : T -> path -> path -> T * option string.
Variable unicodeLower : jsstring -> N -> jsstring -> jsstring.

Lemma present_plan files : forall s : session T,
  let s' := fold_left (fun s file =>
              say (LogPlanned (localFilePath file) (remoteFilePath file)) s)
              files s in
  same_connection s s' /\ out (sys s') = out (sys s) ++ planned files.
Proof.
  induction files as [|file files IH]; intros s; simpl.
  - unfold same_connection. now rewrite app_nil_r.
  - destruct (IH (say (LogPlanned (localFilePath file) (remoteFilePath file)) s))
      as [(H1 & H2 & H3 & H4 & H5) H6].
    unfold same_connection. rewrite H1, H2, H3, H4, H5, H6. simpl.
    now rewrite <- app_assoc.
Qed.

(** The upload loop: the traffic is sequential, and it covers the whole
    plan, or the plan up to the first transfer the server rejects. *)
Lemma uploadEach_spec files : forall s : session T,
  exists tr,
    traffic (snd (uploadEach put files s)) = traffic s ++ tr /\
    sequential put (remote s) tr (remote (snd (uploadEach put files s))) /\
    fs (sys (snd (uploadEach put files s))) = fs (sys s) /\
    match fst (uploadEach put files s) with
    | None => issued tr = files /\ rejected tr = []
    | Some e =>
        exists ok bad rest m,
          e = PutFailure m /\ files = ok ++ bad :: rest /\
          issued tr = ok ++ [bad] /\ rejected tr = [(bad, m)]
    end.
Proof.
  induction files as [|file files IH]; intros s; simpl.
  - exists []. rewrite app_nil_r. repeat split; auto. constructor.
  - unfold uploadFile.
    destruct (put (remote s) (localFilePath file) (remoteFilePath file))
      as [st err] eqn:Hput.
    destruct err as [m|].
    + exists [PutIssued file; PutSettled file (Some m)]. simpl.
      repeat split; auto.
      * econstructor; [exact Hput|constructor].
      * exists [], file, files, m. auto.
    + match goal with
      | |- context [uploadEach put files ?s1] =>
          destruct (IH s1) as (tr & Htr & Hseq & Hfs & Hres)
      end.
      simpl in Htr, Hseq, Hfs.
      exists (PutIssued file :: PutSettled file None :: tr).
      split; [|split; [|split]].
      * rewrite Htr, <- app_assoc. reflexivity.
      * econstructor; [exact Hput|exact Hseq].
      * exact Hfs.
      * destruct (fst (uploadEach put files _)) as [e|].
        -- destruct Hres as (ok & bad & rest & m & -> & -> & Hi & Hr).
           exists (file :: ok), bad, rest, m. simpl. rewrite Hi, Hr. auto.
        -- destruct Hres as [Hi Hr]. simpl. now rewrite Hi, Hr.
Qed.

End PushFacts.

(** C4. When the answer to the prompt does not confirm, the session takes
    the cancelled exit whatever the plan: nothing is sent over the
    connection, the server is as it was, and the console shows the plan and
    the cancellation; the handler then closes the prompt and ends the
    client. *)
Theorem push_declined_uploads_nothing :
  forall (T : Type) (put : T -> path -> path -> T * option string)
         unicodeLower answer,
    askConfirmation unicodeLower answer = false ->
    (forall files s,
       exists s',
         confirmAndUpload put unicodeLower files answer s = (Cancelled, s') /\
         traffic s' = traffic s /\ remote s' = remote s /\
         out (sys s') = out (sys s) ++
                        [LogFilesToBeUploaded] ++ planned files ++ [LogCancelled])
    /\
    (forall cwd fuel remoteBase updateDir version s files w',
       listFiles fuel remoteBase (join (resolve cwd updateDir) version) (sys s)
       = (Ok files, w') ->
       exists s',
         onReady put unicodeLower cwd fuel remoteBase updateDir version answer s
         = (Cancelled, s') /\
         traffic s' = traffic s /\ remote s' = remote s /\
         rl_closed s' = true /\ client_ended s' = true).
Proof.
  intros T put uL answer Hno.
  assert (Hcore : forall files s,
    exists s',
      confirmAndUpload put uL files answer s = (Cancelled, s') /\
      traffic s' = traffic s /\ remote s' = remote s /\
      out (sys s') = out (sys s) ++
                     [LogFilesToBeUploaded] ++ planned files ++ [LogCancelled]).
  { intros files s. unfold confirmAndUpload. rewrite Hno.
    eexists. split; [reflexivity|].
    destruct (present_plan T files (say LogFilesToBeUploaded s))
      as [(H1 & H2 & _) H3].
    simpl. rewrite H1, H2, H3. simpl. repeat split; auto.
    now rewrite <- !app_assoc. }
  split; [exact Hcore|].
  intros cwd fuel remoteBase updateDir version s files w' Hlist.
  unfold onReady. rewrite Hlist.
  destruct (Hcore files s) as (s' & -> & H1 & H2 & _).
  eexists. split; [reflexivity|]. simpl. auto.
Qed.

Lemma push_declined_uploads_nothing_witness :
  exists s',
    onReady (storing []) keepCase ["home"] 2 ["www"] "u1" "new" (typed "n")
            (session0 disk_u1)
    = (Cancelled, s') /\
    traffic s' = [] /\ remote s' = [] /\
    rl_closed s' = true /\ client_ended s' = true.
Proof.
  apply (proj2 (push_declined_uploads_nothing (list (path * path)) (storing [])
                  keepCase (typed "n") eq_refl)
           ["home"] 2 ["www"] "u1" "new" (session0 disk_u1)
           [TransferItem ["home"; "u1"; "new"; "a.txt"] ["www"; "a.txt"]]
           (world0 disk_u1)).
  reflexivity.
Defined.

(** C5. When the answer confirms, the traffic of the session is a run of
    transfers each issued and settled before the next is issued, in the
    order of the plan. Either every item of the plan is transferred and
    the session completes, or the traffic stops at the first item the
    server rejects: the items after it are never issued, the session
    fails with that error, and the server stays in the state the
    transfers made up to then brought it to. *)
Theorem push_confirmed_uploads_in_order_until_failure :
  forall (T : Type) (put : T -> path -> path -> T * option string)
         unicodeLower answer files s,
    askConfirmation unicodeLower answer = true ->
    exists ph s' tr,
      confirmAndUpload put unicodeLower files answer s = (ph, s') /\
      traffic s' = traffic s ++ tr /\
      sequential put (remote s) tr (remote s') /\
      ((ph = Completed /\ issued tr = files /\ rejected tr = []) \/
       (ph = Failed /\
        exists ok bad rest m,
          files = ok ++ bad :: rest /\
          issued tr = ok ++ [bad] /\ rejected tr = [(bad, m)] /\
          exists o, out (sys s') = o ++ [ErrDuringUpload (PutFailure m)])).
Proof.
  intros T put uL answer files s Hyes.
  unfold confirmAndUpload. rewrite Hyes.
  destruct (present_plan T files (say LogFilesToBeUploaded s))
    as [(H1 & H2 & _) _].
  set (s0 := say LogConfirmedStarting _).
  destruct (uploadEach_spec T put files s0) as (tr & Htr & Hseq & _ & Hres).
  assert (Hr0 : remote s0 = remote s) by (simpl; now rewrite H1).
  assert (Ht0 : traffic s0 = traffic s) by (simpl; now rewrite H2).
  rewrite Hr0 in Hseq. rewrite Ht0 in Htr.
  destruct (uploadEach put files s0) as [[e|] s1] eqn:Hup; simpl in *.
  - destruct Hres as (ok & bad & rest & m & -> & Hf & Hi & Hr).
    eexists Failed, _, tr. split; [reflexivity|]. simpl.
    repeat split; auto. right. split; auto.
    exists ok, bad, rest, m. repeat split; eauto.
  - destruct Hres as [Hi Hr].
    eexists Completed, _, tr. split; [reflexivity|]. simpl.
    repeat split; auto.
Qed.

Lemma push_confirmed_uploads_in_order_until_failure_witness :
  exists ph s' tr,
    confirmAndUpload (storing [["www"; "b"]]) keepCase three_files (typed " Y ")
      (session0 disk_u1) = (ph, s') /\
    traffic s' = [] ++ tr /\
    sequential (storing [["www"; "b"]]) [] tr (remote s') /\
    ((ph = Completed /\ issued tr = three_files /\ rejected tr = []) \/
     (ph = Failed /\
      exists ok bad rest m,
        three_files = ok ++ bad :: rest /\
        issued tr = ok ++ [bad] /\ rejected tr = [(bad, m)] /\
        exists o, out (sys s') = o ++ [ErrDuringUpload (PutFailure m)])).
Proof.
  apply (push_confirmed_uploads_in_order_until_failure (list (path * path))
           (storing [["www"; "b"]]) keepCase (typed " Y ") three_files
           (session0 disk_u1)).
  reflexivity.
Defined.

(** C9. The prompt confirms exactly when the answer, trimmed and
    lower-cased, is the one letter y, that is, when the line is y or Y
    between blanks. Every other line, yes and the empty line among them,
    does not confirm, and the session is cancelled exactly when the prompt
    does not confirm. *)
Theorem confirmation_is_exactly_y :
  forall unicodeLower,
    no_y_outside_ascii unicodeLower ->
    forall answer,
      (askConfirmation unicodeLower answer = true <->
       toLowerCase unicodeLower (trim answer) = [0x79%N]) /\
      (askConfirmation unicodeLower answer = true <->
       exists l c r,
         answer = l ++ c :: r /\ (c = 0x79%N \/ c = 0x59%N) /\
         forallb isWhiteSpace l = true /\ forallb isWhiteSpace r = true) /\
      (forall (T : Type) (put : T -> path -> path -> T * option string) files s,
         fst (confirmAndUpload put unicodeLower files answer s) = Cancelled <->
         askConfirmation unicodeLower answer = false) /\
      askConfirmation unicodeLower (typed "yes") = false /\
      askConfirmation unicodeLower (typed "") = false /\
      askConfirmation unicodeLower (typed "t") = false.
Proof.
  intros uL Htable answer. split; [|split; [|split]].
  - unfold askConfirmation. apply jsstring_eqb_eq.
  - now apply askConfirmation_true.
  - intros T put files s. unfold confirmAndUpload.
    destruct (askConfirmation uL answer).
    + destruct (uploadEach put files _) as [[e|] s']; simpl;
        split; discriminate.
    + simpl. tauto.
  - repeat split; reflexivity.
Qed.

Lemma confirmation_is_exactly_y_witness :
  (askConfirmation keepCase (typed " Y ") = true <->
   toLowerCase keepCase (trim (typed " Y ")) = [0x79%N]) /\
  (askConfirmation keepCase (typed " Y ") = true <->
   exists l c r,
     typed " Y " = l ++ c :: r /\ (c = 0x79%N \/ c = 0x59%N) /\
     forallb isWhiteSpace l = true /\ forallb isWhiteSpace r = true) /\
  (forall (T : Type) (put : T -> path -> path -> T * option string) files s,
     fst (confirmAndUpload put keepCase files (typed " Y ") s) = Cancelled <->
     askConfirmation keepCase (typed " Y ") = false) /\
  askConfirmation keepCase (typed "yes") = false /\
  askConfirmation keepCase (typed "") = false /\
  askConfirmation keepCase (typed "t") = false.
Proof.
  apply (confirmation_is_exactly_y keepCase).
  intros before c after Hc. exists c, []. split; [reflexivity|].
  intros ->. revert Hc. apply N.lt_nge. reflexivity.
Defined.

(* ================================================================== *)
(** * [add]: where the copies go *)
(* ================================================================== *)

Lemma walk_plain segs : forall stack,
  forallb plain segs = true -> walk stack segs = rev segs ++ stack.
Proof.
  induction segs as [|seg segs IH]; intros stack; simpl; auto.
  unfold plain at 1. rewrite !andb_true_iff, !negb_true_iff.
  intros [[[H1 H2] H3] H]. rewrite H1, H2, H3. simpl.
  rewrite IH by assumption. now rewrite <- app_assoc.
Qed.

Lemma joinSegs_plain base segs :
  forallb plain segs = true -> joinSegs base segs = base ++ segs.
Proof.
  intros H. unfold joinSegs. rewrite walk_plain by assumption.
  now rewrite rev_app_distr, !rev_involutive.
Qed.

Lemma walk_keeps_plain segs : forall stack,
  forallb plain stack = true -> forallb plain (walk stack segs) = true.
Proof.
  induction segs as [|seg segs IH]; intros stack Hs; simpl; auto.
  destruct (seg =? "") eqn:H1; simpl; auto.
  destruct (seg =? ".") eqn:H2; simpl; auto.
  destruct (seg =? "..") eqn:H3.
  - apply IH. destruct stack; simpl in *; auto.
    now apply andb_true_iff in Hs as [_ Hs].
  - apply IH. simpl. unfold plain at 1. now rewrite H1, H2, H3.
Qed.

Lemma resolve_plain cwd s :
  forallb plain cwd = true -> forallb plain (resolve cwd s) = true.
Proof.
  intros H. unfold resolve, joinSegs.
  destruct (isAbsolute s); rewrite forallb_rev; apply walk_keeps_plain;
    auto. now rewrite forallb_rev.
Qed.

Lemma relative_under from rel : relative from (from ++ rel) = rel.
Proof.
  induction from as [|f from IH]; simpl.
  - now destruct rel.
  - now rewrite String.eqb_refl.
Qed.

Lemma relative_outside from : forall to,
  is_prefix from to = false -> exists r, relative from to = ".." :: r.
Proof.
  induction from as [|f from IH]; intros to; simpl; [discriminate|].
  destruct to as [|t to]; simpl; [eauto|].
  destruct (f =? t); simpl; eauto.
Qed.

Lemma joinSegs_dotdot base x r :
  joinSegs (base ++ [x]) (".." :: r) = joinSegs base r.
Proof. unfold joinSegs. rewrite rev_app_distr. reflexivity. Qed.

Lemma not_below_both base (x y : string) p :
  x <> y ->
  ~ (is_prefix (base ++ [x]) p = true /\ is_prefix (base ++ [y]) p = true).
Proof.
  intros Hxy [H1 H2].
  apply is_prefix_true in H1 as [r1 E1]. apply is_prefix_true in H2 as [r2 E2].
  rewrite E1, <- !app_assoc in E2. apply app_inv_head in E2.
  simpl in E2. congruence.
Qed.

(** C10 (amended). The destinations of [add] are the join of [root/old]
    and of [root/new] with the path of the file relative to the working
    directory. For a file below the working directory the two copies go to
    that relative path inside [root/old] and inside [root/new]. For a file
    outside the working directory the relative path begins with [..],
    which takes the [old] or [new] component away again: both copies are
    written to one and the same path, the join of [root] with the rest, so
    they never lie one in [old] and one in [new]. *)
Theorem add_destinations :
  forall cwd updateDir filePath,
    forallb plain cwd = true ->
    let root := resolve cwd updateDir in
    let file := resolve cwd filePath in
    add_destOldPath cwd updateDir filePath
      = joinSegs (root ++ ["old"]) (relative cwd file) /\
    add_destNewPath cwd updateDir filePath
      = joinSegs (root ++ ["new"]) (relative cwd file) /\
    (forall rel,
       file = cwd ++ rel ->
       relative cwd file = rel /\
       add_destOldPath cwd updateDir filePath = (root ++ ["old"]) ++ rel /\
       add_destNewPath cwd updateDir filePath = (root ++ ["new"]) ++ rel) /\
    (is_prefix cwd file = false ->
     exists rest,
       relative cwd file = ".." :: rest /\
       add_destOldPath cwd updateDir filePath = joinSegs root rest /\
       add_destNewPath cwd updateDir filePath = joinSegs root rest /\
       ~ (is_prefix (root ++ ["old"]) (add_destOldPath cwd updateDir filePath) = true /\
          is_prefix (root ++ ["new"]) (add_destNewPath cwd updateDir filePath) = true)).
Proof.
  intros cwd updateDir filePath Hcwd root file.
  unfold add_destOldPath, add_destNewPath, add_relPath.
  fold root. fold file.
  split; [reflexivity|]. split; [reflexivity|]. split.
  - intros rel E.
    assert (Hrel : forallb plain rel = true).
    { assert (H := resolve_plain cwd filePath Hcwd). fold file in H.
      rewrite E, forallb_app in H. now apply andb_true_iff in H as [_ H]. }
    rewrite E, relative_under. repeat split; now apply joinSegs_plain.
  - intros Hout. destruct (relative_outside cwd file Hout) as (rest & ->).
    exists rest. rewrite !joinSegs_dotdot. repeat split.
    apply not_below_both. discriminate.
Qed.

Lemma add_destinations_witness :
  (relative ["c"; "d"] (resolve ["c"; "d"] "site/a.html") = ["site"; "a.html"] /\
   add_destOldPath ["c"; "d"] "/u" "site/a.html"
     = (resolve ["c"; "d"] "/u" ++ ["old"]) ++ ["site"; "a.html"] /\
   add_destNewPath ["c"; "d"] "/u" "site/a.html"
     = (resolve ["c"; "d"] "/u" ++ ["new"]) ++ ["site"; "a.html"]) /\
  (exists rest,
     relative ["c"; "d"] (resolve ["c"; "d"] "../old/f.txt") = ".." :: rest /\
     add_destOldPath ["c"; "d"] "/u" "../old/f.txt"
       = joinSegs (resolve ["c"; "d"] "/u") rest /\
     add_destNewPath ["c"; "d"] "/u" "../old/f.txt"
       = joinSegs (resolve ["c"; "d"] "/u") rest /\
     ~ (is_prefix (resolve ["c"; "d"] "/u" ++ ["old"])
          (add_destOldPath ["c"; "d"] "/u" "../old/f.txt") = true /\
        is_prefix (resolve ["c"; "d"] "/u" ++ ["new"])
          (add_destNewPath ["c"; "d"] "/u" "../old/f.txt") = true)).
Proof.
  split.
  - apply (proj1 (proj2 (proj2 (add_destinations ["c"; "d"] "/u" "site/a.html"
                                  eq_refl)))).
    reflexivity.
  - apply (proj2 (proj2 (proj2 (add_destinations ["c"; "d"] "/u" "../old/f.txt"
                                  eq_refl)))).
    reflexivity.
Defined.

(** C10, as stated, fails for a file outside the working directory whose
    relative path re-enters a directory called [old]: the copy meant for
    [old] lands inside the [old] subtree, and so does the one meant for
    [new]. *)
Lemma add_outside_cwd_lands_in_old :
  is_prefix ["c"; "d"] (resolve ["c"; "d"] "/c/old/f.txt") = false /\
  add_relPath ["c"; "d"] "/c/old/f.txt" = [".."; "old"; "f.txt"] /\
  add_destOldPath ["c"; "d"] "/u" "/c/old/f.txt" = ["u"; "old"; "f.txt"] /\
  is_prefix (resolve ["c"; "d"] "/u" ++ ["old"])
            (add_destOldPath ["c"; "d"] "/u" "/c/old/f.txt") = true /\
  add_action ["c"; "d"] "/u" "/c/old/f.txt" (world0 disk_add)
  = (Ok tt,
     World (Dir [("c", Dir [("d", Dir []);
                            ("old", Dir [("f.txt", File (bytes "new page"))])]);
                 ("u", Dir [("old", Dir [("f.txt", File (bytes "new page"))]);
                            ("new", Dir [])])])
           [LogAdded "/c/old/f.txt" "/u"; OpenInVSCode ["u"; "old"; "f.txt"]]).
Proof. repeat split; reflexivity. Qed.

(* ================================================================== *)
(** * The scenario of the specification *)
(* ================================================================== *)

(** [create u1], [add u1 a.txt] with content x, the copy in [new] edited
    to y: [compare u1] prints one [differs] line, for [a.txt]. *)
Example scenario_create_add_edit_compare :
  let w1 := snd ((create_action ["home"] "u1" ;;;
                  add_action ["home"] "u1" "a.txt")
                   (world0 (Dir [("home", Dir [("a.txt", File (bytes "x"))])]))) in
  lookup ["home"; "u1"] (fs w1)
  = Some (Dir [("old", Dir [("a.txt", File (bytes "x"))]);
               ("new", Dir [("a.txt", File (bytes "x"))])]) /\
  forall t2,
    alter ["home"; "u1"; "new"; "a.txt"] (write_file (bytes "y")) (fs w1) = inr t2 ->
    compare_action ["home"] 2 "u1" (world0 t2)
    = (Ok tt, World t2 [LogDiffers "a.txt"]).
Proof.
  split; [reflexivity|].
  intros t2 H. vm_compute in H. injection H as <-. reflexivity.
Qed.

(* ================================================================== *)
(** * Commands that only read *)
(* ================================================================== *)

Lemma readonly_ret {A} (a : A) : readonly (ret a).
Proof. intros w r w' [= _ <-]. reflexivity. Qed.

Lemma readonly_timeout {A} : readonly (@timeout A).
Proof. intros w r w' [= _ <-]. reflexivity. Qed.

Lemma readonly_log e : readonly (log e).
Proof. intros w r w' [= _ <-]. reflexivity. Qed.

Lemma readonly_bind {A B} (m : M A) (k : A -> M B) :
  readonly m -> (forall a, readonly (k a)) -> readonly (bind m k).
Proof.
  intros Hm Hk w r w'. unfold bind.
  destruct (m w) as [[a|e|] w1] eqn:E.
  - intros H. rewrite (Hk a _ _ _ H). apply (Hm _ _ _ E).
  - intros [= _ <-]. apply (Hm _ _ _ E).
  - intros [= _ <-]. apply (Hm _ _ _ E).
Qed.

Lemma readonly_existsSync p : readonly (existsSync p).
Proof. intros w r w' [= _ <-]. reflexivity. Qed.

Lemma readonly_readdirSync p : readonly (readdirSync p).
Proof.
  intros w r w'. unfold readdirSync.
  destruct (lookup p (fs w)) as [[d|es]|]; intros [= _ <-]; reflexivity.
Qed.

Lemma readonly_readFileSync p : readonly (readFileSync p).
Proof.
  intros w r w'. unfold readFileSync.
  destruct (lookup p (fs w)) as [[d|es]|]; intros [= _ <-]; reflexivity.
Qed.

Lemma readonly_forEach {A} (l : list A) (f : A -> M unit) :
  (forall a, readonly (f a)) -> readonly (forEach l f).
Proof.
  intros Hf. induction l as [|a l IH]; simpl.
  - apply readonly_ret.
  - apply readonly_bind; auto.
Qed.

Lemma readonly_foldM {A B} (l : list A) (f : B -> A -> M B) :
  (forall b a, readonly (f b a)) -> forall acc, readonly (foldM l acc f).
Proof.
  intros Hf. induction l as [|a l IH]; intros acc; simpl.
  - apply readonly_ret.
  - apply readonly_bind; auto.
Qed.

Lemma readonly_if {A} (b : bool) (m1 m2 : M A) :
  readonly m1 -> readonly m2 -> readonly (if b then m1 else m2).
Proof. now destruct b. Qed.

Lemma readonly_compare k : forall a b, readonly (compareFilesRecursively k a b).
Proof.
  induction k as [|k IH]; intros a b; simpl.
  - apply readonly_timeout.
  - apply readonly_bind; [apply readonly_readdirSync|]. intros la.
    apply readonly_bind; [apply readonly_readdirSync|]. intros lb.
    apply readonly_bind.
    + apply readonly_forEach. intros e.
      repeat apply readonly_if; auto using readonly_log.
      apply readonly_bind; [apply readonly_readFileSync|]. intros x.
      apply readonly_bind; [apply readonly_readFileSync|]. intros y.
      apply readonly_if; auto using readonly_log, readonly_ret.
    + intros _. apply readonly_forEach. intros e.
      apply readonly_if; auto using readonly_log, readonly_ret.
Qed.

Lemma readonly_listFilesRecursively k :
  forall dir acc, readonly (listFilesRecursively k dir acc).
Proof.
  induction k as [|k IH]; intros dir acc; simpl.
  - apply readonly_timeout.
  - apply readonly_bind; [apply readonly_readdirSync|]. intros l.
    apply readonly_foldM. intros b e.
    apply readonly_if; auto using readonly_ret.
Qed.

Lemma readonly_traverse k remoteBase dir :
  forall cur acc, readonly (traverse k remoteBase dir cur acc).
Proof.
  induction k as [|k IH]; intros cur acc; simpl.
  - apply readonly_timeout.
  - apply readonly_bind; [apply readonly_readdirSync|]. intros l.
    apply readonly_foldM. intros b e.
    apply readonly_if; auto using readonly_ret.
Qed.

Lemma readonly_openFilesInVSCode k : forall dir, readonly (openFilesInVSCode k dir).
Proof.
  induction k as [|k IH]; intros dir; simpl.
  - apply readonly_timeout.
  - apply readonly_bind; [apply readonly_readdirSync|]. intros l.
    apply readonly_forEach. intros e.
    apply readonly_if; auto. apply readonly_log.
Qed.

(** X1. [compare], [list], [open] and the planning of [push] never change
    the file system, whether they end normally, throw (a clash of kinds, a
    missing directory) or run out of budget. *)
Theorem reading_commands_keep_the_file_system :
  forall cwd fuel,
    (forall updateDir, readonly (compare_action cwd fuel updateDir)) /\
    (forall updateDir version, readonly (list_action cwd fuel updateDir version)) /\
    (forall updateDir, readonly (open_action cwd fuel updateDir)) /\
    (forall remoteBase dir, readonly (listFiles fuel remoteBase dir)).
Proof.
  intros cwd fuel. repeat split.
  - intros updateDir. apply readonly_compare.
  - intros updateDir version. unfold list_action.
    apply readonly_bind; [apply readonly_existsSync_name|]. intros e.
    apply readonly_if; [apply readonly_log|].
    apply readonly_bind; [apply readonly_listFilesRecursively|]. intros files.
    apply readonly_if; [apply readonly_log|].
    apply readonly_bind; [apply readonly_log|]. intros _.
    apply readonly_forEach. intros f. apply readonly_log.
  - intros updateDir. unfold open_action.
    apply readonly_bind; [apply readonly_existsSync|]. intros e.
    apply readonly_if; [apply readonly_log|]. apply readonly_openFilesInVSCode.
  - intros remoteBase dir. apply readonly_traverse.
Qed.

(* ================================================================== *)
(** * The three listings: [list], the plan of [push], [open] *)
(* ================================================================== *)

Lemma NoDup_map_cons (n : string) (l : list path) :
  NoDup l -> NoDup (map (cons n) l).
Proof.
  induction 1 as [|r l Hr Hl IH]; simpl; constructor; auto.
  rewrite in_map_iff. intros (r' & [= ->] & Hin). contradiction.
Qed.

Lemma In_files_of_Dir p es :
  In p (files_of (Dir es)) <->
  exists n c r, In (n, c) es /\ p = n :: r /\ In r (files_of c).
Proof.
  simpl. rewrite in_flat_map. split.
  - intros ([n c] & Hin & Hp). simpl in Hp.
    apply in_map_iff in Hp as (r & <- & Hr). now exists n, c, r.
  - intros (n & c & r & Hin & -> & Hr). exists (n, c). split; auto.
    simpl. now apply in_map.
Qed.

(** The listed paths are exactly the paths of the regular files. *)
Lemma files_of_lookup k : forall t p,
  height t < k -> wf t = true ->
  (In p (files_of t) <-> exists d, lookup p t = Some (File d)).
Proof.
  induction k as [|k IH]; intros t p Hh Hwf; [inversion Hh|].
  destruct t as [d|es].
  - simpl. split.
    + intros [<-|[]]. now exists d.
    + intros (d' & H). destruct p; [now left|discriminate].
  - destruct (wf_Dir _ Hwf) as [Hnd Hwfc].
    rewrite In_files_of_Dir. split.
    + intros (n & c & r & Hin & -> & Hr).
      apply IH in Hr; [|apply height_child in Hin; lia|apply (Hwfc _ _ Hin)].
      destruct Hr as (d & Hd). exists d. simpl.
      now rewrite (In_child _ _ _ Hnd Hin).
    + intros (d & H). destruct p as [|n r]; [discriminate|]. simpl in H.
      destruct (child n es) as [c|] eqn:Hc; [|discriminate].
      assert (Hin := child_In _ _ _ Hc).
      exists n, c, r. repeat split; auto.
      apply IH; [apply height_child in Hin; lia|apply (Hwfc _ _ Hin)|eauto].
Qed.

Lemma files_of_NoDup k : forall t,
  height t < k -> wf t = true -> NoDup (files_of t).
Proof.
  induction k as [|k IH]; intros t Hh Hwf; [inversion Hh|].
  destruct t as [d|es]; simpl.
  - repeat constructor. intros [].
  - destruct (wf_Dir _ Hwf) as [Hnd Hwfc].
    assert (Hsub : forall n c, In (n, c) es -> NoDup (files_of c)).
    { intros n c Hin. apply IH; [apply height_child in Hin; lia|apply (Hwfc _ _ Hin)]. }
    clear Hh Hwf Hwfc IH.
    induction es as [|[n c] es IHes]; simpl; [constructor|].
    inversion Hnd; subst.
    apply NoDup_app.
    + apply NoDup_map_cons. apply (Hsub n c). now left.
    + apply IHes; auto. intros m c' Hm. apply (Hsub m c'). now right.
    + intros p Hp Hq. apply in_map_iff in Hp as (r & <- & _).
      apply in_flat_map in Hq as ([m c'] & Hm & Hq). simpl in Hq.
      apply in_map_iff in Hq as (r' & [= -> _] & _).
      apply H1. change n with (fst (n, c')). now apply in_map.
Qed.

Lemma app_cons_path (dir : path) n (l : list path) :
  map (app (dir ++ [n])) l = map (app dir) (map (cons n) l).
Proof.
  rewrite map_map. apply map_ext. intros r. now rewrite <- app_assoc.
Qed.

Lemma listFilesRecursively_spec k : forall t dir acc w,
  height t < k -> wf t = true -> isDir t = true ->
  lookup dir (fs w) = Some t ->
  listFilesRecursively k dir acc w
  = (Ok (acc ++ map (app dir) (files_of t)), w).
Proof.
  induction k as [|k IH]; intros t dir acc w Hh Hwf Hd Hdir; [inversion Hh|].
  destruct t as [d|es]; [discriminate|].
  destruct (wf_Dir _ Hwf) as [Hnd Hwfc].
  simpl listFilesRecursively.
  rewrite (bind_Ok _ _ _ _ _ (readdirSync_Dir dir w es Hdir)).
  assert (Hall : forall l acc, incl l es ->
    foldM (dirents l) acc (fun fileList entry =>
        if isDirectory entry
        then listFilesRecursively k (dir ++ [name entry]) fileList
        else ret (fileList ++ [dir ++ [name entry]])) w
    = (Ok (acc ++ map (app dir) (files_of (Dir l))), w)).
  { induction l as [|[n c] l IHl]; intros acc' Hincl.
    - simpl. now rewrite app_nil_r.
    - assert (Hin : In (n, c) es) by (apply Hincl; now left).
      assert (Hl : incl l es) by (intros x Hx; apply Hincl; now right).
      simpl dirents. simpl foldM. cbn [name isDirectory].
      change (files_of (Dir ((n, c) :: l)))
        with (map (cons n) (files_of c) ++ files_of (Dir l)).
      rewrite map_app, app_assoc, <- app_cons_path.
      destruct c as [d|sub]; cbn [isDir].
      + rewrite (bind_Ok _ _ w (acc' ++ [dir ++ [n]]) w) by reflexivity.
        rewrite (IHl _ Hl). simpl. now rewrite app_nil_r.
      + rewrite (bind_Ok _ _ w (acc' ++ map (app (dir ++ [n])) (files_of (Dir sub))) w).
        * now rewrite (IHl _ Hl).
        * apply IH; auto.
          -- apply height_child in Hin. lia.
          -- apply (Hwfc _ _ Hin).
          -- rewrite (lookup_snoc _ _ _ _ Hdir). now apply In_child. }
  apply Hall. apply incl_refl.
Qed.

Lemma traverse_spec k remoteBase dir : forall t cur acc w,
  height t < k -> wf t = true -> isDir t = true ->
  lookup cur (fs w) = Some t ->
  traverse k remoteBase dir cur acc w
  = (Ok (acc ++ map (fun p => TransferItem p (joinSegs remoteBase (relative dir p)))
                    (map (app cur) (files_of t))), w).
Proof.
  induction k as [|k IH]; intros t cur acc w Hh Hwf Hd Hcur; [inversion Hh|].
  destruct t as [d|es]; [discriminate|].
  destruct (wf_Dir _ Hwf) as [Hnd Hwfc].
  simpl traverse.
  rewrite (bind_Ok _ _ _ _ _ (readdirSync_Dir cur w es Hcur)).
  set (item := fun p => TransferItem p (joinSegs remoteBase (relative dir p))).
  assert (Hall : forall l acc, incl l es ->
    foldM (dirents l) acc (fun filesToUpload file =>
        if isDirectory file
        then traverse k remoteBase dir (cur ++ [name file]) filesToUpload
        else ret (filesToUpload ++ [item (cur ++ [name file])])) w
    = (Ok (acc ++ map item (map (app cur) (files_of (Dir l)))), w)).
  { induction l as [|[n c] l IHl]; intros acc' Hincl.
    - simpl. now rewrite app_nil_r.
    - assert (Hin : In (n, c) es) by (apply Hincl; now left).
      assert (Hl : incl l es) by (intros x Hx; apply Hincl; now right).
      simpl dirents. simpl foldM. cbn [name isDirectory].
      change (files_of (Dir ((n, c) :: l)))
        with (map (cons n) (files_of c) ++ files_of (Dir l)).
      rewrite !map_app, app_assoc, <- app_cons_path.
      destruct c as [d|sub]; cbn [isDir].
      + rewrite (bind_Ok _ _ w (acc' ++ [item (cur ++ [n])]) w) by reflexivity.
        rewrite (IHl _ Hl). simpl. now rewrite app_nil_r.
      + rewrite (bind_Ok _ _ w
                   (acc' ++ map item (map (app (cur ++ [n])) (files_of (Dir sub)))) w).
        * now rewrite (IHl _ Hl).
        * apply IH; auto.
          -- apply height_child in Hin. lia.
          -- apply (Hwfc _ _ Hin).
          -- rewrite (lookup_snoc _ _ _ _ Hcur). now apply In_child. }
  apply Hall. apply incl_refl.
Qed.

Lemma forEach_log {A} (g : A -> event) (l : list A) : forall w,
  forEach l (fun a => log (g a)) w = (Ok tt, World (fs w) (out w ++ map g l)).
Proof.
  induction l as [|a l IH]; intros w; simpl.
  - rewrite app_nil_r. now destruct w.
  - unfold bind, log at 1. rewrite IH. simpl. now rewrite <- app_assoc.
Qed.

Lemma openFilesInVSCode_spec k : forall t dir w,
  height t < k -> wf t = true -> isDir t = true ->
  lookup dir (fs w) = Some t ->
  openFilesInVSCode k dir w
  = (Ok tt, World (fs w) (out w ++ map OpenInVSCode (map (app dir) (files_of t)))).
Proof.
  induction k as [|k IH]; intros t dir w Hh Hwf Hd Hdir; [inversion Hh|].
  destruct t as [d|es]; [discriminate|].
  destruct (wf_Dir _ Hwf) as [Hnd Hwfc].
  simpl openFilesInVSCode.
  rewrite (bind_Ok _ _ _ _ _ (readdirSync_Dir dir w es Hdir)).
  assert (Hall : forall l w1, incl l es -> fs w1 = fs w ->
    forEach (dirents l) (fun entry =>
        if isDirectory entry
        then openFilesInVSCode k (dir ++ [name entry])
        else openInVSCode (dir ++ [name entry])) w1
    = (Ok tt, World (fs w) (out w1 ++ map OpenInVSCode
                                      (map (app dir) (files_of (Dir l)))))).
  { induction l as [|[n c] l IHl]; intros w1 Hincl Hw1.
    - simpl. rewrite app_nil_r, <- Hw1. now destruct w1.
    - assert (Hin : In (n, c) es) by (apply Hincl; now left).
      assert (Hl : incl l es) by (intros x Hx; apply Hincl; now right).
      simpl dirents. simpl forEach. cbn [name isDirectory].
      change (files_of (Dir ((n, c) :: l)))
        with (map (cons n) (files_of c) ++ files_of (Dir l)).
      rewrite !map_app, app_assoc, <- app_cons_path.
      destruct c as [d|sub]; cbn [isDir].
      + rewrite (bind_Ok _ _ w1 tt
                   (World (fs w1) (out w1 ++ [OpenInVSCode (dir ++ [n])])))
          by reflexivity.
        rewrite (IHl (World (fs w1) (out w1 ++ [OpenInVSCode (dir ++ [n])])) Hl Hw1).
        simpl. now rewrite <- !app_assoc.
      + rewrite (bind_Ok _ _ w1 tt
                   (World (fs w1) (out w1 ++ map OpenInVSCode
                      (map (app (dir ++ [n])) (files_of (Dir sub)))))).
        * rewrite (IHl (World (fs w1) _) Hl Hw1). simpl.
          now rewrite <- !app_assoc.
        * apply IH; auto.
          -- apply height_child in Hin. lia.
          -- apply (Hwfc _ _ Hin).
          -- rewrite Hw1, (lookup_snoc _ _ _ _ Hdir). now apply In_child. }
  apply Hall; auto. apply incl_refl.
Qed.

Lemma listing_rels t dir fuel tfs :
  lookup dir tfs = Some t -> wf t = true -> height t < fuel ->
  NoDup (files_of t) /\
  forall r, In r (files_of t) <-> exists d, lookup (dir ++ r) tfs = Some (File d).
Proof.
  intros Hdir Hwf Hh. split.
  - now apply (files_of_NoDup fuel).
  - intros r. rewrite (files_of_lookup fuel t r Hh Hwf).
    now rewrite lookup_app, Hdir.
Qed.

(** X2. When the version directory is a well-formed directory, [list]
    ends without error and prints every regular file below it exactly
    once, with its full path, in depth-first order, and no directory; when
    there is no regular file below it, it prints the no-files line. *)
Theorem list_prints_each_file_once :
  forall cwd fuel updateDir version w t,
    let versionDir := join (resolve cwd updateDir) version in
    lookup versionDir (fs w) = Some t -> isDir t = true -> wf t = true ->
    height t < fuel ->
    exists rels,
      NoDup rels /\
      (forall r, In r rels <->
                 exists d, lookup (versionDir ++ r) (fs w) = Some (File d)) /\
      list_action cwd fuel updateDir version w
      = (Ok tt,
         World (fs w)
               (out w ++ match rels with
                         | [] => [LogNoFiles version]
                         | _ => LogFilesIn version
                                :: map (fun r => LogPath (versionDir ++ r)) rels
                         end)).
Proof.
  intros cwd fuel updateDir version w t versionDir Hdir Hd Hwf Hh.
  destruct (listing_rels t versionDir fuel (fs w) Hdir Hwf Hh) as [Hnd Hin].
  exists (files_of t). split; [exact Hnd|]. split; [exact Hin|].
  unfold list_action.
  rewrite (bind_Ok _ _ _ _ _
             (existsSync_name_dir
                (joinName (resolve cwd updateDir) [] version) w t Hdir Hd)).
  cbn [negb].
  change (components (joinName (resolve cwd updateDir) [] version))
    with versionDir.
  rewrite (bind_Ok _ _ _ _ _
             (listFilesRecursively_spec fuel t versionDir [] w Hh Hwf Hd Hdir)).
  destruct (files_of t) as [|r rels]; [reflexivity|].
  cbn [app map List.length Nat.eqb].
  rewrite (bind_Ok _ _ w tt (World (fs w) (out w ++ [LogFilesIn version])))
    by reflexivity.
  rewrite (forEach_log LogPath). simpl.
  rewrite <- app_assoc. simpl. now rewrite map_map.
Qed.

Lemma list_prints_each_file_once_witness :
  exists rels,
    NoDup rels /\
    (forall r, In r rels <->
               exists d, lookup (join (resolve [] "srv") "." ++ r) disk_site
                         = Some (File d)) /\
    list_action [] 3 "srv" "." (world0 disk_site)
    = (Ok tt,
       World disk_site
             ([] ++ match rels with
                    | [] => [LogNoFiles "."]
                    | _ => LogFilesIn "."
                           :: map (fun r => LogPath (join (resolve [] "srv") "." ++ r)) rels
                    end)).
Proof.
  apply (list_prints_each_file_once [] 3 "srv" "." (world0 disk_site) site);
    try reflexivity.
  vm_compute. lia.
Defined.

(** X3. The plan of [push] holds every regular file below the version
    directory exactly once, in the order [listFilesRecursively] lists
    them: the local path is the file's path, the remote path is the remote
    base directory joined with the file's path relative to the version
    directory. *)
Theorem plan_mirrors_the_listing :
  forall fuel remoteBase dir w t,
    lookup dir (fs w) = Some t -> isDir t = true -> wf t = true ->
    height t < fuel ->
    exists rels,
      NoDup rels /\
      (forall r, In r rels <-> exists d, lookup (dir ++ r) (fs w) = Some (File d)) /\
      listFiles fuel remoteBase dir w
      = (Ok (map (fun r => TransferItem (dir ++ r) (joinSegs remoteBase r)) rels), w) /\
      listFilesRecursively fuel dir [] w = (Ok (map (app dir) rels), w).
Proof.
  intros fuel remoteBase dir w t Hdir Hd Hwf Hh.
  destruct (listing_rels t dir fuel (fs w) Hdir Hwf Hh) as [Hnd Hin].
  exists (files_of t). split; [exact Hnd|]. split; [exact Hin|]. split.
  - unfold listFiles.
    rewrite (traverse_spec fuel remoteBase dir t dir [] w Hh Hwf Hd Hdir).
    simpl app. rewrite map_map. do 2 f_equal.
    apply map_ext. intros r. now rewrite relative_under.
  - apply (listFilesRecursively_spec fuel t dir [] w Hh Hwf Hd Hdir).
Qed.

Lemma plan_mirrors_the_listing_witness :
  exists rels,
    NoDup rels /\
    (forall r, In r rels <-> exists d, lookup (["srv"] ++ r) disk_site = Some (File d)) /\
    listFiles 3 ["var"; "www"] ["srv"] (world0 disk_site)
    = (Ok (map (fun r => TransferItem (["srv"] ++ r) (joinSegs ["var"; "www"] r)) rels),
       world0 disk_site) /\
    listFilesRecursively 3 ["srv"] [] (world0 disk_site)
    = (Ok (map (app ["srv"]) rels), world0 disk_site).
Proof.
  apply (plan_mirrors_the_listing 3 ["var"; "www"] ["srv"] (world0 disk_site) site);
    try reflexivity.
  vm_compute. lia.
Defined.

(** X4. [open] reports a missing [new] directory and opens nothing;
    otherwise it hands every regular file below [new] to the editor
    exactly once, in depth-first order, and prints nothing else. *)
Theorem open_opens_each_file_of_new :
  forall cwd fuel updateDir w,
    let newDir := resolve cwd updateDir ++ ["new"] in
    (lookup newDir (fs w) = None ->
     open_action cwd fuel updateDir w
     = (Ok tt, World (fs w) (out w ++ [ErrNewDirMissing updateDir])))
    /\
    (forall t,
       lookup newDir (fs w) = Some t -> isDir t = true -> wf t = true ->
       height t < fuel ->
       exists rels,
         NoDup rels /\
         (forall r, In r rels <->
                    exists d, lookup (newDir ++ r) (fs w) = Some (File d)) /\
         open_action cwd fuel updateDir w
         = (Ok tt,
            World (fs w)
                  (out w ++ map (fun r => OpenInVSCode (newDir ++ r)) rels))).
Proof.
  intros cwd fuel updateDir w newDir. split.
  - intros H. unfold open_action. fold newDir.
    now rewrite (bind_Ok _ _ _ _ _ (existsSync_None newDir w H)).
  - intros t Hdir Hd Hwf Hh.
    destruct (listing_rels t newDir fuel (fs w) Hdir Hwf Hh) as [Hnd Hin].
    exists (files_of t). split; [exact Hnd|]. split; [exact Hin|].
    unfold open_action. fold newDir.
    rewrite (bind_Ok _ _ _ _ _ (existsSync_Some newDir w _ Hdir)).
    cbn [negb].
    rewrite (openFilesInVSCode_spec fuel t newDir w Hh Hwf Hd Hdir).
    now rewrite map_map.
Qed.

Lemma open_opens_each_file_of_new_witness :
  open_action ["home"] 2 "u2" (world0 disk_u1)
  = (Ok tt, World disk_u1 ([] ++ [ErrNewDirMissing "u2"]))
  /\
  exists rels,
    NoDup rels /\
    (forall r, In r rels <->
               exists d, lookup ((resolve ["home"] "u1" ++ ["new"]) ++ r) disk_u1
                         = Some (File d)) /\
    open_action ["home"] 2 "u1" (world0 disk_u1)
    = (Ok tt,
       World disk_u1
             ([] ++ map (fun r => OpenInVSCode ((resolve ["home"] "u1" ++ ["new"]) ++ r))
                        rels)).
Proof.
  split.
  - apply (proj1 (open_opens_each_file_of_new ["home"] 2 "u2" (world0 disk_u1))).
    reflexivity.
  - apply (proj2 (open_opens_each_file_of_new ["home"] 2 "u1" (world0 disk_u1))
             (Dir [("a.txt", File (bytes "y"))])); try reflexivity.
    vm_compute. lia.
Defined.

(* ================================================================== *)
(** * Every line of [compareFilesRecursively] *)
(* ================================================================== *)

Lemma only_in_shift t a b h r n c :
  only_in t (a ++ [h]) (b ++ [h]) r n c <-> only_in t a b (h :: r) n c.
Proof.
  unfold only_in. rewrite <- !app_assoc. simpl. tauto.
Qed.

Lemma lookup_head_exists b h tl t c :
  lookup (b ++ h :: tl) t = Some c -> exists c', lookup (b ++ [h]) t = Some c'.
Proof.
  change (h :: tl) with ([h] ++ tl). rewrite app_assoc, lookup_app.
  destruct (lookup (b ++ [h]) t); [eauto|discriminate].
Qed.

Lemma snoc_head (r : path) (n h : string) tl :
  r ++ [n] = h :: tl -> (r = [] /\ n = h /\ tl = []) \/ exists r', r = h :: r'.
Proof.
  destruct r as [|h' r]; simpl; intros [= -> <-]; eauto.
Qed.

Ltac cases_event e q nm :=
  destruct e as [?|? ?|?|?|?|?|?|?|q|q|nm|q|?|?|? ?|?|?| | | |? ?| |? ?| | |?|?| | ].

(** Through a pair of directories: what is reported below the pair. *)
Lemma through_dirs t a b h ea eb e :
  lookup (a ++ [h]) t = Some (Dir ea) ->
  lookup (b ++ [h]) t = Some (Dir eb) ->
  reported t (a ++ [h]) (b ++ [h]) e <-> through t a b h e.
Proof.
  intros Ha Hb.
  cases_event e q nm; simpl; try tauto.
  - split.
    + intros (r & n & d & -> & H). apply only_in_shift in H.
      exists (h :: r), n, d. rewrite <- app_assoc. simpl. eauto.
    + intros (r & n & d & -> & H & tl & E).
      apply snoc_head in E as [(-> & -> & _)|(r' & ->)].
      * destruct H as (_ & _ & H). simpl in H. congruence.
      * exists r', n, d. rewrite <- app_assoc. simpl.
        split; auto. now apply only_in_shift.
  - split.
    + intros (r & n & d & -> & H). apply only_in_shift in H.
      exists (h :: r), n, d. rewrite <- app_assoc. simpl. eauto.
    + intros (r & n & d & -> & H & tl & E).
      apply snoc_head in E as [(-> & -> & _)|(r' & ->)].
      * destruct H as (_ & _ & H). simpl in H. congruence.
      * exists r', n, d. rewrite <- app_assoc. simpl.
        split; auto. now apply only_in_shift.
  - symmetry. apply (differs_through_dirs t a b h nm ea Ha).
  - split.
    + intros (r & n & c & -> & H). apply only_in_shift in H.
      exists (h :: r), n, c. rewrite <- app_assoc. simpl. eauto.
    + intros (r & n & c & -> & H & tl & ->).
      exists tl, n, c. rewrite <- app_assoc. simpl.
      split; auto. now apply only_in_shift.
Qed.

(** Through an entry that [new] lacks: the one line that says so. *)
Lemma through_absent t a b h c eb e :
  lookup (a ++ [h]) t = Some c ->
  lookup b t = Some (Dir eb) ->
  lookup (b ++ [h]) t = None ->
  through t a b h e <-> e = missing_in_new c (a ++ [h]).
Proof.
  intros Ha Hb Hn.
  assert (Hdeep : forall r' s c', lookup (b ++ (h :: r') ++ s) t = Some c' -> False).
  { intros r' s c' H. simpl in H. apply lookup_head_exists in H as (c'' & H).
    congruence. }
  assert (Hback : only_in t a b [] h c).
  { unfold only_in. simpl. rewrite app_nil_r. eauto. }
  unfold missing_in_new.
  cases_event e q nm; simpl;
    try (split; [contradiction | destruct (isDir c); discriminate]).
  - split.
    + intros (r & n & es & -> & H & tl & E).
      apply snoc_head in E as [(-> & -> & _)|(r' & ->)].
      * destruct H as (H & _). simpl in H. rewrite Ha in H.
        injection H as ->. reflexivity.
      * destruct H as (_ & (es' & H) & _). exfalso.
        apply (Hdeep r' [] (Dir es')). now rewrite app_nil_r.
    + destruct c as [d|es]; simpl; [discriminate|]. intros [= ->].
      exists [], h, es. simpl. eauto.
  - split.
    + intros (r & n & d & -> & H & tl & E).
      apply snoc_head in E as [(-> & -> & _)|(r' & ->)].
      * destruct H as (H & _). simpl in H. rewrite Ha in H.
        injection H as ->. reflexivity.
      * destruct H as (_ & (es' & H) & _). exfalso.
        apply (Hdeep r' [] (Dir es')). now rewrite app_nil_r.
    + destruct c as [d|es]; simpl; [|discriminate]. intros [= ->].
      exists [], h, d. simpl. eauto.
  - split.
    + intros Hd. apply differs_through_child in Hd as (ca & cb & _ & Hcb).
      congruence.
    + destruct (isDir c); discriminate.
  - split.
    + intros (r & n & c' & -> & H & tl & ->).
      destruct H as (H & _). exfalso. apply (Hdeep tl [n] c' H).
    + destruct (isDir c); discriminate.
Qed.

(** Through a pair of regular files: the [differs] line, when the
    decoded contents differ. *)
Lemma through_files t a b h x y e :
  lookup (a ++ [h]) t = Some (File x) ->
  lookup (b ++ [h]) t = Some (File y) ->
  through t a b h e <-> e = LogDiffers h /\ toString x <> toString y.
Proof.
  intros Ha Hb.
  assert (Hdeep : forall (z : path) d r' s c',
            lookup (z ++ [h]) t = Some (File d) ->
            lookup (z ++ (h :: r') ++ s) t = Some c' -> r' ++ s <> [] -> False).
  { intros z d r' s c' Hz H Hne.
    change (z ++ (h :: r') ++ s) with (z ++ [h] ++ (r' ++ s)) in H.
    rewrite app_assoc, (lookup_below_file _ _ _ d Hz Hne) in H. discriminate. }
  cases_event e q nm; simpl;
    try (split; [contradiction | intros [E _]; discriminate]).
  - split; [|intros [E _]; discriminate].
    intros (r & n & es & -> & H & tl & E).
    apply snoc_head in E as [(-> & -> & _)|(r' & ->)].
    + destruct H as (_ & _ & H). simpl in H. congruence.
    + destruct H as (H & _). exfalso.
      apply (Hdeep a x r' [n] _ Ha H). now destruct r'.
  - split; [|intros [E _]; discriminate].
    intros (r & n & d & -> & H & tl & E).
    apply snoc_head in E as [(-> & -> & _)|(r' & ->)].
    + destruct H as (_ & _ & H). simpl in H. congruence.
    + destruct H as (H & _). exfalso.
      apply (Hdeep a x r' [n] _ Ha H). now destruct r'.
  - rewrite (differs_through_file t a b h nm x y Ha Hb). split.
    + now intros [-> H].
    + now intros [[= ->] H].
  - split; [|intros [E _]; discriminate].
    intros (r & n & c' & -> & H & tl & ->).
    destruct H as (H & _). exfalso.
    apply (Hdeep b y tl [n] _ Hb H). now destruct tl.
Qed.

(** What is reported for a pair of directories: what is reported through
    an entry of [old], or an entry of [new] that [old] lacks. *)
Lemma reported_split t a b ea eb e :
  lookup a t = Some (Dir ea) ->
  lookup b t = Some (Dir eb) ->
  reported t a b e <->
  (exists h c, child h ea = Some c /\ through t a b h e) \/
  (exists h c, child h eb = Some c /\ child h ea = None /\
               e = LogMissingInOld (b ++ [h])).
Proof.
  intros Ha Hb.
  assert (Hhead : forall r n c, lookup (a ++ r ++ [n]) t = Some c ->
            exists h tl c', r ++ [n] = h :: tl /\ child h ea = Some c').
  { intros r n c H. destruct (r ++ [n]) as [|h tl] eqn:E; [now destruct r|].
    apply lookup_head_exists in H as (c' & H).
    rewrite (lookup_snoc _ _ _ _ Ha) in H. eauto. }
  cases_event e q nm; simpl;
    try (split; [contradiction
                | intros [(h & c & _ & [])|(h & c & _ & _ & E)]; discriminate]).
  - split.
    + intros (r & n & es & -> & H). left.
      destruct (Hhead r n _ (proj1 H)) as (h & tl & c' & E & Hc).
      exists h, c'. split; auto. exists r, n, es. eauto.
    + intros [(h & c & _ & r & n & es & -> & H & _)|(h & c & _ & _ & E)];
        [eauto|discriminate].
  - split.
    + intros (r & n & d & -> & H). left.
      destruct (Hhead r n _ (proj1 H)) as (h & tl & c' & E & Hc).
      exists h, c'. split; auto. exists r, n, d. eauto.
    + intros [(h & c & _ & r & n & d & -> & H & _)|(h & c & _ & _ & E)];
        [eauto|discriminate].
  - split.
    + intros (p & x & y & Hx & Hy & Hne). left.
      destruct (Hhead p nm _ Hx) as (h & tl & c' & E & Hc).
      exists h, c'. split; auto. exists p, x, y. eauto.
    + intros [(h & c & _ & p & x & y & _ & Hx & Hy & Hne)|(h & c & _ & _ & E)];
        [now exists p, x, y|discriminate].
  - split.
    + intros (r & n & c & -> & H).
      destruct r as [|h tl].
      * right. destruct H as (H1 & _ & H3). simpl in H1, H3.
        rewrite (lookup_snoc _ _ _ _ Hb) in H1.
        rewrite (lookup_snoc _ _ _ _ Ha) in H3. exists n, c. auto.
      * left. destruct H as (H1 & (es & H2) & H3).
        destruct (lookup_head_exists _ _ _ _ _ H2) as (c' & Hc').
        rewrite (lookup_snoc _ _ _ _ Ha) in Hc'.
        exists h, c'. split; auto. exists (h :: tl), n, c.
        unfold only_in. eauto 8.
    + intros [(h & c & _ & r & n & c' & -> & H & _)|(h & c & Hc & Hn & [= ->])].
      * eauto.
      * exists [], h, c. simpl. split; auto. unfold only_in. simpl.
        rewrite app_nil_r, (lookup_snoc _ _ _ _ Hb), (lookup_snoc _ _ _ _ Ha).
        eauto.
Qed.

(** A loop whose every round ends without error, keeps the file system
    and prints the lines [C] allows for its element. *)
Lemma forEach_reports {A} (l : list A) (f : A -> M unit) (t : node)
  (C : A -> event -> Prop) :
  (forall a w1, In a l -> fs w1 = t ->
     exists evs, f a w1 = (Ok tt, World t (out w1 ++ evs)) /\
                 forall e, In e evs <-> C a e) ->
  forall w, fs w = t ->
    exists evs, forEach l f w = (Ok tt, World t (out w ++ evs)) /\
                forall e, In e evs <-> exists a, In a l /\ C a e.
Proof.
  induction l as [|a l IH]; intros Hf w Hw; simpl.
  - exists []. rewrite app_nil_r, <- Hw. split; [now destruct w|].
    intros e. split; [contradiction|]. now intros (a & [] & _).
  - destruct (Hf a w (or_introl eq_refl) Hw) as (e1 & H1 & Hc1).
    destruct (IH (fun b u Hb => Hf b u (or_intror Hb))
                 (World t (out w ++ e1)) eq_refl) as (e2 & H2 & Hc2).
    exists (e1 ++ e2). rewrite (bind_Ok _ _ _ _ _ H1), H2. simpl.
    rewrite app_assoc. split; auto.
    intros e. rewrite in_app_iff, Hc1, Hc2. split.
    + intros [H|(b & Hb & H)]; eauto.
    + intros (b & [<-|Hb] & H); eauto.
Qed.

Lemma compatible_sym k : forall told tnew,
  height told < k -> wf told = true -> wf tnew = true ->
  compatible told tnew = true -> compatible tnew told = true.
Proof.
  induction k as [|k IH]; intros told tnew Hh Hwo Hwn Hc; [inversion Hh|].
  destruct told as [x|eo]; destruct tnew as [y|en]; try discriminate; auto.
  simpl in Hc. simpl. rewrite forallb_forall in *.
  intros [n c'] Hin. simpl.
  destruct (child n eo) as [c|] eqn:Hco; auto.
  assert (Hino := child_In _ _ _ Hco).
  specialize (Hc _ Hino). simpl in Hc.
  destruct (wf_Dir _ Hwo) as [_ Hwoc]. destruct (wf_Dir _ Hwn) as [Hndn Hwnc].
  rewrite (In_child _ _ _ Hndn Hin) in Hc.
  apply IH; auto.
  - apply height_child in Hino. lia.
  - apply (Hwoc _ _ Hino).
  - apply (Hwnc _ _ Hin).
Qed.

Lemma compare_events k : forall told tnew a b w,
  height told < k -> wf told = true -> wf tnew = true ->
  isDir told = true -> compatible told tnew = true ->
  lookup a (fs w) = Some told -> lookup b (fs w) = Some tnew ->
  exists evs,
    compareFilesRecursively k a b w = (Ok tt, World (fs w) (out w ++ evs)) /\
    forall e, In e evs <-> reported (fs w) a b e.
Proof.
  induction k as [|k IHk]; intros told tnew a b w Hh Hwo Hwn Hd Hc Ha Hb;
    [inversion Hh|].
  destruct told as [x|ea]; [discriminate|].
  destruct tnew as [y|eb]; [discriminate|].
  destruct (wf_Dir _ Hwo) as [Hndo Hwoc]. destruct (wf_Dir _ Hwn) as [Hndn Hwnc].
  simpl in Hc. rewrite forallb_forall in Hc.
  set (t := fs w) in *.
  simpl compareFilesRecursively.
  rewrite (bind_Ok _ _ _ _ _ (readdirSync_Dir a w ea Ha)).
  rewrite (bind_Ok _ _ _ _ _ (readdirSync_Dir b w eb Hb)).
  cbv zeta.
  match goal with
  | |- exists evs, bind (forEach ?l ?f) _ _ = _ /\ _ =>
      destruct (forEach_reports l f t (fun ent e => through t a b (name ent) e))
        with (w := w) as (e1 & H1 & Hc1); auto
  end.
  { intros ent u Hent Hu. apply In_dirents in Hent as (h & c & Hin & ->).
    destruct u as [tu ou]. simpl in Hu. subst tu.
    cbn [name isDirectory out].
    assert (Hca : lookup (a ++ [h]) t = Some c).
    { rewrite (lookup_snoc _ _ _ _ Ha). now apply In_child. }
    specialize (Hc _ Hin). simpl in Hc.
    assert (Hcb : lookup (b ++ [h]) t = child h eb)
      by apply (lookup_snoc _ _ _ _ Hb).
    destruct (child h eb) as [c'|] eqn:Hchild.
    - assert (Hhas : has (map name (dirents eb)) h = true)
        by (apply has_dirents; congruence).
      rewrite Hhas. cbn [negb].
      destruct c as [x|sub]; cbn [isDir].
      + destruct c' as [y|]; [|discriminate].
        rewrite (bind_Ok _ _ _ _ _ (readFileSync_File _ (World t ou) x Hca)).
        rewrite (bind_Ok _ _ _ _ _ (readFileSync_File _ (World t ou) y Hcb)).
        destruct (jsstring_eqb (toString x) (toString y)) eqn:Eq; cbn [negb].
        * exists []. rewrite app_nil_r. split; [reflexivity|].
          intros e. rewrite (through_files t a b h x y e Hca Hcb).
          apply jsstring_eqb_eq in Eq. split; [contradiction|tauto].
        * exists [LogDiffers h]. split; [reflexivity|].
          intros e. rewrite (through_files t a b h x y e Hca Hcb). split.
          -- intros [<-|[]]. split; auto. intros E.
             apply jsstring_eqb_eq in E. congruence.
          -- intros [-> _]. now left.
      + destruct c' as [y|sub']; [discriminate|].
        destruct (IHk (Dir sub) (Dir sub') (a ++ [h]) (b ++ [h]) (World t ou))
          as (evs & Hrun & Hev); auto.
        * apply height_child in Hin. lia.
        * apply (Hwoc _ _ Hin).
        * apply (Hwnc h). now apply child_In.
        * exists evs. split; [exact Hrun|].
          intros e. rewrite Hev.
          apply (through_dirs t a b h sub sub' e Hca Hcb).
    - assert (Hhas : has (map name (dirents eb)) h = false).
      { destruct (has (map name (dirents eb)) h) eqn:E; auto.
        apply has_dirents in E. congruence. }
      rewrite Hhas. cbn [negb].
      exists [missing_in_new c (a ++ [h])]. split.
      + now destruct c.
      + intros e. rewrite (through_absent t a b h c eb e Hca Hb Hcb).
        split; [intros [<-|[]]; reflexivity | intros ->; now left]. }
  rewrite (bind_Ok _ _ _ _ _ H1).
  match goal with
  | |- exists evs, forEach ?l ?f _ = _ /\ _ =>
      destruct (forEach_reports l f t
                  (fun ent e => child (name ent) ea = None /\
                                e = LogMissingInOld (b ++ [name ent])))
        with (w := World t (out w ++ e1)) as (e2 & H2 & Hc2); auto
  end.
  { intros ent u _ Hu. destruct u as [tu ou]. simpl in Hu. subst tu.
    cbv beta. cbn [out].
    destruct (has (map name (dirents ea)) (name ent)) eqn:Hhas; cbn [negb].
    - exists []. rewrite app_nil_r. split; [reflexivity|].
      intros e. split; [contradiction|]. intros [Hn _].
      apply has_dirents in Hhas. contradiction.
    - exists [LogMissingInOld (b ++ [name ent])].
      split; [reflexivity|]. intros e. split.
      + intros [<-|[]]. split; auto.
        destruct (child (name ent) ea) eqn:E; auto.
        assert (Hne : child (name ent) ea <> None) by congruence.
        apply has_dirents in Hne. congruence.
      + intros [_ ->]. now left. }
  exists (e1 ++ e2). rewrite H2. simpl. rewrite app_assoc. split; auto.
  intros e. rewrite in_app_iff, Hc1, Hc2, (reported_split t a b ea eb e Ha Hb).
  split.
  - intros [(ent & Hent & H)|(ent & Hent & Hn & ->)].
    + apply In_dirents in Hent as (h & c & Hin & ->). left.
      exists h, c. split; auto. now apply In_child.
    + apply In_dirents in Hent as (h & c & Hin & ->). right.
      exists h, c. repeat split; auto. now apply In_child.
  - intros [(h & c & Hch & H)|(h & c & Hch & Hn & ->)].
    + left. exists (Dirent h (isDir c)). split; auto.
      apply In_dirents. exists h, c. split; auto. now apply child_In.
    + right. exists (Dirent h (isDir c)). repeat split; auto.
      apply In_dirents. exists h, c. split; auto. now apply child_In.
Qed.

Lemma compatible_isDir told tnew :
  isDir told = true -> compatible told tnew = true -> isDir tnew = true.
Proof. destruct told, tnew; simpl; auto; discriminate. Qed.

(** X5. On two well-formed trees without a clash of kinds, [compare] ends
    without error and its [missing] lines are exactly these: a
    file-missing-in-new line for every regular file, and a
    directory-missing-in-new line for every directory, that [old] has in a
    directory which [new] has too, under a name [new] lacks there; a
    missing-in-old line for every entry that [new] has in a directory
    which [old] has too, under a name [old] lacks there. Nothing below a
    directory reported missing in [new] is reported missing in [new], and
    no line of another kind than [differs] and the three [missing] kinds
    is printed. *)
Theorem compare_missing_lines :
  forall fuel a b w told tnew,
    lookup a (fs w) = Some told -> lookup b (fs w) = Some tnew ->
    isDir told = true -> wf told = true -> wf tnew = true ->
    compatible told tnew = true -> height told < fuel ->
    exists evs,
      compareFilesRecursively fuel a b w = (Ok tt, World (fs w) (out w ++ evs)) /\
      (forall q, In (LogFileMissingInNew q) evs <->
                 exists r n d, q = a ++ r ++ [n] /\ only_in (fs w) a b r n (File d)) /\
      (forall q, In (LogDirMissingInNew q) evs <->
                 exists r n es, q = a ++ r ++ [n] /\ only_in (fs w) a b r n (Dir es)) /\
      (forall q, In (LogMissingInOld q) evs <->
                 exists r n c, q = b ++ r ++ [n] /\ only_in (fs w) b a r n c) /\
      (forall r n c s,
         only_in (fs w) a b r n c -> s <> [] ->
         ~ In (LogFileMissingInNew (a ++ r ++ [n] ++ s)) evs /\
         ~ In (LogDirMissingInNew (a ++ r ++ [n] ++ s)) evs) /\
      (forall e, In e evs ->
                 (exists nm, e = LogDiffers nm) \/
                 (exists q, e = LogFileMissingInNew q) \/
                 (exists q, e = LogDirMissingInNew q) \/
                 (exists q, e = LogMissingInOld q)).
Proof.
  intros fuel a b w told tnew Ha Hb Hd Hwo Hwn Hc Hh.
  destruct (compare_events fuel told tnew a b w Hh Hwo Hwn Hd Hc Ha Hb)
    as (evs & Hrun & Hev).
  exists evs. split; [exact Hrun|].
  assert (Hbelow : forall r n c s r2 n2 c2,
            only_in (fs w) a b r n c -> s <> [] ->
            a ++ r ++ [n] ++ s = a ++ r2 ++ [n2] ->
            only_in (fs w) a b r2 n2 c2 -> False).
  { intros r n c s r2 n2 c2 (_ & _ & Hnone) Hs E (_ & (es & Hdir) & _).
    apply app_inv_head in E.
    destruct (exists_last Hs) as (s' & l & ->).
    rewrite !app_assoc in E. apply app_inj_tail in E as [E _].
    rewrite <- E, <- !app_assoc in Hdir.
    rewrite !app_assoc, lookup_app, <- app_assoc, Hnone in Hdir.
    discriminate. }
  split; [|split; [|split; [|split]]].
  - intros q. apply (Hev (LogFileMissingInNew q)).
  - intros q. apply (Hev (LogDirMissingInNew q)).
  - intros q. apply (Hev (LogMissingInOld q)).
  - intros r n c s Ho Hs. split; intros Hin; apply Hev in Hin;
      destruct Hin as (r2 & n2 & c2 & E & Ho2);
      apply (Hbelow r n c s r2 n2 _ Ho Hs E Ho2).
  - intros e Hin. apply Hev in Hin.
    destruct e; simpl in Hin; try contradiction; eauto 6.
Qed.

Lemma compare_missing_lines_witness :
  exists evs,
    compareFilesRecursively 3 ["u"; "old"] ["u"; "new"] (world0 disk_drift)
    = (Ok tt, World disk_drift ([] ++ evs)) /\
    (forall q, In (LogFileMissingInNew q) evs <->
               exists r n d, q = ["u"; "old"] ++ r ++ [n] /\
                             only_in disk_drift ["u"; "old"] ["u"; "new"] r n (File d)) /\
    (forall q, In (LogDirMissingInNew q) evs <->
               exists r n es, q = ["u"; "old"] ++ r ++ [n] /\
                              only_in disk_drift ["u"; "old"] ["u"; "new"] r n (Dir es)) /\
    (forall q, In (LogMissingInOld q) evs <->
               exists r n c, q = ["u"; "new"] ++ r ++ [n] /\
                             only_in disk_drift ["u"; "new"] ["u"; "old"] r n c) /\
    (forall r n c s,
       only_in disk_drift ["u"; "old"] ["u"; "new"] r n c -> s <> [] ->
       ~ In (LogFileMissingInNew (["u"; "old"] ++ r ++ [n] ++ s)) evs /\
       ~ In (LogDirMissingInNew (["u"; "old"] ++ r ++ [n] ++ s)) evs) /\
    (forall e, In e evs ->
               (exists nm, e = LogDiffers nm) \/
               (exists q, e = LogFileMissingInNew q) \/
               (exists q, e = LogDirMissingInNew q) \/
               (exists q, e = LogMissingInOld q)).
Proof.
  apply (compare_missing_lines 3 ["u"; "old"] ["u"; "new"] (world0 disk_drift)
           drift_old drift_new); try reflexivity.
  vm_compute. lia.
Defined.

Lemma differs_below_sym t a b nm : differs_below t a b nm <-> differs_below t b a nm.
Proof.
  split; intros (p & x & y & Hx & Hy & Hne); exists p, y, x;
    repeat split; auto.
Qed.

(** X6. Comparing in the two directions gives mirrored reports: a path is
    reported missing in [old] in one direction exactly when it is reported
    as a file or a directory missing in [new] in the other, and the names
    with a [differs] line are the same in both. *)
Theorem compare_is_antisymmetric :
  forall fuel a b w told tnew,
    lookup a (fs w) = Some told -> lookup b (fs w) = Some tnew ->
    isDir told = true -> wf told = true -> wf tnew = true ->
    compatible told tnew = true ->
    height told < fuel -> height tnew < fuel ->
    exists evs1 evs2,
      compareFilesRecursively fuel a b w = (Ok tt, World (fs w) (out w ++ evs1)) /\
      compareFilesRecursively fuel b a w = (Ok tt, World (fs w) (out w ++ evs2)) /\
      (forall q, In (LogMissingInOld q) evs2 <->
                 In (LogFileMissingInNew q) evs1 \/ In (LogDirMissingInNew q) evs1) /\
      (forall q, In (LogMissingInOld q) evs1 <->
                 In (LogFileMissingInNew q) evs2 \/ In (LogDirMissingInNew q) evs2) /\
      (forall nm, In (LogDiffers nm) evs1 <-> In (LogDiffers nm) evs2).
Proof.
  intros fuel a b w told tnew Ha Hb Hd Hwo Hwn Hc Hho Hhn.
  assert (Hd' := compatible_isDir _ _ Hd Hc).
  assert (Hc' := compatible_sym fuel told tnew Hho Hwo Hwn Hc).
  destruct (compare_events fuel told tnew a b w Hho Hwo Hwn Hd Hc Ha Hb)
    as (evs1 & Hrun1 & Hev1).
  destruct (compare_events fuel tnew told b a w Hhn Hwn Hwo Hd' Hc' Hb Ha)
    as (evs2 & Hrun2 & Hev2).
  exists evs1, evs2. split; [exact Hrun1|]. split; [exact Hrun2|].
  assert (Hone : forall (x y : path) q,
            (exists r n c, q = x ++ r ++ [n] /\ only_in (fs w) x y r n c) <->
            (exists r n d, q = x ++ r ++ [n] /\ only_in (fs w) x y r n (File d)) \/
            (exists r n es, q = x ++ r ++ [n] /\ only_in (fs w) x y r n (Dir es))).
  { intros x y q. split.
    - intros (r & n & [d|es] & E & H); [left|right]; eauto.
    - intros [(r & n & d & E & H)|(r & n & es & E & H)]; eauto. }
  split; [|split].
  - intros q. rewrite (Hev2 (LogMissingInOld q)), (Hev1 (LogFileMissingInNew q)),
      (Hev1 (LogDirMissingInNew q)). apply Hone.
  - intros q. rewrite (Hev1 (LogMissingInOld q)), (Hev2 (LogFileMissingInNew q)),
      (Hev2 (LogDirMissingInNew q)). apply Hone.
  - intros nm. rewrite (Hev1 (LogDiffers nm)), (Hev2 (LogDiffers nm)).
    apply differs_below_sym.
Qed.

Lemma compare_is_antisymmetric_witness :
  exists evs1 evs2,
    compareFilesRecursively 3 ["u"; "old"] ["u"; "new"] (world0 disk_drift)
    = (Ok tt, World disk_drift ([] ++ evs1)) /\
    compareFilesRecursively 3 ["u"; "new"] ["u"; "old"] (world0 disk_drift)
    = (Ok tt, World disk_drift ([] ++ evs2)) /\
    (forall q, In (LogMissingInOld q) evs2 <->
               In (LogFileMissingInNew q) evs1 \/ In (LogDirMissingInNew q) evs1) /\
    (forall q, In (LogMissingInOld q) evs1 <->
               In (LogFileMissingInNew q) evs2 \/ In (LogDirMissingInNew q) evs2) /\
    (forall nm, In (LogDiffers nm) evs1 <-> In (LogDiffers nm) evs2).
Proof.
  apply (compare_is_antisymmetric 3 ["u"; "old"] ["u"; "new"] (world0 disk_drift)
           drift_old drift_new); try reflexivity; vm_compute; lia.
Defined.

(* ================================================================== *)
(** * [mkdirSync] and [create] *)
(* ================================================================== *)

(** [mkdirSync] succeeds exactly when no regular file sits on the path. *)
Lemma mkdirO_ok_iff p : forall o,
  (exists t', mkdirO p o = inr t') <->
  (forall q d, is_prefix q p = true -> lookupO q o <> Some (File d)).
Proof.
  induction p as [|n p IH]; intros o; simpl.
  - split.
    + intros (t' & H) q d Hq. destruct q; [|discriminate]. simpl.
      destruct o as [[x|es]|]; simpl; congruence.
    + intros H. destruct o as [[x|es]|]; eauto.
      exfalso. apply (H [] x); reflexivity.
  - destruct o as [[x|es]|].
    + split; [intros (t' & H); discriminate|].
      intros H. exfalso. apply (H [] x); reflexivity.
    + specialize (IH (child n es)). split.
      * intros (t' & H) q d Hq.
        destruct (mkdirO p (child n es)) as [e|c] eqn:M; [discriminate|].
        destruct q as [|m q]; [discriminate|]. simpl in *.
        apply andb_true_iff in Hq as [E Hq]. apply String.eqb_eq in E. subst m.
        assert (H1 := proj1 IH (ex_intro _ c eq_refl) q d Hq).
        destruct (child n es); simpl in *; auto; discriminate.
      * intros H.
        destruct (proj2 IH) as (c & Hc).
        { intros q d Hq. specialize (H (n :: q) d). simpl in H.
          rewrite String.eqb_refl in H. specialize (H Hq).
          destruct (child n es); simpl in *; auto; discriminate. }
        rewrite Hc. eauto.
    + destruct (mkdirO_None p) as (c & -> & _). split; eauto.
      intros _ q d _. destruct q; discriminate.
Qed.

Lemma creatable_iff p t :
  creatable p t = true <->
  (forall q d, is_prefix q p = true -> lookup q t <> Some (File d)).
Proof.
  unfold creatable. rewrite <- (mkdirO_ok_iff p (Some t)). split.
  - destruct (mkdirO p (Some t)); [discriminate|eauto].
  - intros (t' & ->). reflexivity.
Qed.

(** [mkdirSync] creates directories only: the regular files before and
    after are the same, and a directory stays a directory. *)
Lemma mkdirO_kinds p : forall o t',
  mkdirO p o = inr t' ->
  forall q,
    (forall d, lookupO q o = Some (File d) <-> lookup q t' = Some (File d)) /\
    (forall es, lookupO q o = Some (Dir es) -> exists es', lookup q t' = Some (Dir es')).
Proof.
  induction p as [|n p IH]; intros o t'; simpl.
  - destruct o as [[x|es]|]; try discriminate; intros [= <-] q.
    + split; [tauto|eauto].
    + split.
      * intros d. destruct q; simpl; split; discriminate.
      * discriminate.
  - destruct o as [[x|es]|]; try discriminate.
    + destruct (mkdirO p (child n es)) as [e|c] eqn:M; [discriminate|].
      intros [= <-] q. specialize (IH _ _ M).
      destruct q as [|m q]; simpl.
      * split; [split; discriminate|eauto].
      * destruct (String.eqb_spec n m) as [->|Hnm].
        -- rewrite child_set_child_same.
           destruct (IH q) as [H1 H2].
           destruct (child m es); simpl in *; auto.
        -- rewrite (child_set_child_other _ _ _ _ Hnm).
           destruct (child m es); split; try tauto; eauto.
    + destruct (mkdirO p None) as [e|c] eqn:M; [discriminate|].
      intros [= <-] q. specialize (IH _ _ M).
      destruct q as [|m q]; simpl.
      * split; [split; discriminate|discriminate].
      * destruct (String.eqb_spec m n) as [->|Hnm].
        -- destruct (IH q) as [H1 H2]. simpl in *. split; auto.
        -- split; [split; discriminate|discriminate].
Qed.

Lemma mkdirO_makes_dir p t t' :
  mkdirO p (Some t) = inr t' -> exists es, lookup p t' = Some (Dir es).
Proof.
  intros H. destruct (lookup p t) as [c|] eqn:L.
  - destruct c as [x|es].
    + exfalso.
      apply (proj1 (mkdirO_ok_iff p (Some t)) (ex_intro _ t' H) p x
               (is_prefix_refl p)).
      exact L.
    + rewrite (mkdirO_existing _ _ _ L) in H. injection H as <-. eauto.
  - exists []. apply (mkdirO_fresh _ _ _ H L).
Qed.

Lemma creatable_after_mkdir p q t t' :
  mkdirO p (Some t) = inr t' -> creatable q t = true -> creatable q t' = true.
Proof.
  rewrite !creatable_iff. intros H Hq q1 d Hpre L.
  apply (Hq q1 d Hpre).
  apply (proj1 (mkdirO_kinds p (Some t) t' H q1) d). exact L.
Qed.

Lemma creatable_prefix p s t : creatable (p ++ s) t = true -> creatable p t = true.
Proof.
  rewrite !creatable_iff. intros H q d Hq. apply H.
  apply (is_prefix_trans q p (p ++ s) Hq (is_prefix_app p s)).
Qed.

(** [if (!fs.existsSync(p)) fs.mkdirSync(p, { recursive: true })],
    followed by the rest [k] of the handler. *)
Lemma ensure_creatable {B} p w (k : unit -> M B) :
  creatable p (fs w) = true ->
  exists t',
    mkdirO p (Some (fs w)) = inr t' /\
    bind (existsSync p)
         (fun e => bind (if negb e then mkdirSync p else ret tt) k) w
    = k tt (World t' (out w)).
Proof.
  intros Hc. unfold creatable in Hc.
  destruct (mkdirO p (Some (fs w))) as [e|t'] eqn:M; [discriminate|].
  exists t'. split; auto.
  destruct (lookup p (fs w)) as [c|] eqn:L.
  - rewrite (bind_Ok _ _ _ _ _ (existsSync_Some p w _ L)). cbn [negb].
    destruct c as [x|es].
    + exfalso.
      apply (proj1 (mkdirO_ok_iff p (Some (fs w))) (ex_intro _ t' M) p x
               (is_prefix_refl p)).
      exact L.
    + rewrite (mkdirO_existing _ _ _ L) in M. injection M as <-.
      now destruct w.
  - rewrite (bind_Ok _ _ _ _ _ (existsSync_None p w L)). cbn [negb].
    apply bind_Ok. unfold mkdirSync. now apply modify_Ok.
Qed.

Lemma ensure_existing {B} p w c (k : unit -> M B) :
  lookup p (fs w) = Some c ->
  bind (existsSync p)
       (fun e => bind (if negb e then mkdirSync p else ret tt) k) w
  = k tt w.
Proof.
  intros L. now rewrite (bind_Ok _ _ _ _ _ (existsSync_Some p w _ L)).
Qed.

(** X7. When no regular file is in the way, [create] ends without error,
    the update directory and its [old] and [new] are directories
    afterwards, every regular file is as it was and every directory is
    still a directory. When the three paths exist already, regular files
    or not, [create] changes nothing and reports success. *)
Theorem create_makes_the_three_directories :
  forall cwd updateDir w,
    let root := resolve cwd updateDir in
    (creatable (root ++ ["old"]) (fs w) = true ->
     creatable (root ++ ["new"]) (fs w) = true ->
     exists t',
       create_action cwd updateDir w
       = (Ok tt, World t' (out w ++ [LogCreated updateDir])) /\
       (exists e1 e2 e3,
          lookup root t' = Some (Dir e1) /\
          lookup (root ++ ["old"]) t' = Some (Dir e2) /\
          lookup (root ++ ["new"]) t' = Some (Dir e3)) /\
       (forall q d, lookup q (fs w) = Some (File d) <-> lookup q t' = Some (File d)) /\
       (forall q es, lookup q (fs w) = Some (Dir es) ->
                     exists es', lookup q t' = Some (Dir es')))
    /\
    (forall c1 c2 c3,
       lookup root (fs w) = Some c1 ->
       lookup (root ++ ["old"]) (fs w) = Some c2 ->
       lookup (root ++ ["new"]) (fs w) = Some c3 ->
       create_action cwd updateDir w
       = (Ok tt, World (fs w) (out w ++ [LogCreated updateDir]))).
Proof.
  intros cwd updateDir w root. split.
  - intros Hold Hnew.
    assert (Hroot := creatable_prefix root ["old"] _ Hold).
    unfold create_action. fold root.
    match goal with
    | |- context [bind (existsSync root) (fun e => bind _ ?k)] =>
        destruct (ensure_creatable root w k Hroot) as (t1 & M1 & R1)
    end.
    rewrite R1. clear R1.
    match goal with
    | |- context [bind (existsSync (root ++ ["old"])) (fun e => bind _ ?k)] =>
        destruct (ensure_creatable (root ++ ["old"]) (World t1 (out w)) k
                    (creatable_after_mkdir _ _ _ _ M1 Hold)) as (t2 & M2 & R2)
    end.
    rewrite R2. clear R2. simpl fs in M2. simpl out.
    match goal with
    | |- context [bind (existsSync (root ++ ["new"])) (fun e => bind _ ?k)] =>
        destruct (ensure_creatable (root ++ ["new"]) (World t2 (out w)) k
                    (creatable_after_mkdir _ _ _ _ M2
                       (creatable_after_mkdir _ _ _ _ M1 Hnew))) as (t3 & M3 & R3)
    end.
    rewrite R3. clear R3. simpl fs in M3. simpl out.
    exists t3. split; [|split; [|split]].
    + reflexivity.
    + destruct (mkdirO_makes_dir _ _ _ M1) as (e1 & L1).
      destruct (mkdirO_makes_dir _ _ _ M2) as (e2 & L2).
      destruct (mkdirO_makes_dir _ _ _ M3) as (e3 & L3).
      destruct (proj2 (mkdirO_kinds _ _ _ M2 root) e1 L1) as (e1' & L1').
      destruct (proj2 (mkdirO_kinds _ _ _ M3 root) e1' L1') as (e1'' & L1'').
      destruct (proj2 (mkdirO_kinds _ _ _ M3 (root ++ ["old"])) e2 L2) as (e2' & L2').
      eauto 7.
    + intros q d.
      rewrite <- (proj1 (mkdirO_kinds _ _ _ M3 q) d). simpl.
      rewrite <- (proj1 (mkdirO_kinds _ _ _ M2 q) d). simpl.
      apply (proj1 (mkdirO_kinds _ _ _ M1 q) d).
    + intros q es L.
      destruct (proj2 (mkdirO_kinds _ _ _ M1 q) es L) as (es1 & L1).
      destruct (proj2 (mkdirO_kinds _ _ _ M2 q) es1 L1) as (es2 & L2).
      apply (proj2 (mkdirO_kinds _ _ _ M3 q) es2 L2).
  - intros c1 c2 c3 L1 L2 L3. unfold create_action. fold root.
    rewrite (ensure_existing _ w _ _ L1). cbv beta.
    rewrite (ensure_existing _ w _ _ L2). cbv beta.
    rewrite (ensure_existing _ w _ _ L3). reflexivity.
Qed.

Lemma create_makes_the_three_directories_witness :
  (exists t',
     create_action ["home"] "u2/deep" (world0 disk_u1)
     = (Ok tt, World t' ([] ++ [LogCreated "u2/deep"])) /\
     (exists e1 e2 e3,
        lookup (resolve ["home"] "u2/deep") t' = Some (Dir e1) /\
        lookup (resolve ["home"] "u2/deep" ++ ["old"]) t' = Some (Dir e2) /\
        lookup (resolve ["home"] "u2/deep" ++ ["new"]) t' = Some (Dir e3)) /\
     (forall q d, lookup q disk_u1 = Some (File d) <-> lookup q t' = Some (File d)) /\
     (forall q es, lookup q disk_u1 = Some (Dir es) ->
                   exists es', lookup q t' = Some (Dir es')))
  /\
  create_action ["c"] "/u" (world0 disk_file_vs_dir)
  = (Ok tt, World disk_file_vs_dir ([] ++ [LogCreated "/u"])).
Proof.
  split.
  - apply (proj1 (create_makes_the_three_directories ["home"] "u2/deep"
                    (world0 disk_u1))); reflexivity.
  - apply (proj2 (create_makes_the_three_directories ["c"] "/u"
                    (world0 disk_file_vs_dir))
             (Dir [("old", Dir [("docs", File (bytes "notes"))]);
                   ("new", Dir [("docs", Dir [])])])
             (Dir [("docs", File (bytes "notes"))])
             (Dir [("docs", Dir [])])); reflexivity.
Defined.

(* ================================================================== *)
(** * [copyFileSync] and [add] *)
(* ================================================================== *)


(** Writing a file puts the bytes at the path, leaves every other regular
    file as it was, creates none, and keeps every directory a directory. *)
Lemma alterO_write p d : forall o o',
  alterO p (write_file d) o = inr o' ->
  lookupO p o' = Some (File d) /\
  (forall q x, q <> p ->
     (lookupO q o = Some (File x) <-> lookupO q o' = Some (File x))) /\
  (forall q es, lookupO q o = Some (Dir es) ->
     exists es', lookupO q o' = Some (Dir es')).
Proof.
  induction p as [|n p IH]; intros o o'; simpl.
  - destruct o as [[x|es]|]; simpl; try discriminate; intros [= <-]; simpl;
      (split; [reflexivity|split]).
    + intros q y Hq. destruct q; [congruence|]. simpl. tauto.
    + intros q es. destruct q; discriminate.
    + intros q y Hq. destruct q; [congruence|]. simpl. split; discriminate.
    + discriminate.
  - destruct o as [[x|es]|]; try discriminate.
    destruct (alterO p (write_file d) (child n es)) as [e|r] eqn:A; [discriminate|].
    destruct (IH _ _ A) as (H1 & H2 & H3).
    destruct r as [c|]; [|discriminate].
    intros [= <-]. simpl. rewrite child_set_child_same. simpl in H1.
    split; [exact H1|split].
    + intros q y Hq. destruct q as [|m q]; simpl; [split; discriminate|].
      destruct (String.eqb_spec n m) as [->|Hnm].
      * rewrite child_set_child_same.
        assert (Hq' : q <> p) by congruence.
        specialize (H2 q y Hq'). simpl in H2.
        destruct (child m es); simpl in *; auto.
      * rewrite (child_set_child_other _ _ _ _ Hnm). reflexivity.
    + intros q es0. destruct q as [|m q]; simpl; [eauto|].
      destruct (String.eqb_spec n m) as [->|Hnm].
      * rewrite child_set_child_same. specialize (H3 q es0). simpl in H3.
        destruct (child m es); simpl in *; auto; discriminate.
      * rewrite (child_set_child_other _ _ _ _ Hnm). eauto.
Qed.

Lemma alter_write p d t t' :
  alter p (write_file d) t = inr t' ->
  lookup p t' = Some (File d) /\
  (forall q x, q <> p ->
     (lookup q t = Some (File x) <-> lookup q t' = Some (File x))) /\
  (forall q es, lookup q t = Some (Dir es) -> exists es', lookup q t' = Some (Dir es')).
Proof.
  unfold alter.
  destruct (alterO p (write_file d) (Some t)) as [e|[c|]] eqn:A; try discriminate.
  intros [= <-]. apply (alterO_write p d _ _ A).
Qed.




Lemma disjoint_not_prefix p q : disjoint p q = true -> is_prefix p q = false.
Proof.
  unfold disjoint. intros H. apply andb_true_iff in H as [H _].
  now apply negb_true_iff.
Qed.

Lemma removelast_prefix (p : path) : is_prefix (removelast p) p = true.
Proof.
  destruct (list_eq_dec string_dec p []) as [->|Hne]; [reflexivity|].
  destruct (exists_last Hne) as (pp & n & ->).
  rewrite removelast_last. apply is_prefix_app.
Qed.




(** ** Path strings *)























(* ================================================================== *)
(** * [backup] *)
(* ================================================================== *)

Lemma append_inj_r a b c : String.append a b = String.append a c -> b = c.
Proof. induction a as [|x a IH]; simpl; auto. intros [= H]. auto. Qed.

Lemma stamp_inj n1 n2 :
  DecimalString.NilEmpty.string_of_uint (N.to_uint n1)
  = DecimalString.NilEmpty.string_of_uint (N.to_uint n2) -> n1 = n2.
Proof.
  intros H. apply DecimalN.Unsigned.to_uint_inj.
  apply (f_equal DecimalString.NilEmpty.uint_of_string) in H.
  rewrite !DecimalString.NilEmpty.usu in H. now injection H.
Qed.

(** X10. The name of a backup directory: for an update directory other
    than the root of the file system it is a sibling of the update
    directory, neither inside it nor containing it, and two different
    times give two different names. *)
Theorem backup_names_are_distinct_siblings :
  forall root now1 now2,
    root <> [] ->
    disjoint root (backupDir_of root now1) = true /\
    dirname (backupDir_of root now1) = dirname root /\
    (backupDir_of root now1 = backupDir_of root now2 -> now1 = now2).
Proof.
  intros root now1 now2 Hne. split; [now apply backupDir_of_disjoint|].
  destruct (exists_last Hne) as (p & l & ->).
  unfold backupDir_of, dirname. rewrite rev_app_distr. simpl.
  rewrite rev_involutive, !removelast_last. split; [reflexivity|].
  intros E. apply app_inv_head in E. injection E as E.
  apply append_inj_r in E. injection E as E. now apply stamp_inj.
Qed.

Lemma backup_names_are_distinct_siblings_witness :
  disjoint ["home"; "u1"] (backupDir_of ["home"; "u1"] 1700000000000) = true /\
  dirname (backupDir_of ["home"; "u1"] 1700000000000) = dirname ["home"; "u1"] /\
  (backupDir_of ["home"; "u1"] 1700000000000 = backupDir_of ["home"; "u1"] 1700000000001 ->
   1700000000000%N = 1700000000001%N).
Proof.
  apply (backup_names_are_distinct_siblings ["home"; "u1"]). discriminate.
Defined.

(** X11. [backup] of an update directory that is a well-formed directory,
    to a name not taken yet: it ends without error, the backup directory
    holds the very tree of the update directory, and nothing outside the
    backup directory changes, the update directory included. *)
Theorem backup_is_an_exact_copy :
  forall cwd fuel now updateDir w tr,
    let root := resolve cwd updateDir in
    let bk := backupDir_of root now in
    lookup root (fs w) = Some tr -> isDir tr = true -> wf tr = true ->
    root <> [] -> lookup bk (fs w) = None -> height tr < fuel ->
    exists t1,
      backup_action cwd fuel now updateDir w
      = (Ok tt, World t1 (out w ++ [LogBackupCreated bk])) /\
      lookup bk t1 = Some tr /\
      lookup root t1 = Some tr /\
      forall q, disjoint bk q = true -> lookup q t1 = lookup q (fs w).
Proof.
  intros cwd fuel now updateDir w tr root bk Hr Hd Hwf Hne Hb Hh.
  assert (Hdis := backupDir_of_disjoint root now Hne). fold bk in Hdis.
  assert (Hcr : creatable bk (fs w) = true).
  { clear Hdis. subst bk. destruct (exists_last Hne) as (p & l & E).
    rewrite E in *. destruct (backupDir_of_snoc p l now) as (sfx & _ & E').
    rewrite E' in *. apply (sibling_creatable p l _ (fs w) tr); auto. }
  destruct w as [t o]. simpl fs in *. simpl out.
  destruct (copyDirectory_fresh fuel root bk t o tr Hr Hd Hwf Hb Hcr
              (disjoint_not_prefix _ _ Hdis) Hh)
    as (t1 & Hrun & Hr1 & Hb1 & Hframe & _).
  exists t1. repeat split; auto.
  unfold backup_action. fold root. fold bk.
  now rewrite (bind_Ok _ _ _ _ _ Hrun).
Qed.

Lemma backup_is_an_exact_copy_witness :
  exists t1,
    backup_action ["home"] 3 17 "u1" (world0 disk_u1)
    = (Ok tt, World t1 ([] ++ [LogBackupCreated (backupDir_of (resolve ["home"] "u1") 17)])) /\
    lookup (backupDir_of (resolve ["home"] "u1") 17) t1 = Some u1 /\
    lookup (resolve ["home"] "u1") t1 = Some u1 /\
    forall q, disjoint (backupDir_of (resolve ["home"] "u1") 17) q = true ->
              lookup q t1 = lookup q disk_u1.
Proof.
  apply (backup_is_an_exact_copy ["home"] 3 17 "u1" (world0 disk_u1) u1);
    try reflexivity.
  - discriminate.
  - vm_compute. lia.
Defined.



(* ================================================================== *)
(** * [restore] and [remove] on the wrong kind of entry *)
(* ================================================================== *)

(** X13. [restore] checks that the backup path exists, not that it is a
    directory. Given a regular file as the backup, it deletes the update
    directory, creates it again empty, and only then throws: the former
    contents are lost, nothing is printed, and everything outside the
    update directory is as before. *)
Theorem restore_from_a_file_empties_the_update_directory :
  forall cwd fuel updateDir backupDir w tr d,
    let root := resolve cwd updateDir in
    let bk := resolve cwd backupDir in
    wf (fs w) = true ->
    lookup bk (fs w) = Some (File d) ->
    lookup root (fs w) = Some tr -> isDir tr = true -> root <> [] ->
    height tr < fuel ->
    exists e t',
      restore_action cwd fuel updateDir backupDir w = (Throw e, World t' (out w)) /\
      lookup root t' = Some (Dir []) /\
      forall q, disjoint root q = true -> lookup q t' = lookup q (fs w).
Proof.
  intros cwd fuel updateDir backupDir w tr d root bk Hwf Hb Hr Hd Hne Hh.
  destruct w as [t o]. simpl fs in *. simpl out.
  destruct (remove_at_vacates root t tr Hwf Hr Hne) as [Hv Hcr].
  set (t1 := remove_at root t) in *.
  unfold creatable in Hcr.
  destruct (mkdirO root (Some t1)) as [e|t2] eqn:M; [discriminate|].
  destruct (mkdirO_fresh _ _ _ M Hv) as [Hr2 Hframe].
  assert (Hbr : is_prefix bk root = false).
  { destruct (is_prefix bk root) eqn:E; auto.
    apply is_prefix_true in E as [r E]. rewrite E, lookup_app, Hb in Hr.
    destruct r; [injection Hr as <-|]; discriminate. }
  assert (Hb2 : exists e, readdirSync bk (World t2 o) = (Throw e, World t2 o)).
  { unfold readdirSync. simpl fs.
    destruct (is_prefix root bk) eqn:E.
    - apply is_prefix_true in E as [r E]. rewrite E, lookup_app, Hr2.
      destruct r as [|a r].
      + rewrite app_nil_r in E. rewrite E, Hr in Hb. injection Hb as ->.
        discriminate.
      + simpl. eauto.
    - rewrite (Hframe bk Hbr). unfold t1. rewrite remove_at_frame.
      + rewrite Hb. eauto.
      + unfold disjoint. now rewrite E, Hbr. }
  destruct Hb2 as [e He].
  exists e, t2. split; [|split; auto].
  - unfold restore_action. fold root. fold bk.
    rewrite (bind_Ok _ _ _ _ _ (existsSync_Some bk (World t o) _ Hb)).
    cbn [negb].
    rewrite (bind_Ok _ _ _ _ _ (deleteDirectory_deletes fuel tr root t o Hh Hd Hr Hne)).
    fold t1. destruct fuel as [|k]; [inversion Hh|]. simpl copyDirectory.
    assert (Hmk : mkdirSync root (World t1 o) = (Ok tt, World t2 o)).
    { unfold mkdirSync. now apply modify_Ok. }
    unfold bind at 1. unfold bind at 1. rewrite Hmk.
    unfold bind at 1. now rewrite He.
  - intros q Hq. rewrite Hframe.
    + now apply remove_at_frame.
    + unfold disjoint in Hq. apply andb_true_iff in Hq as [_ H].
      now apply negb_true_iff.
Qed.

Lemma restore_from_a_file_empties_the_update_directory_witness :
  exists e t',
    restore_action ["home"] 3 "u1" "u1/new/a.txt" (world0 disk_u1)
    = (Throw e, World t' []) /\
    lookup (resolve ["home"] "u1") t' = Some (Dir []) /\
    forall q, disjoint (resolve ["home"] "u1") q = true ->
              lookup q t' = lookup q disk_u1.
Proof.
  apply (restore_from_a_file_empties_the_update_directory
           ["home"] 3 "u1" "u1/new/a.txt" (world0 disk_u1) u1 (bytes "y"));
    try reflexivity.
  - discriminate.
  - vm_compute. lia.
Defined.

Lemma alterO_fails p f e : forall t c,
  lookup p t = Some c -> f (Some c) = inl e -> alterO p f (Some t) = inl e.
Proof.
  induction p as [|n p IH]; intros t c; simpl.
  - now intros [= ->].
  - destruct t as [dt|es]; [discriminate|].
    destruct (child n es) as [x|] eqn:E; [|discriminate].
    intros H1 H2. now rewrite (IH _ _ H1 H2).
Qed.

(** X14. [remove] of a path that names a directory on the [old] side
    throws [EISDIR] at once: nothing is deleted, nothing is printed, and
    the [new] side is never looked at. *)
Theorem remove_of_a_directory_throws :
  forall cwd updateDir filePath w es,
    lookup (components (remove_oldDir cwd updateDir filePath)) (fs w)
    = Some (Dir es) ->
    remove_action cwd updateDir filePath w = (Throw EISDIR, w).
Proof.
  intros cwd updateDir filePath w es H.
  unfold remove_action, removeFileIfExists.
  unfold bind at 1.
  rewrite (bind_Ok _ _ _ _ _ (existsSync_name_dir _ w _ H eq_refl)).
  unfold bind, unlinkSync_name.
  destruct (trailingSep (remove_oldDir cwd updateDir filePath)).
  - now rewrite H.
  - unfold unlinkSync, modify, alter.
    now rewrite (alterO_fails _ unlink_entry EISDIR _ _ H eq_refl).
Qed.

Lemma remove_of_a_directory_throws_witness :
  remove_action [] "u" "docs" (world0 disk_drift) = (Throw EISDIR, world0 disk_drift).
Proof.
  apply (remove_of_a_directory_throws [] "u" "docs" (world0 disk_drift)
           [("d1", File (bytes "1"))]).
  reflexivity.
Defined.

(* ================================================================== *)
(** * [push]: guards, console and clean-up *)
(* ================================================================== *)

Lemma confirmAndUpload_keeps T put uL files answer (s : session T) :
  let s' := snd (confirmAndUpload put uL files answer s) in
  fs (sys s') = fs (sys s) /\ rl_closed s' = rl_closed s /\
  client_ended s' = client_ended s /\
  (askConfirmation uL answer = false \/ files = [] ->
   traffic s' = traffic s /\ remote s' = remote s).
Proof.
  unfold confirmAndUpload.
  destruct (present_plan T files (say LogFilesToBeUploaded s))
    as [(H1 & H2 & H3 & H4 & H5) _].
  simpl in H1, H2, H3, H4, H5.
  destruct (askConfirmation uL answer) eqn:Hans.
  - set (s0 := say LogConfirmedStarting _).
    destruct (uploadEach_spec T put files s0) as (tr & Htr & _ & Hfs & _).
    assert (Hkeep : rl_closed (snd (uploadEach put files s0)) = rl_closed s0 /\
                    client_ended (snd (uploadEach put files s0)) = client_ended s0).
    { clear. generalize s0. clear s0.
      induction files as [|file files IH]; intros s0; simpl; auto.
      unfold uploadFile.
      destruct (put (remote s0) (localFilePath file) (remoteFilePath file))
        as [st [m|]]; simpl; auto.
      match goal with |- context [uploadEach put files ?s1] =>
        destruct (IH s1) as [-> ->] end. auto. }
    destruct Hkeep as [Hk1 Hk2].
    destruct (uploadEach put files s0) as [[e|] s1] eqn:Hup; simpl in *;
      (split; [congruence|split; [congruence|split; [congruence|]]]);
      (intros [Hf| ->]; [discriminate|]); simpl in Hup;
      injection Hup as Hup; discriminate || (subst s1; simpl; auto).
  - simpl. repeat split; auto.
Qed.

(** When the answer is not accepted, or the plan is empty or could not
    be listed, the [ready] handler transfers nothing. *)
Lemma onReady_quiet T put uL cwd fuel remoteBase updateDir version answer
      (s : session T) r w' :
  listFiles fuel remoteBase (join (resolve cwd updateDir) version) (sys s) = (r, w') ->
  askConfirmation uL answer = false \/
  (forall file files, r <> Ok (file :: files)) ->
  let s' := snd (onReady put uL cwd fuel remoteBase updateDir version answer s) in
  traffic s' = traffic s /\ remote s' = remote s.
Proof.
  intros Hl Hq. unfold onReady. rewrite Hl.
  destruct r as [files|e|]; simpl; auto.
  destruct (confirmAndUpload_keeps T put uL files answer s) as (_ & _ & _ & Hk).
  destruct (confirmAndUpload put uL files answer s) as [ph s1]. simpl in *.
  apply Hk. destruct Hq as [Hq|Hq]; auto. right.
  destruct files as [|file files]; auto. now elim (Hq file files).
Qed.

Lemma onReady_keeps T put uL cwd fuel remoteBase updateDir version answer
      (s : session T) :
  let s' := snd (onReady put uL cwd fuel remoteBase updateDir version answer s) in
  rl_closed s' = true /\ client_ended s' = true /\ fs (sys s') = fs (sys s).
Proof.
  unfold onReady.
  destruct (listFiles fuel remoteBase (join (resolve cwd updateDir) version) (sys s))
    as [[files|e|] w']; simpl; auto.
  destruct (confirmAndUpload_keeps T put uL files answer s) as (H1 & _).
  destruct (confirmAndUpload put uL files answer s) as [ph s1]. simpl in *. auto.
Qed.

(** The [error] and [close] handlers print their line and close the
    prompt; they touch neither the server nor the local file system. *)
Lemma deliver_spec T events : forall s : session T,
  out (sys (deliver events s)) = out (sys s) ++ map handler_line events /\
  traffic (deliver events s) = traffic s /\
  remote (deliver events s) = remote s /\
  fs (sys (deliver events s)) = fs (sys s) /\
  (events <> [] \/ rl_closed s = true -> rl_closed (deliver events s) = true) /\
  (client_ended s = true -> client_ended (deliver events s) = true).
Proof.
  induction events as [|ev events IH]; intros s.
  - simpl. rewrite app_nil_r. repeat split; auto.
    intros [H|H]; [now elim H|exact H].
  - destruct ev as [message|hadError]; simpl deliver.
    + destruct (IH (onError message s)) as (Ho & Ht & Hr & Hfs & Hrl & Hce).
      simpl in *. rewrite Ho, <- app_assoc. repeat split; auto.
    + destruct (IH (onClose hadError s)) as (Ho & Ht & Hr & Hfs & Hrl & Hce).
      simpl in *. rewrite Ho, <- app_assoc. repeat split; auto.
Qed.

(** Past the two guards, [push] is the run of the handlers. *)
Lemma push_action_connected T put uL cwd fuel env updateDir version ready events
      (s : session T) :
  version = "new" \/ version = "old" ->
  unset (FTP_HOST env) = false -> unset (FTP_USER env) = false ->
  unset (FTP_PASSWORD env) = false -> unset (FTP_REMOTE_DIR env) = false ->
  exists d,
    FTP_REMOTE_DIR env = Some d /\
    push_action put uL cwd fuel env updateDir version ready events s
    = match ready with
      | Some answer =>
          (Some (Some (fst (onReady put uL cwd fuel (normalize d) updateDir version
                                    answer s))),
           deliver events
             (snd (onReady put uL cwd fuel (normalize d) updateDir version answer s)))
      | None => (Some None, deliver events s)
      end.
Proof.
  intros Hv H1 H2 H3 H4. unfold push_action.
  assert (G : negb (version =? "new") && negb (version =? "old") = false).
  { destruct Hv as [-> | ->]; reflexivity. }
  rewrite G, H1, H2, H3, H4. cbn [orb].
  destruct (FTP_REMOTE_DIR env) as [d|]; [|discriminate].
  exists d. split; [reflexivity|].
  destruct ready as [answer|]; [|reflexivity].
  now destruct (onReady put uL cwd fuel (normalize d) updateDir version answer s).
Qed.

(** X15. [push] transfers nothing and leaves the server as it is,
    whatever the client reports, unless the version is [old] or [new],
    the four variables of [.env] are all set and not empty, the client
    becomes ready, the plan lists at least one file, and the answer to
    the prompt is accepted. *)
Theorem push_uploads_only_after_all_checks :
  forall (T : Type) (put : T -> path -> path -> T * option string)
         unicodeLower cwd fuel env updateDir version ready events (s : session T),
    let s' := snd (push_action put unicodeLower cwd fuel env updateDir version
                               ready events s) in
    traffic s' <> traffic s \/ remote s' <> remote s ->
    (version = "new" \/ version = "old") /\
    unset (FTP_HOST env) = false /\ unset (FTP_USER env) = false /\
    unset (FTP_PASSWORD env) = false /\ unset (FTP_REMOTE_DIR env) = false /\
    (exists answer,
       ready = Some answer /\ askConfirmation unicodeLower answer = true) /\
    exists remoteBase file files w',
      listFiles fuel remoteBase (join (resolve cwd updateDir) version) (sys s)
      = (Ok (file :: files), w').
Proof.
  intros T put uL cwd fuel env updateDir version ready events s.
  assert (Hsame : forall A B (x : A) (y : B), x <> x \/ y <> y -> False)
    by (intros A B x y [H|H]; now elim H).
  destruct (negb (version =? "new") && negb (version =? "old")) eqn:G1.
  { unfold push_action. rewrite G1. simpl. intros H. now elim (Hsame _ _ _ _ H). }
  destruct (unset (FTP_HOST env) || unset (FTP_USER env)
            || unset (FTP_PASSWORD env) || unset (FTP_REMOTE_DIR env)) eqn:G2.
  { unfold push_action. rewrite G1, G2. simpl. intros H. now elim (Hsame _ _ _ _ H). }
  assert (Hv : version = "new" \/ version = "old").
  { apply andb_false_iff in G1 as [G|G]; apply negb_false_iff, String.eqb_eq in G; auto. }
  apply orb_false_iff in G2 as [G2 H4]. apply orb_false_iff in G2 as [G2 H3].
  apply orb_false_iff in G2 as [H1 H2].
  destruct (push_action_connected T put uL cwd fuel env updateDir version ready events s
              Hv H1 H2 H3 H4) as (d & Hd & ->).
  cbv zeta. destruct ready as [answer|]; simpl snd.
  2: { destruct (deliver_spec T events s) as (_ & Ht & Hr & _).
       rewrite Ht, Hr. intros H. now elim (Hsame _ _ _ _ H). }
  destruct (deliver_spec T events
              (snd (onReady put uL cwd fuel (normalize d) updateDir version answer s)))
    as (_ & Ht & Hr & _).
  rewrite Ht, Hr. intros Hch.
  destruct (listFiles fuel (normalize d) (join (resolve cwd updateDir) version) (sys s))
    as [r w'] eqn:Hl.
  assert (Hq := onReady_quiet T put uL cwd fuel (normalize d) updateDir version
                  answer s r w' Hl).
  cbv zeta in Hq.
  repeat split; auto.
  - exists answer. split; [reflexivity|].
    destruct (askConfirmation uL answer); auto.
    destruct Hq as [Ht' Hr']; auto. rewrite Ht', Hr' in Hch.
    now elim (Hsame _ _ _ _ Hch).
  - destruct r as [[|file files]|e|].
    + destruct Hq as [Ht' Hr']; [right; intros f fs0; discriminate|].
      rewrite Ht', Hr' in Hch. now elim (Hsame _ _ _ _ Hch).
    + exists (normalize d), file, files, w'. exact Hl.
    + destruct Hq as [Ht' Hr']; [right; intros f fs0; discriminate|].
      rewrite Ht', Hr' in Hch. now elim (Hsame _ _ _ _ Hch).
    + destruct Hq as [Ht' Hr']; [right; intros f fs0; discriminate|].
      rewrite Ht', Hr' in Hch. now elim (Hsame _ _ _ _ Hch).
Qed.

Lemma push_uploads_only_after_all_checks_witness :
  ("new" = "new" \/ "new" = "old")%type /\
  unset (FTP_HOST env_www) = false /\ unset (FTP_USER env_www) = false /\
  unset (FTP_PASSWORD env_www) = false /\ unset (FTP_REMOTE_DIR env_www) = false /\
  (exists answer,
     Some (typed "y") = Some answer /\ askConfirmation keepCase answer = true) /\
  exists remoteBase file files w',
    listFiles 2 remoteBase (join (resolve ["home"] "u1") "new") (sys (session0 disk_u1))
    = (Ok (file :: files), w').
Proof.
  apply (push_uploads_only_after_all_checks (list (path * path)) (storing [])
           keepCase ["home"] 2 env_www "u1" "new"
           (Some (typed "y")) [EvClose false] (session0 disk_u1)).
  left. vm_compute. discriminate.
Defined.

(** X16. However the [ready] handler of [push] ends (completed,
    cancelled, failed while listing or while uploading), it has closed
    the prompt and ended the client, and the local file system is as it
    was. Whatever the client reports, the local file system is as it was
    after the whole command, and once the client has reported anything
    ([ready], [error] or [close]) the prompt is closed. *)
Theorem push_always_cleans_up_and_keeps_local_files :
  forall (T : Type) (put : T -> path -> path -> T * option string)
         unicodeLower cwd fuel updateDir version answer (s : session T),
    (forall remoteBase,
       let s' := snd (onReady put unicodeLower cwd fuel remoteBase updateDir version answer s) in
       rl_closed s' = true /\ client_ended s' = true /\
       fs (sys s') = fs (sys s)) /\
    (forall env ready events,
       fs (sys (snd (push_action put unicodeLower cwd fuel env updateDir version
                                 ready events s)))
       = fs (sys s)) /\
    (forall env ready events r s',
       push_action put unicodeLower cwd fuel env updateDir version ready events s
       = (Some r, s') ->
       ready <> None \/ events <> [] -> rl_closed s' = true).
Proof.
  intros T put uL cwd fuel updateDir version answer s.
  split; [intros remoteBase; apply onReady_keeps|]. split.
  - intros env ready events. unfold push_action.
    destruct (negb (version =? "new") && negb (version =? "old")); [reflexivity|].
    destruct (unset (FTP_HOST env) || unset (FTP_USER env)
              || unset (FTP_PASSWORD env) || unset (FTP_REMOTE_DIR env));
      [reflexivity|].
    destruct ready as [a|].
    + match goal with |- context [onReady put uL cwd fuel ?rb updateDir version a s] =>
        destruct (onReady_keeps T put uL cwd fuel rb updateDir version a s)
          as (_ & _ & H);
        destruct (onReady put uL cwd fuel rb updateDir version a s) as [ph s1] end.
      simpl in *. destruct (deliver_spec T events s1) as (_ & _ & _ & Hfs & _).
      congruence.
    + simpl. apply (deliver_spec T events s).
  - intros env ready events r s'. unfold push_action.
    destruct (negb (version =? "new") && negb (version =? "old")); [discriminate|].
    destruct (unset (FTP_HOST env) || unset (FTP_USER env)
              || unset (FTP_PASSWORD env) || unset (FTP_REMOTE_DIR env));
      [discriminate|].
    destruct ready as [a|].
    + match goal with |- context [onReady put uL cwd fuel ?rb updateDir version a s] =>
        destruct (onReady_keeps T put uL cwd fuel rb updateDir version a s)
          as (Hrl & _ & _);
        destruct (onReady put uL cwd fuel rb updateDir version a s) as [ph s1] end.
      simpl in Hrl. intros [= _ <-] _.
      apply (deliver_spec T events s1). now right.
    + intros [= _ <-] [H|H]; [now elim H|].
      apply (deliver_spec T events s). now left.
Qed.

Lemma push_always_cleans_up_and_keeps_local_files_witness :
  (forall remoteBase,
     let s' := snd (onReady (storing []) keepCase ["home"] 2 remoteBase "u1" "new"
                            (typed "y") (session0 disk_u1)) in
     rl_closed s' = true /\ client_ended s' = true /\ fs (sys s') = disk_u1) /\
  (forall env ready events,
     fs (sys (snd (push_action (storing []) keepCase ["home"] 2 env "u1" "new"
                               ready events (session0 disk_u1))))
     = disk_u1) /\
  rl_closed (snd (push_action (storing []) keepCase ["home"] 2 env_www "u1" "new"
                              None [EvError "connect ECONNREFUSED"]
                              (session0 disk_u1)))
  = true.
Proof.
  destruct (push_always_cleans_up_and_keeps_local_files (list (path * path))
              (storing []) keepCase ["home"] 2 "u1" "new" (typed "y")
              (session0 disk_u1)) as (H1 & H2 & H3).
  split; [exact H1|]. split; [exact H2|].
  apply (H3 env_www None [EvError "connect ECONNREFUSED"] None);
    [reflexivity|right; discriminate].
Defined.

(** X17. [push] with the version and the variables in order, of an update
    directory whose version directory is not a directory, when the client
    becomes ready: whatever is answered, the [ready] handler fails while
    the plan is listed and prints the one error line, with no plan and
    nothing transferred, and closes prompt and client; the lines after
    it are those of the [error] and [close] events reported then. *)
Theorem push_without_version_directory_asks_nothing :
  forall (T : Type) (put : T -> path -> path -> T * option string)
         unicodeLower cwd fuel env updateDir version events (s : session T),
    version = "new" \/ version = "old" ->
    unset (FTP_HOST env) = false -> unset (FTP_USER env) = false ->
    unset (FTP_PASSWORD env) = false -> unset (FTP_REMOTE_DIR env) = false ->
    (forall es, lookup (join (resolve cwd updateDir) version) (fs (sys s))
                <> Some (Dir es)) ->
    exists e,
      forall answer,
        exists s',
          push_action put unicodeLower cwd (S fuel) env updateDir version
                      (Some answer) events s
          = (Some (Some Failed), s') /\
          out (sys s') = out (sys s) ++ [ErrDuringUpload (FsFailure e)]
                         ++ map handler_line events /\
          traffic s' = traffic s /\ remote s' = remote s /\
          fs (sys s') = fs (sys s) /\
          rl_closed s' = true /\ client_ended s' = true.
Proof.
  intros T put uL cwd fuel env updateDir version events s Hv H1 H2 H3 H4 Hnd.
  set (src := join (resolve cwd updateDir) version) in *.
  assert (Hl : exists e, forall remoteBase,
             listFiles (S fuel) remoteBase src (sys s) = (Throw e, sys s)).
  { unfold listFiles. simpl traverse. unfold bind, readdirSync.
    destruct (lookup src (fs (sys s))) as [[x|es]|]; eauto.
    now elim (Hnd es). }
  destruct Hl as [e He]. exists e. intros answer.
  destruct (push_action_connected T put uL cwd (S fuel) env updateDir version
              (Some answer) events s Hv H1 H2 H3 H4) as (d & Hd & Hrun).
  assert (Hr : onReady put uL cwd (S fuel) (normalize d) updateDir version answer s
               = (Failed, finally (say (ErrDuringUpload (FsFailure e)) s))).
  { unfold onReady. fold src. now rewrite He. }
  rewrite Hr in Hrun. simpl fst in Hrun. simpl snd in Hrun.
  set (s1 := finally (say (ErrDuringUpload (FsFailure e)) s)) in *.
  destruct (deliver_spec T events s1) as (Ho & Ht & Hrm & Hfs & Hrl & Hce).
  exists (deliver events s1). split; [exact Hrun|].
  rewrite Ho, Ht, Hrm, Hfs. simpl. rewrite <- app_assoc.
  repeat split; auto.
Qed.

Lemma push_without_version_directory_asks_nothing_witness :
  exists e,
    forall answer,
      exists s',
        push_action (storing []) keepCase ["home"] 1 env_www "u9" "new"
                    (Some answer) [EvClose false] (session0 disk_u1)
        = (Some (Some Failed), s') /\
        out (sys s') = [] ++ [ErrDuringUpload (FsFailure e)]
                       ++ map handler_line [EvClose false] /\
        traffic s' = [] /\ remote s' = [] /\ fs (sys s') = disk_u1 /\
        rl_closed s' = true /\ client_ended s' = true.
Proof.
  apply (push_without_version_directory_asks_nothing (list (path * path)) (storing [])
           keepCase ["home"] 0 env_www "u9" "new" [EvClose false] (session0 disk_u1));
    try reflexivity.
  - left. reflexivity.
  - intros es. vm_compute. discriminate.
Defined.

Lemma uploadEach_out T put files : forall s : session T,
  exists tr,
    traffic (snd (uploadEach put files s)) = traffic s ++ tr /\
    out (sys (snd (uploadEach put files s))) = out (sys s) ++ uploaded (accepted tr) /\
    match fst (uploadEach put files s) with
    | None => accepted tr = files
    | Some e => exists m bad rest,
        e = PutFailure m /\ files = accepted tr ++ bad :: rest
    end.
Proof.
  induction files as [|file files IH]; intros s; simpl.
  - exists []. simpl. rewrite !app_nil_r. auto.
  - unfold uploadFile.
    destruct (put (remote s) (localFilePath file) (remoteFilePath file))
      as [st [m|]].
    + exists [PutIssued file; PutSettled file (Some m)]. simpl.
      rewrite app_nil_r. repeat split; auto.
      exists m, file, files. auto.
    + match goal with |- context [uploadEach put files ?s1] =>
        destruct (IH s1) as (tr & Htr & Hout & Hres) end.
      simpl in Htr, Hout.
      exists (PutIssued file :: PutSettled file None :: tr).
      split; [|split].
      * rewrite Htr, <- app_assoc. reflexivity.
      * rewrite Hout, <- app_assoc. reflexivity.
      * destruct (fst (uploadEach put files _)) as [e|]; simpl.
        -- destruct Hres as (m & bad & rest & -> & ->).
           exists m, bad, rest. auto.
        -- now rewrite Hres.
Qed.

Lemma confirmAndUpload_console T put uL answer files (s : session T) :
  askConfirmation uL answer = true ->
  exists ph s' tr last,
    confirmAndUpload put uL files answer s = (ph, s') /\
    traffic s' = traffic s ++ tr /\
    out (sys s') = out (sys s) ++ [LogFilesToBeUploaded] ++ planned files ++
                   [LogConfirmedStarting] ++ uploaded (accepted tr) ++ [last] /\
    ((ph = Completed /\ last = LogUploadCompleted /\ accepted tr = files) \/
     (ph = Failed /\
      exists m bad rest,
        last = ErrDuringUpload (PutFailure m) /\
        files = accepted tr ++ bad :: rest)).
Proof.
  intros Hyes.
  unfold confirmAndUpload. rewrite Hyes.
  destruct (present_plan T files (say LogFilesToBeUploaded s))
    as [(_ & H2 & _) H3].
  set (s0 := say LogConfirmedStarting _).
  destruct (uploadEach_out T put files s0) as (tr & Htr & Hout & Hres).
  assert (Ht0 : traffic s0 = traffic s) by (simpl; now rewrite H2).
  assert (Ho0 : out (sys s0) = out (sys s) ++ [LogFilesToBeUploaded] ++
                               planned files ++ [LogConfirmedStarting]).
  { simpl. rewrite H3. simpl. now rewrite <- !app_assoc. }
  rewrite Ht0 in Htr. rewrite Ho0 in Hout.
  destruct (uploadEach put files s0) as [[e|] s1]; simpl in *.
  - destruct Hres as (m & bad & rest & -> & Hf).
    exists Failed, (say (ErrDuringUpload (PutFailure m)) s1), tr,
           (ErrDuringUpload (PutFailure m)).
    split; [reflexivity|]. simpl. split; [auto|]. split.
    + rewrite Hout. repeat (rewrite <- app_assoc; simpl). reflexivity.
    + right. split; auto. exists m, bad, rest. auto.
  - exists Completed, (say LogUploadCompleted s1), tr, LogUploadCompleted.
    split; [reflexivity|]. simpl. split; [auto|]. split.
    + rewrite Hout. repeat (rewrite <- app_assoc; simpl). reflexivity.
    + left. auto.
Qed.

(** X18. The lines of a confirmed [push] whose client becomes ready, as
    [console.log] and [console.error] print them: the heading and the
    plan, the line that it starts, one line for each transfer the server
    accepted, in order, then either the line of success, every file of
    the plan accepted, or the error of the transfer that was rejected,
    the accepted ones being the files planned before it; after that come
    the lines of the [error] and [close] events reported then, for a
    client that closes without error the line that it closed
    successfully. The prompt is closed and the client ended. *)
Theorem push_console_reports_each_accepted_transfer :
  forall (T : Type) (put : T -> path -> path -> T * option string)
         unicodeLower cwd fuel env updateDir version answer events
         remoteDir files w' (s : session T),
    version = "new" \/ version = "old" ->
    unset (FTP_HOST env) = false -> unset (FTP_USER env) = false ->
    unset (FTP_PASSWORD env) = false ->
    FTP_REMOTE_DIR env = Some remoteDir -> remoteDir <> "" ->
    listFiles fuel (normalize remoteDir) (join (resolve cwd updateDir) version) (sys s)
    = (Ok files, w') ->
    askConfirmation unicodeLower answer = true ->
    exists ph s' tr last,
      push_action put unicodeLower cwd fuel env updateDir version
                  (Some answer) events s
      = (Some (Some ph), s') /\
      traffic s' = traffic s ++ tr /\
      out (sys s') = out (sys s) ++ [LogFilesToBeUploaded] ++ planned files ++
                     [LogConfirmedStarting] ++ uploaded (accepted tr) ++
                     [last] ++ map handler_line events /\
      rl_closed s' = true /\ client_ended s' = true /\
      ((ph = Completed /\ last = LogUploadCompleted /\ accepted tr = files) \/
       (ph = Failed /\
        exists m bad rest,
          last = ErrDuringUpload (PutFailure m) /\
          files = accepted tr ++ bad :: rest)).
Proof.
  intros T put uL cwd fuel env updateDir version answer events remoteDir
         files w' s Hv H1 H2 H3 Hd Hne Hl Hyes.
  assert (H4 : unset (FTP_REMOTE_DIR env) = false).
  { rewrite Hd. simpl. now apply String.eqb_neq. }
  destruct (push_action_connected T put uL cwd fuel env updateDir version
              (Some answer) events s Hv H1 H2 H3 H4)
    as (d & Hd' & Hrun).
  rewrite Hd in Hd'. injection Hd' as <-.
  destruct (confirmAndUpload_console T put uL answer files s Hyes)
    as (ph & s1 & tr & last & Hc & Ht & Ho & Hres).
  assert (Hr : onReady put uL cwd fuel (normalize remoteDir) updateDir version answer s
               = (ph, finally s1)).
  { unfold onReady. now rewrite Hl, Hc. }
  rewrite Hr in Hrun. simpl fst in Hrun. simpl snd in Hrun.
  destruct (deliver_spec T events (finally s1)) as (Ho' & Ht' & _ & _ & Hrl & Hce).
  exists ph, (deliver events (finally s1)), tr, last.
  split; [exact Hrun|]. rewrite Ho', Ht'. simpl.
  split; [exact Ht|]. split.
  { rewrite Ho. repeat (rewrite <- app_assoc; simpl). reflexivity. }
  split; [apply Hrl; now right|]. split; [now apply Hce|exact Hres].
Qed.

Lemma push_console_reports_each_accepted_transfer_witness :
  exists ph s' tr last,
    push_action (storing []) keepCase ["home"] 2 env_www "u1" "new"
                (Some (typed "y")) [EvClose false] (session0 disk_u1)
    = (Some (Some ph), s') /\
    traffic s' = [] ++ tr /\
    out (sys s') = [] ++ [LogFilesToBeUploaded] ++
                   planned [TransferItem ["home"; "u1"; "new"; "a.txt"]
                                         [""; "www"; "a.txt"]] ++
                   [LogConfirmedStarting] ++ uploaded (accepted tr) ++
                   [last] ++ map handler_line [EvClose false] /\
    rl_closed s' = true /\ client_ended s' = true /\
    ((ph = Completed /\ last = LogUploadCompleted /\
      accepted tr = [TransferItem ["home"; "u1"; "new"; "a.txt"] [""; "www"; "a.txt"]]) \/
     (ph = Failed /\
      exists m bad rest,
        last = ErrDuringUpload (PutFailure m) /\
        [TransferItem ["home"; "u1"; "new"; "a.txt"] [""; "www"; "a.txt"]]
        = accepted tr ++ bad :: rest)).
Proof.
  apply (push_console_reports_each_accepted_transfer (list (path * path))
           (storing []) keepCase ["home"] 2 env_www "u1" "new" (typed "y")
           [EvClose false]
           "/www" [TransferItem ["home"; "u1"; "new"; "a.txt"] [""; "www"; "a.txt"]]
           (world0 disk_u1) (session0 disk_u1)); try reflexivity.
  - left. reflexivity.
  - discriminate.
Defined.

(** The usual run on the scenario disk: the plan of one file is
    confirmed, the server accepts it, the client closes. *)
Example push_usual_run :
  out (sys (snd (push_action (storing []) keepCase ["home"] 2 env_www "u1" "new"
                             (Some (typed "y")) [EvClose false]
                             (session0 disk_u1))))
  = [LogFilesToBeUploaded;
     LogPlanned ["home"; "u1"; "new"; "a.txt"] [""; "www"; "a.txt"];
     LogConfirmedStarting;
     LogUploaded ["home"; "u1"; "new"; "a.txt"] [""; "www"; "a.txt"];
     LogUploadCompleted;
     LogClientClosed].
Proof. reflexivity. Qed.

(* ================================================================== *)
(** * [add] followed by [remove] *)
(* ================================================================== *)







(* ================================================================== *)
(** * [compare] on Basic Latin text *)
(* ================================================================== *)

Lemma utf8_decode_ascii d :
  ascii_only d = true -> utf8_decode Start d = map Byte.to_N d.
Proof.
  induction d as [|b d IH]; simpl; auto.
  rewrite andb_true_iff. intros [Hb Hd].
  unfold lead. rewrite Hb. simpl. now rewrite IH.
Qed.

Lemma toString_ascii d : ascii_only d = true -> toString d = map Byte.to_N d.
Proof.
  intros H. unfold toString. rewrite (utf8_decode_ascii d H).
  induction d as [|b d IH]; simpl; auto.
  simpl in H. apply andb_true_iff in H as [Hb Hd].
  rewrite (IH Hd). unfold utf16.
  assert (Hlt : (Byte.to_N b <? 0x10000)%N = true).
  { apply N.ltb_lt. apply N.leb_le in Hb. lia. }
  now rewrite Hlt.
Qed.

Lemma map_to_N_inj d1 d2 : map Byte.to_N d1 = map Byte.to_N d2 -> d1 = d2.
Proof.
  revert d2. induction d1 as [|b d1 IH]; intros [|c d2]; simpl; try discriminate; auto.
  intros [= Hb Hd]. f_equal; auto.
  apply (f_equal Byte.of_N) in Hb. rewrite !Byte.of_to_N in Hb. now injection Hb.
Qed.

Lemma all_ascii_lookup p : forall t d,
  all_ascii t = true -> lookup p t = Some (File d) -> ascii_only d = true.
Proof.
  induction p as [|n p IH]; intros t d Ha; simpl.
  - intros [= ->]. exact Ha.
  - destruct t as [x|es]; [discriminate|].
    destruct (child n es) as [c|] eqn:E; [|discriminate].
    apply IH. simpl in Ha. rewrite forallb_forall in Ha.
    apply (Ha (n, c)). now apply child_In.
Qed.

(** X20. When every regular file on both sides holds Basic Latin bytes
    only, [compare] is exact: it prints that a name differs exactly when
    some common relative path ending in that name holds a regular file on
    both sides and the two files differ in their bytes. *)
Theorem compare_is_exact_on_ascii_files :
  forall fuel a b w told tnew,
    lookup a (fs w) = Some told -> lookup b (fs w) = Some tnew ->
    isDir told = true -> wf told = true -> compatible told tnew = true ->
    height told < fuel ->
    all_ascii told = true -> all_ascii tnew = true ->
    exists evs,
      compareFilesRecursively fuel a b w = (Ok tt, World (fs w) (out w ++ evs)) /\
      forall nm, In (LogDiffers nm) evs <->
                 exists p x y,
                   lookup (a ++ p ++ [nm]) (fs w) = Some (File x) /\
                   lookup (b ++ p ++ [nm]) (fs w) = Some (File y) /\
                   x <> y.
Proof.
  intros fuel a b w told tnew Ha Hb Hd Hwf Hc Hh Aold Anew.
  destruct (compare_total fuel told tnew a b w Hh Hwf Hd Hc Ha Hb) as [w' Hrun].
  destruct (compare_reports fuel a b w w' Hrun) as (Hfs & evs & Hout & Hdiff).
  exists evs. split.
  - rewrite Hrun. destruct w' as [t' o']. simpl in Hfs, Hout. now subst.
  - intros nm. rewrite Hdiff. unfold differs_below.
    split; intros (p & x & y & Hx & Hy & Hne); exists p, x, y;
      (split; [exact Hx|split; [exact Hy|]]).
    + intros ->. now apply Hne.
    + assert (Ax : ascii_only x = true).
      { rewrite lookup_app, Ha in Hx. apply (all_ascii_lookup _ _ _ Aold Hx). }
      assert (Ay : ascii_only y = true).
      { rewrite lookup_app, Hb in Hy. apply (all_ascii_lookup _ _ _ Anew Hy). }
      rewrite (toString_ascii x Ax), (toString_ascii y Ay).
      intros E. apply Hne. now apply map_to_N_inj.
Qed.

Lemma compare_is_exact_on_ascii_files_witness :
  exists evs,
    compareFilesRecursively 3 ["u"; "old"] ["u"; "new"] (world0 disk_drift)
    = (Ok tt, World disk_drift ([] ++ evs)) /\
    forall nm, In (LogDiffers nm) evs <->
               exists p x y,
                 lookup (["u"; "old"] ++ p ++ [nm]) disk_drift = Some (File x) /\
                 lookup (["u"; "new"] ++ p ++ [nm]) disk_drift = Some (File y) /\
                 x <> y.
Proof.
  apply (compare_is_exact_on_ascii_files 3 ["u"; "old"] ["u"; "new"]
           (world0 disk_drift) drift_old drift_new); try reflexivity.
  vm_compute. lia.
Defined.

(* ================================================================== *)
(** * Where the commands write *)
(* ================================================================== *)

Lemma touches_only_weaken {A} (P Q : path -> Prop) (m : M A) :
  (forall q, P q -> Q q) -> touches_only P m -> touches_only Q m.
Proof. intros HPQ Hm w r w' E q d Hq. apply (Hm w r w' E). auto. Qed.

Lemma touches_only_readonly {A} (P : path -> Prop) (m : M A) :
  readonly m -> touches_only P m.
Proof. intros Hm w r w' E q d _. now rewrite (Hm w r w' E). Qed.

Lemma touches_only_bind {A B} (P : path -> Prop) (m : M A) (k : A -> M B) :
  touches_only P m -> (forall a, touches_only P (k a)) -> touches_only P (bind m k).
Proof.
  intros Hm Hk w r w'. unfold bind.
  destruct (m w) as [[a|e|] w1] eqn:E.
  - intros E2 q d Hq. rewrite (Hm w _ w1 E q d Hq). apply (Hk a w1 r w' E2 q d Hq).
  - intros [= _ <-]. apply (Hm w _ w1 E).
  - intros [= _ <-]. apply (Hm w _ w1 E).
Qed.

Lemma touches_only_forEach {A} (P : path -> Prop) (l : list A) (f : A -> M unit) :
  (forall a, touches_only P (f a)) -> touches_only P (forEach l f).
Proof.
  intros Hf. induction l as [|a l IH]; simpl.
  - apply touches_only_readonly, readonly_ret.
  - apply touches_only_bind; auto.
Qed.

Lemma touches_only_mkdirSync (P : path -> Prop) p : touches_only P (mkdirSync p).
Proof.
  intros w r w'. unfold mkdirSync, modify.
  destruct (mkdirO p (Some (fs w))) as [e|t'] eqn:M; intros [= _ <-] q d _.
  - reflexivity.
  - apply (proj1 (mkdirO_kinds _ _ _ M q) d).
Qed.

(** An operation at [p] leaves the regular files that are not at [p] or
    below it. *)
Lemma alterO_outside p f : forall o o',
  alterO p f o = inr o' ->
  forall q d, is_prefix p q = false ->
    (lookupO q o = Some (File d) <-> lookupO q o' = Some (File d)).
Proof.
  induction p as [|n p IH]; intros o o'; simpl.
  - discriminate.
  - destruct o as [[x|es]|]; try discriminate.
    destruct (alterO p f (child n es)) as [e|[c|]] eqn:A; try discriminate;
      intros [= <-] q d; destruct q as [|m q]; simpl;
      try (intros _; split; discriminate).
    + destruct (String.eqb_spec n m) as [->|Hnm]; simpl.
      * intros Hq. rewrite child_set_child_same.
        apply (IH _ _ A q d Hq).
      * intros _. now rewrite child_set_child_other.
    + destruct p as [|k p].
      * destruct (String.eqb_spec n m) as [->|Hnm]; simpl; [discriminate|].
        intros _. now rewrite child_del_child_other.
      * simpl in A. destruct (child n es) as [[y|ee]|]; try discriminate.
        destruct (alterO p f (child k ee)) as [?|[?|]]; discriminate.
Qed.

Lemma touches_only_alter p f : touches_only (below p) (modify (alter p f)).
Proof.
  intros w r w'. unfold modify, alter.
  destruct (alterO p f (Some (fs w))) as [e|[c|]] eqn:A;
    intros [= _ <-] q d Hq; try reflexivity.
  apply (alterO_outside _ _ _ _ A q d). unfold below in Hq.
  now destruct (is_prefix p q).
Qed.

Lemma below_snoc p n q : below (p ++ [n]) q -> below p q.
Proof. unfold below. apply is_prefix_trans, is_prefix_app. Qed.

Lemma touches_only_copyFileSync src dest :
  touches_only (fun q => q = dest) (copyFileSync src dest).
Proof.
  unfold copyFileSync. apply touches_only_bind.
  - apply touches_only_readonly, readonly_readFileSync.
  - intros d w r w'. unfold modify.
    destruct (alter dest (write_file d) (fs w)) as [e|t'] eqn:W;
      intros [= _ <-] q x Hq; [reflexivity|].
    apply (proj1 (proj2 (alter_write _ _ _ _ W)) q x Hq).
Qed.

Lemma touches_only_copyFileSync_from cwd src dest :
  touches_only (fun q => q = dest) (copyFileSync_from cwd src dest).
Proof.
  intros w r w'. unfold copyFileSync_from.
  destruct (realpath cwd src (fs w)) as [e|p].
  - intros [= _ <-] q d _. reflexivity.
  - apply (touches_only_copyFileSync p dest w r w').
Qed.

Lemma touches_only_unlinkSync_name f :
  touches_only (below (components f)) (unlinkSync_name f).
Proof.
  unfold unlinkSync_name. destruct (trailingSep f).
  - intros w r w'.
    destruct (lookup (components f) (fs w)) as [[d|es]|];
      intros [= _ <-] q x _; reflexivity.
  - apply touches_only_alter.
Qed.

Lemma touches_only_copyDirectory k : forall src dest,
  touches_only (below dest) (copyDirectory k src dest).
Proof.
  induction k as [|k IH]; intros src dest; simpl.
  - apply touches_only_readonly, readonly_timeout.
  - apply touches_only_bind; [apply touches_only_mkdirSync|]. intros _.
    apply touches_only_bind;
      [apply touches_only_readonly, readonly_readdirSync|]. intros entries.
    apply touches_only_forEach. intros entry. cbv zeta.
    destruct (isDirectory entry).
    + apply (touches_only_weaken (below (dest ++ [name entry]))); [|apply IH].
      intros q. apply below_snoc.
    + apply (touches_only_weaken (fun q => q = dest ++ [name entry]));
        [|apply touches_only_copyFileSync].
      intros q ->. unfold below. apply is_prefix_app.
Qed.

Lemma readonly_lstatSync p : readonly (lstatSync_isDirectory p).
Proof.
  intros w r w'. unfold lstatSync_isDirectory.
  destruct (lookup p (fs w)); intros [= _ <-]; reflexivity.
Qed.

Lemma touches_only_deleteDirectory k : forall dir,
  touches_only (below dir) (deleteDirectory k dir).
Proof.
  induction k as [|k IH]; intros dir; simpl.
  - apply touches_only_readonly, readonly_timeout.
  - apply touches_only_bind;
      [apply touches_only_readonly, readonly_existsSync|]. intros e.
    destruct e; [|apply touches_only_readonly, readonly_ret].
    apply touches_only_bind;
      [apply touches_only_readonly, readonly_readdirSync|]. intros files.
    apply touches_only_bind.
    + apply touches_only_forEach. intros file. cbv zeta.
      apply (touches_only_weaken (below (dir ++ [file]))); [apply below_snoc|].
      apply touches_only_bind;
        [apply touches_only_readonly, readonly_lstatSync|]. intros d.
      destruct d; [apply IH|apply touches_only_alter].
    + intros _. apply touches_only_alter.
Qed.

(** X21. Whatever the state of the disk and however they end, also when
    they throw half way, [backup] creates, changes and deletes regular
    files only inside the backup directory, and [restore] only inside
    the update directory. *)
Theorem backup_and_restore_stay_inside_their_target :
  forall cwd fuel,
    (forall now updateDir,
       touches_only (below (backupDir_of (resolve cwd updateDir) now))
                    (backup_action cwd fuel now updateDir)) /\
    (forall updateDir backupDir,
       touches_only (below (resolve cwd updateDir))
                    (restore_action cwd fuel updateDir backupDir)).
Proof.
  intros cwd fuel. split.
  - intros now updateDir. unfold backup_action.
    apply touches_only_bind; [apply touches_only_copyDirectory|].
    intros _. apply touches_only_readonly, readonly_log.
  - intros updateDir backupDir. unfold restore_action.
    apply touches_only_bind;
      [apply touches_only_readonly, readonly_existsSync|]. intros e.
    destruct (negb e); [apply touches_only_readonly, readonly_log|].
    apply touches_only_bind; [apply touches_only_deleteDirectory|]. intros _.
    apply touches_only_bind; [apply touches_only_copyDirectory|]. intros _.
    apply touches_only_readonly, readonly_log.
Qed.

Lemma touches_only_replicateStructure k : forall src dest,
  touches_only nowhere (replicateStructure k src dest).
Proof.
  induction k as [|k IH]; intros src dest; simpl.
  - apply touches_only_readonly, readonly_timeout.
  - apply touches_only_bind;
      [apply touches_only_readonly, readonly_readdirSync|]. intros entries.
    apply touches_only_forEach. intros entry. cbv zeta.
    destruct (isDirectory entry); [|apply touches_only_readonly, readonly_ret].
    apply touches_only_bind;
      [apply touches_only_readonly, readonly_existsSync|]. intros e.
    apply touches_only_bind; [|intros _; apply IH].
    destruct (negb e);
      [apply touches_only_mkdirSync|apply touches_only_readonly, readonly_ret].
Qed.

(** X22. [create] and [replicateStructure] only ever make directories:
    whatever the state of the disk and however they end, no regular file
    is created, changed or deleted. *)
Theorem create_and_replicateStructure_make_directories_only :
  forall cwd fuel,
    (forall updateDir, touches_only nowhere (create_action cwd updateDir)) /\
    (forall srcDir destDir,
       touches_only nowhere (replicateStructure fuel srcDir destDir)).
Proof.
  intros cwd fuel. split.
  - intros updateDir. unfold create_action.
    repeat (apply touches_only_bind;
            [first [apply touches_only_readonly, readonly_existsSync
                   |match goal with
                    | |- touches_only _ (if negb ?e then _ else _) =>
                        destruct (negb e);
                        [apply touches_only_mkdirSync
                        |apply touches_only_readonly, readonly_ret]
                    end]
            |intros ?]).
    apply touches_only_readonly, readonly_log.
  - intros srcDir destDir. apply touches_only_replicateStructure.
Qed.

(** X23. Whatever the state of the disk and however they end, [add]
    creates or changes regular files at its two destination paths alone,
    and [remove] deletes regular files only at its two paths. *)
Theorem add_and_remove_touch_their_two_paths_only :
  forall cwd updateDir filePath,
    touches_only
      (fun q => q = add_destOldPath cwd updateDir filePath \/
                q = add_destNewPath cwd updateDir filePath)
      (add_action cwd updateDir filePath) /\
    touches_only
      (fun q => below (components (remove_oldDir cwd updateDir filePath)) q \/
                below (components (remove_newDir cwd updateDir filePath)) q)
      (remove_action cwd updateDir filePath).
Proof.
  intros cwd updateDir filePath. split.
  - unfold add_action.
    apply touches_only_bind; [apply touches_only_mkdirSync|]. intros _.
    apply touches_only_bind; [apply touches_only_mkdirSync|]. intros _.
    apply touches_only_bind.
    { apply (touches_only_weaken (fun q => q = add_destOldPath cwd updateDir filePath));
        [auto|apply touches_only_copyFileSync_from]. }
    intros _. apply touches_only_bind.
    { apply (touches_only_weaken (fun q => q = add_destNewPath cwd updateDir filePath));
        [auto|apply touches_only_copyFileSync_from]. }
    intros _. apply touches_only_bind; [apply touches_only_readonly, readonly_log|].
    intros _. apply touches_only_readonly, readonly_log.
  - unfold remove_action, removeFileIfExists.
    apply touches_only_bind.
    + apply touches_only_bind;
        [apply touches_only_readonly, readonly_existsSync_name|]. intros e.
      destruct e; [|apply touches_only_readonly, readonly_log].
      apply touches_only_bind; [|intros _; apply touches_only_readonly, readonly_log].
      apply (touches_only_weaken
               (below (components (remove_oldDir cwd updateDir filePath))));
        [auto|apply touches_only_unlinkSync_name].
    + intros _. apply touches_only_bind;
        [apply touches_only_readonly, readonly_existsSync_name|]. intros e.
      destruct e; [|apply touches_only_readonly, readonly_log].
      apply touches_only_bind; [|intros _; apply touches_only_readonly, readonly_log].
      apply (touches_only_weaken
               (below (components (remove_newDir cwd updateDir filePath))));
        [auto|apply touches_only_unlinkSync_name].
Qed.
